(** * Destructured-props rewriter of [compiler-sfc]

    A shallow embedding of
    [packages/compiler-sfc/src/compileScriptPropsDestructure.ts]
    ([transformDestructuredProps] and the functions nested in it), with the
    properties of its scope handling, identifier rewriting and diagnostics.

    Modelling conventions.
    - A Babel node is a JS object: an identity ([uid], standing for object
      identity as used by [===] and by the [WeakSet] of excluded identifiers),
      its [type] tag, its [start]/[end] offsets, its scalar fields ([attrs])
      and its node-valued fields ([kids]), the latter in enumeration order,
      each holding one node or an array whose entries may be [null].
    - A field that Babel types as a node is read with [child], one typed as an
      array with [elems]; reading [.type] (or iterating) on a field that is
      absent raises the JS [TypeError], written out wherever the source
      dereferences without a guard.
    - [Scope] objects ([Record<string, boolean>]) are finite maps holding
      the own properties.  Every scope object is a plain [{}] built by the
      pass: an assignment to its key [__proto__] reaches the accessor of
      [Object.prototype], which ignores a boolean, and stores nothing
      ([scope_set]).  [propsLocalToPublicMap] is built by
      [Object.create(null)] and stores every key.
    - [currentScope] always aliases the last element of [scopeStack] (it is
      assigned together with every push and re-read after every pop), so the
      model keeps the stack alone, innermost frame first, and a registration
      updates the head frame in place.
    - The [MagicString] [s] belongs to the caller and is mutated in place; it
      is modelled by the log of the edit calls made on it, and, unlike the
      other components of the state, it outlives a thrown error.  What the
      library does with a call is not part of the file under verification:
      a call that it rejects (a span that leaves the document) throws from
      the library and ends the pass, and the model describes the runs in
      which the calls are accepted.
    - [error] never returns: a call is a thrown [Diag]. *)

From stdpp Require Import gmap strings list.
From Stdlib Require Import ZArith String.

Local Open Scope string_scope.
Local Open Scope Z_scope.

(** ** Syntax trees *)

Inductive Prim : Type :=
  | PBool (b : bool)
  | PStr (x : string)
  | PNum (z : Z)
  | PNull.

Inductive Kid (A : Type) : Type :=
  | KOne (a : A)
  | KMany (l : list (option A)).

Arguments KOne {A} a.
Arguments KMany {A} l.

Local Unset Elimination Schemes.

Inductive Node : Type :=
  mkNode (uid : nat) (type : string) (nstart nend : Z)
         (attrs : list (string * Prim)) (kids : list (string * Kid Node)).

Local Set Elimination Schemes.

Definition uid (n : Node) : nat := match n with mkNode u _ _ _ _ _ => u end.
Definition type (n : Node) : string := match n with mkNode _ t _ _ _ _ => t end.
Definition nstart (n : Node) : Z := match n with mkNode _ _ a _ _ _ => a end.
Definition nend (n : Node) : Z := match n with mkNode _ _ _ b _ _ => b end.
Definition attrs (n : Node) : list (string * Prim) :=
  match n with mkNode _ _ _ _ a _ => a end.
Definition kids (n : Node) : list (string * Kid Node) :=
  match n with mkNode _ _ _ _ _ k => k end.

(** [t === 'X'] on type tags and names. *)
Definition str_eq (a b : string) : bool := String.eqb a b.

Fixpoint assoc {A : Type} (l : list (string * A)) (key : string) : option A :=
  match l with
  | [] => None
  | (k, v) :: r => if str_eq k key then Some v else assoc r key
  end.

(** [with_node ks key f d]: [f] on the node stored under [key], [d] when the
    field is absent.  Written as a fold over the fields so that a function
    recursive on the tree can descend through a named field. *)
Definition with_node {B : Type} (ks : list (string * Kid Node)) (key : string)
    (f : Node -> B) (d : B) : B :=
  (fix find (l : list (string * Kid Node)) : B :=
     match l with
     | [] => d
     | (k, v) :: r =>
         if str_eq k key
         then match v with KOne c => f c | KMany _ => d end
         else find r
     end) ks.

(** [with_list ks key f d]: the same for an array-valued field. *)
Definition with_list {B : Type} (ks : list (string * Kid Node)) (key : string)
    (f : list (option Node) -> B) (d : B) : B :=
  (fix find (l : list (string * Kid Node)) : B :=
     match l with
     | [] => d
     | (k, v) :: r =>
         if str_eq k key
         then match v with KMany a => f a | KOne _ => d end
         else find r
     end) ks.

Definition child (n : Node) (key : string) : option Node :=
  with_node (kids n) key Some None.

Definition elems (n : Node) (key : string) : option (list (option Node)) :=
  with_list (kids n) key Some None.

Definition attr (n : Node) (key : string) : option Prim := assoc (attrs n) key.

(** JS truthiness of a scalar field ([undefined] when absent). *)
Definition truthy (o : option Prim) : bool :=
  match o with
  | Some (PBool b) => b
  | Some (PStr x) => negb (str_eq x "")
  | Some (PNum z) => negb (z =? 0)
  | Some PNull | None => false
  end.

Definition flag (n : Node) (key : string) : bool := truthy (attr n key).

(** [id.name]; used as a property key, an absent name reads as the key
    ["undefined"]. *)
Definition name (n : Node) : string :=
  match attr n "name" with
  | Some (PStr x) => x
  | _ => "undefined"
  end.

(** [o === n] between a field and a node: object identity. *)
Definition same (o : option Node) (n : Node) : bool :=
  match o with
  | Some m => Nat.eqb (uid m) (uid n)
  | None => false
  end.

(** The nodes the walker descends into, in visiting order: every node-valued
    field, and every non-null entry of every array-valued field. *)
Definition kid_nodes (k : Kid Node) : list Node :=
  match k with
  | KOne c => [c]
  | KMany l => omap id l
  end.

Definition children (n : Node) : list Node :=
  flat_map (fun kv => kid_nodes (snd kv)) (kids n).

(** ** Outcomes *)

(** The three calls of the diagnostic sink [error], by call site. *)
Inductive Diagnostic : Type :=
  | ReadonlyViolation (id : Node)
  | ReactivityTrackingMisuse (method : string) (arg : Node)
  | InternalInvariantViolation (id : Node).

(** What can be thrown: a diagnostic through [error], or the runtime's own
    [TypeError] on dereferencing [undefined]. *)
Inductive Exn : Type :=
  | Diag (d : Diagnostic)
  | TypeError.

Inductive Outcome (A : Type) : Type :=
  | Done (a : A)
  | Throw (e : Exn).

Arguments Done {A} a.
Arguments Throw {A} e.

Definition obind {A B : Type} (o : Outcome A) (k : A -> Outcome B) : Outcome B :=
  match o with
  | Done a => k a
  | Throw e => Throw e
  end.

Notation "'let?' x := o 'in' k" := (obind o (fun x => k))
  (at level 10, x name, o at level 100, k at level 200).

(** Dereferencing a field that may be [undefined]. *)
Definition deref {A : Type} (o : option A) : Outcome A :=
  match o with
  | Some a => Done a
  | None => Throw TypeError
  end.

(** ** Tree helpers

    The helpers below are imported by the source from [@vue/compiler-core]
    ([babelUtils]) and are not part of the file under verification. *)

Definition ends_with (suffix x : string) : bool :=
  let n := String.length x in
  let m := String.length suffix in
  (m <=? n)%nat && str_eq (substring (n - m) m x) suffix.

Definition starts_with (pre x : string) : bool := String.prefix pre x.

(** Modelled from the spec: [isFunctionType] of [@vue/compiler-core] is
    missing; it is the "function-type detection" primitive, the test
    [/Function(?:Expression|Declaration)$|Method$/] on the type tag. *)
Definition isFunctionType (node : Node) : bool :=
  ends_with "FunctionExpression" (type node)
  || ends_with "FunctionDeclaration" (type node)
  || ends_with "Method" (type node).

Definition TS_NODE_TYPES : list string :=
  [ "TSAsExpression"; "TSTypeAssertion"; "TSNonNullExpression";
    "TSInstantiationExpression"; "TSSatisfiesExpression" ].

Definition includes (l : list string) (x : string) : bool :=
  existsb (str_eq x) l.

(** Modelled from the spec: [unwrapTSNode] of [@vue/compiler-core] is
    missing; it peels the hybrid type/value wrappers off an expression by
    following [expression].  Its argument is dereferenced at once, so the
    absent expression of a wrapper is a [TypeError]. *)
Fixpoint unwrapTSNode (node : Node) : Outcome Node :=
  match node with
  | mkNode _ ty _ _ _ ks =>
      if includes TS_NODE_TYPES ty
      then with_node ks "expression" unwrapTSNode (Throw TypeError)
      else Done node
  end.

(** Modelled from the spec: [isCallOf] of [@vue/compiler-core] is missing;
    it is the "call-expression matching" primitive: a [CallExpression] whose
    callee is the identifier [test] (no match on an empty [test]). *)
Definition isCallOf (node : Node) (test : string) : Outcome bool :=
  if negb (str_eq test "") && str_eq (type node) "CallExpression"
  then
    let? callee := deref (child node "callee") in
    Done (str_eq (type callee) "Identifier" && str_eq (name callee) test)
  else Done false.

(** The loop of [extractIdentifiers] on a member expression: down [object]
    to the first node that is not a [MemberExpression]. *)
Fixpoint member_base (node : Node) : Outcome Node :=
  match node with
  | mkNode _ ty _ _ _ ks =>
      if str_eq ty "MemberExpression"
      then with_node ks "object" member_base (Throw TypeError)
      else Done node
  end.

(** Modelled from the spec: [extractIdentifiers] of [@vue/compiler-core] is
    missing; it is the "identifier extraction" primitive: every bound name of
    a declaration target, through arbitrarily nested array, object, rest and
    default patterns, in source order. *)
Fixpoint extractIdentifiers (param : Node) : Outcome (list Node) :=
  match param with
  | mkNode _ ty _ _ _ ks =>
      if str_eq ty "Identifier" then Done [param]
      else if str_eq ty "MemberExpression" then
        let? object := member_base param in Done [object]
      else if str_eq ty "ObjectPattern" then
        with_list ks "properties"
          (fix props (l : list (option Node)) : Outcome (list Node) :=
             match l with
             | [] => Done []
             | None :: _ => Throw TypeError
             | Some prop :: r =>
                 let? ids :=
                   if str_eq (type prop) "RestElement"
                   then with_node (kids prop) "argument"
                          extractIdentifiers (Throw TypeError)
                   else with_node (kids prop) "value"
                          extractIdentifiers (Throw TypeError) in
                 let? rest := props r in
                 Done (ids ++ rest)%list
             end)
          (Throw TypeError)
      else if str_eq ty "ArrayPattern" then
        with_list ks "elements"
          (fix elements (l : list (option Node)) : Outcome (list Node) :=
             match l with
             | [] => Done []
             | None :: r => elements r
             | Some element :: r =>
                 let? ids := extractIdentifiers element in
                 let? rest := elements r in
                 Done (ids ++ rest)%list
             end)
          (Throw TypeError)
      else if str_eq ty "RestElement" then
        with_node ks "argument" extractIdentifiers (Throw TypeError)
      else if str_eq ty "AssignmentPattern" then
        with_node ks "left" extractIdentifiers (Throw TypeError)
      else Done []
  end.

(** Modelled from the spec: [isStaticProperty] of [@vue/compiler-core] is
    missing: an object property or method whose key is not computed. *)
Definition isStaticProperty (node : Node) : bool :=
  (str_eq (type node) "ObjectProperty" || str_eq (type node) "ObjectMethod")
  && negb (flag node "computed").

(** The loop of [isInDestructureAssignment]: up the parent chain, innermost
    first, through properties and patterns, to an assignment. *)
Fixpoint up_to_assignment (parentStack : list Node) : bool :=
  match parentStack with
  | [] => false
  | p :: r =>
      if str_eq (type p) "AssignmentExpression" then true
      else if negb (str_eq (type p) "ObjectProperty")
              && negb (ends_with "Pattern" (type p)) then false
      else up_to_assignment r
  end.

(** Modelled from the spec: [isInDestructureAssignment] of
    [@vue/compiler-core] is missing: the "pattern position" reading of the
    parent chain, true when the enclosing pattern is the target of an
    assignment expression rather than a binding. *)
Definition isInDestructureAssignment (parent : Node) (parentStack : list Node)
    : bool :=
  (str_eq (type parent) "ObjectProperty" || str_eq (type parent) "ArrayPattern")
  && up_to_assignment parentStack.

(** Modelled from the spec: [isReferenced] of [@vue/compiler-core] (its copy
    of Babel's validator) is missing; it tells, by the kind of the parent
    and the field the identifier sits in, a reference from a declaration
    site, a property key or a label.  The source reaches it through
    [isReferencedIdentifier], which passes no grandparent. *)
Definition isReferenced (node parent : Node) (grandparent : option Node)
    : bool :=
  let t := type parent in
  let one_of l := includes l t in
  if one_of ["MemberExpression"; "OptionalMemberExpression"] then
    if same (child parent "property") node then flag parent "computed"
    else same (child parent "object") node
  else if one_of ["JSXMemberExpression"] then same (child parent "object") node
  else if one_of ["VariableDeclarator"] then same (child parent "init") node
  else if one_of ["ArrowFunctionExpression"] then same (child parent "body") node
  else if one_of ["PrivateName"] then false
  else if one_of ["ClassMethod"; "ClassPrivateMethod"; "ObjectMethod"] then
    if same (child parent "key") node then flag parent "computed" else false
  else if one_of ["ObjectProperty"] then
    if same (child parent "key") node then flag parent "computed"
    else match grandparent with
         | None => true
         | Some g => negb (str_eq (type g) "ObjectPattern")
         end
  else if one_of ["ClassProperty"] then
    if same (child parent "key") node then flag parent "computed" else true
  else if one_of ["ClassPrivateProperty"] then
    negb (same (child parent "key") node)
  else if one_of ["ClassDeclaration"; "ClassExpression"] then
    same (child parent "superClass") node
  else if one_of ["AssignmentExpression"; "AssignmentPattern"] then
    same (child parent "right") node
  else if one_of ["LabeledStatement"; "CatchClause"; "RestElement";
                  "BreakStatement"; "ContinueStatement";
                  "FunctionDeclaration"; "FunctionExpression";
                  "ExportNamespaceSpecifier"; "ExportDefaultSpecifier"] then
    false
  else if one_of ["ExportSpecifier"] then
    match grandparent with
    | Some g =>
        match child g "source" with
        | Some _ => false
        | None => same (child parent "local") node
        end
    | None => same (child parent "local") node
    end
  else if one_of ["ImportDefaultSpecifier"; "ImportNamespaceSpecifier";
                  "ImportSpecifier"; "ImportAttribute"; "JSXAttribute";
                  "ObjectPattern"; "ArrayPattern"; "MetaProperty"] then
    false
  else if one_of ["ObjectTypeProperty"] then negb (same (child parent "key") node)
  else if one_of ["TSEnumMember"] then negb (same (child parent "id") node)
  else if one_of ["TSPropertySignature"] then
    if same (child parent "key") node then flag parent "computed" else true
  else true.

(** Modelled from the spec: [isReferencedIdentifier] of [@vue/compiler-core]
    is missing; it classifies an occurrence as a genuine reference ("not a
    declaration site, not a non-shorthand property key, not a label"),
    counting in the identifiers that are assigned to. *)
Definition isReferencedIdentifier (id : Node) (parent : option Node)
    (parentStack : list Node) : bool :=
  match parent with
  | None => true
  | Some parent =>
      if str_eq (name id) "arguments" then false
      else if isReferenced id parent None then true
      else if includes ["AssignmentExpression"; "AssignmentPattern"] (type parent)
      then true
      else if includes ["ObjectPattern"; "ArrayPattern"] (type parent)
      then isInDestructureAssignment parent parentStack
      else false
  end.

(** ** State of the pass *)

(** The calls made on the [MagicString]. *)
Inductive Edit : Type :=
  | Overwrite (start end_ : Z) (content : string)
  | AppendLeft (index : Z) (content : string).

(** [true]: prop binding; [false]: local binding. *)
Abbreviation Scope := (gmap string bool).

(** [scope[key] = binding] on a scope object of the pass, a plain [{}]:
    the key [__proto__] is not stored (the setter inherited from
    [Object.prototype] ignores a value that is neither an object nor
    [null]), so that [hasOwn(scope, '__proto__')] stays false. *)
Definition scope_set (scope : Scope) (key : string) (binding : bool) : Scope :=
  if str_eq key "__proto__" then scope else <[key := binding]> scope.

Record State : Type := mkState {
  scopeStack : list Scope;
  excludedIds : gset nat;
  parentStack : list Node;
  s : list Edit
}.

Definition M (A : Type) : Type := State -> Outcome A * State.

Definition ret {A : Type} (a : A) : M A := fun st => (Done a, st).

Definition bind {A B : Type} (m : M A) (k : A -> M B) : M B :=
  fun st =>
    match m st with
    | (Done a, st') => k a st'
    | (Throw e, st') => (Throw e, st')
    end.

Definition throw {A : Type} (e : Exn) : M A := fun st => (Throw e, st).

Definition lift {A : Type} (o : Outcome A) : M A := fun st => (o, st).

Notation "'let!' x := m 'in' k" := (bind m (fun x => k))
  (at level 10, x name, m at level 100, k at level 200, only parsing).
Notation "m ;; k" := (bind m (fun _ => k))
  (at level 100, k at level 200, only parsing, right associativity).

(** [error(msg, node)]. *)
Definition error {A : Type} (d : Diagnostic) : M A := throw (Diag d).

(** [for (const x of xs)] over an array of nodes; the body reads a field of
    [x] first, so a [null] entry is a [TypeError]. *)
Fixpoint for_of (xs : list (option Node)) (body : Node -> M unit) : M unit :=
  match xs with
  | [] => ret tt
  | None :: _ => throw TypeError
  | Some x :: r => body x ;; for_of r body
  end.

Fixpoint for_ids (ids : list Node) (body : Node -> M unit) : M unit :=
  match ids with
  | [] => ret tt
  | id :: r => body id ;; for_ids r body
  end.

Definition excludedIds_add (id : Node) : M unit := fun st =>
  (Done tt, mkState (scopeStack st) ({[ uid id ]} ∪ excludedIds st)
                    (parentStack st) (s st)).

Definition excludedIds_has (id : Node) (st : State) : bool :=
  bool_decide (uid id ∈ excludedIds st).

(** [scopeStack.push((currentScope = {}))]. *)
Definition push_scope : M unit := fun st =>
  (Done tt, mkState (∅ :: scopeStack st) (excludedIds st) (parentStack st) (s st)).

(** [scopeStack.pop(); currentScope = scopeStack[scopeStack.length - 1] || null]. *)
Definition pop_scope : M unit := fun st =>
  (Done tt, mkState (tail (scopeStack st)) (excludedIds st) (parentStack st) (s st)).

Definition parentStack_push (parent : Node) : M unit := fun st =>
  (Done tt, mkState (scopeStack st) (excludedIds st) (parent :: parentStack st) (s st)).

Definition parentStack_pop : M unit := fun st =>
  (Done tt, mkState (scopeStack st) (excludedIds st) (tail (parentStack st)) (s st)).

(** [s.overwrite] and [s.appendLeft]. *)
Definition record (e : Edit) : M unit := fun st =>
  (Done tt, mkState (scopeStack st) (excludedIds st) (parentStack st) (s st ++ [e])).

(** What the walker is told on return from [enter]: go on into the children,
    or [this.skip()]. *)
Inductive Signal : Type := Continue | Skip.

(** ** The pass *)

Section Pass.

Variable offset : Z.
Variable propsLocalToPublicMap : gmap string string.
Variable vueImportAliases : gmap string string.

(** [genPropsAccessExp] of [@vue/shared], the text of the access to a prop
    by its public name, is not part of the file under verification and is
    left open. *)
Variable genPropsAccessExp : string -> string.

(** [genPropsAccessExp(propsLocalToPublicMap[id.name])]; a missing entry is
    [undefined], which the template prints as such. *)
Definition access (id : Node) : string :=
  genPropsAccessExp (default "undefined" (propsLocalToPublicMap !! name id)).

Definition registerLocalBinding (id : Node) : M unit :=
  excludedIds_add id ;;
  fun st =>
    match scopeStack st with
    | currentScope :: outer =>
        (Done tt, mkState (scope_set currentScope (name id) false :: outer)
                          (excludedIds st) (parentStack st) (s st))
    | [] => error (InternalInvariantViolation id) st
    end.

Definition walkVariableDeclaration (stmt : Node) (isRoot : bool) : M unit :=
  if flag stmt "declare" then ret tt
  else
    let! declarations := lift (deref (elems stmt "declarations")) in
    for_of declarations (fun decl =>
      let! isDefineProps := lift
        (if isRoot
         then match child decl "init" with
              | Some init =>
                  let? e := unwrapTSNode init in isCallOf e "defineProps"
              | None => Done false
              end
         else Done false) in
      let! ids := lift (let? id := deref (child decl "id") in
                   extractIdentifiers id) in
      for_ids ids (fun id =>
        if isDefineProps : bool
        then excludedIds_add id
        else registerLocalBinding id)).

Definition walkScope (node : Node) (isRoot : bool) : M unit :=
  let! body := lift (deref (elems node "body")) in
  for_of body (fun stmt =>
    if str_eq (type stmt) "VariableDeclaration" then
      walkVariableDeclaration stmt isRoot
    else if str_eq (type stmt) "FunctionDeclaration"
            || str_eq (type stmt) "ClassDeclaration" then
      match child stmt "id" with
      | Some id => if flag stmt "declare" then ret tt
                   else registerLocalBinding id
      | None => ret tt
      end
    else
      let! is_for_decl := lift
        (if str_eq (type stmt) "ForOfStatement"
            || str_eq (type stmt) "ForInStatement"
         then let? left := deref (child stmt "left") in
              Done (str_eq (type left) "VariableDeclaration")
         else Done false) in
      if is_for_decl : bool then
        let! left := lift (deref (child stmt "left")) in
        walkVariableDeclaration left false
      else if str_eq (type stmt) "ExportNamedDeclaration"
              && match child stmt "declaration" with
                 | Some d => str_eq (type d) "VariableDeclaration"
                 | None => false
                 end then
        let! declaration := lift (deref (child stmt "declaration")) in
        walkVariableDeclaration declaration isRoot
      else
        let! is_labeled_decl := lift
          (if str_eq (type stmt) "LabeledStatement"
           then let? body := deref (child stmt "body") in
                Done (str_eq (type body) "VariableDeclaration")
           else Done false) in
        if is_labeled_decl : bool then
          let! body := lift (deref (child stmt "body")) in
          walkVariableDeclaration body isRoot
        else ret tt).

Definition rewriteId (scope : Scope) (id : Node) (parent : option Node)
    (parentStack : list Node) : M bool :=
  match scope !! name id with
  | Some binding =>
      (if binding : bool then
         let! parent := lift (deref parent) in
         (if (str_eq (type parent) "AssignmentExpression"
              && same (child parent "left") id)
             || str_eq (type parent) "UpdateExpression"
          then error (ReadonlyViolation id)
          else ret tt) ;;
         if isStaticProperty parent && flag parent "shorthand" then
           if negb (flag parent "inPattern")
              || isInDestructureAssignment parent parentStack
           then record (AppendLeft (nend id + offset) (": " ++ access id))
           else ret tt
         else
           record (Overwrite (nstart id + offset) (nend id + offset) (access id))
       else ret tt) ;;
      ret true
  | None => ret false
  end.

Definition checkUsage (node : Node) (method : string) (alias : option string)
    : M unit :=
  let alias := default method alias in
  let! called := lift (isCallOf node alias) in
  if called : bool then
    let! arg := lift (let? arguments := deref (elems node "arguments") in
                 let? arg0 := deref (mjoin (head arguments)) in
                 unwrapTSNode arg0) in
    if str_eq (type arg) "Identifier"
    then error (ReactivityTrackingMisuse method arg)
    else ret tt
  else ret tt.

Definition walkFunctionParams (node : Node) (onIdent : Node -> M unit)
    : M unit :=
  let! params := lift (deref (elems node "params")) in
  for_of params (fun p =>
    let! ids := lift (extractIdentifiers p) in
    for_ids ids onIdent).

(** [let i = scopeStack.length; while (i--) if (rewriteId(scopeStack[i], ...)) return]:
    the frames innermost first, up to the first one that has the name. *)
Fixpoint rewrite_in (scopes : list Scope) (id : Node) (parent : option Node)
    (parentStack : list Node) : M unit :=
  match scopes with
  | [] => ret tt
  | scope :: outer =>
      let! found := rewriteId scope id parent parentStack in
      if found : bool then ret tt
      else rewrite_in outer id parent parentStack
  end.

(** [parent.type.startsWith('TS')] outside the three hybrid kinds. *)
Definition is_type_parent (parent : Node) : bool :=
  starts_with "TS" (type parent)
  && negb (str_eq (type parent) "TSAsExpression")
  && negb (str_eq (type parent) "TSNonNullExpression")
  && negb (str_eq (type parent) "TSTypeAssertion").

Definition enter (node : Node) (parent : option Node) : M Signal :=
  match parent with Some p => parentStack_push p | None => ret tt end ;;
  if match parent with Some p => is_type_parent p | None => false end
  then ret Skip
  else
    checkUsage node "watch" (vueImportAliases !! "watch") ;;
    checkUsage node "toRef" (vueImportAliases !! "toRef") ;;
    if isFunctionType node then
      push_scope ;;
      walkFunctionParams node registerLocalBinding ;;
      let! body := lift (deref (child node "body")) in
      (if str_eq (type body) "BlockStatement"
       then walkScope body false else ret tt) ;;
      ret Continue
    else if str_eq (type node) "CatchClause" then
      push_scope ;;
      match child node "param" with
      | Some param =>
          if str_eq (type param) "Identifier"
          then registerLocalBinding param else ret tt
      | None => ret tt
      end ;;
      let! body := lift (deref (child node "body")) in
      walkScope body false ;;
      ret Continue
    else
      let! in_function := lift
        (if str_eq (type node) "BlockStatement"
         then let? p := deref parent in Done (isFunctionType p)
         else Done true) in
      if str_eq (type node) "BlockStatement" && negb in_function then
        push_scope ;;
        walkScope node false ;;
        ret Continue
      else if str_eq (type node) "Identifier" then
        (fun st =>
           if isReferencedIdentifier node parent (parentStack st)
              && negb (excludedIds_has node st)
           then rewrite_in (scopeStack st) node parent (parentStack st) st
           else ret tt st) ;;
        ret Continue
      else ret Continue.

Definition leave (node : Node) (parent : option Node) : M unit :=
  match parent with Some _ => parentStack_pop | None => ret tt end ;;
  let! block_scope := lift
    (if str_eq (type node) "BlockStatement"
     then let? p := deref parent in Done (negb (isFunctionType p))
     else Done false) in
  if block_scope || isFunctionType node then pop_scope else ret tt.

(** [walk] of the [estree-walker] library with these two callbacks: on a
    node, [enter]; then, unless [enter] asked to skip, every child in field
    order and [leave].  A skipped node gets no [leave]. *)
Fixpoint visit (node : Node) (parent : option Node) {struct node} : M unit :=
  let! signal := enter node parent in
  match signal with
  | Skip => ret tt
  | Continue =>
      match node with
      | mkNode _ _ _ _ _ ks =>
          (fix fields (l : list (string * Kid Node)) : M unit :=
             match l with
             | [] => ret tt
             | (_, KOne c) :: r => visit c (Some node) ;; fields r
             | (_, KMany a) :: r =>
                 (fix entries (a : list (option Node)) : M unit :=
                    match a with
                    | [] => ret tt
                    | Some c :: a' => visit c (Some node) ;; entries a'
                    | None :: a' => entries a'
                    end) a ;;
                 fields r
             end) ks
      end ;;
      leave node parent
  end.

Definition walk (ast : Node) : M unit := visit ast None.

(** The children of a node, visited in order under the same parent. *)
Fixpoint visit_all (nodes : list Node) (parent : option Node) : M unit :=
  match nodes with
  | [] => ret tt
  | c :: r => visit c parent ;; visit_all r parent
  end.

(** [Entered n p st n' p' st']: in the course of [visit n p] started in
    state [st], the walker calls [enter n' p'] in state [st']: on the node
    itself, or, once [enter] let the walker in, inside one of its children,
    after the children before it have been visited to the end. *)
Inductive Entered : Node -> option Node -> State ->
                    Node -> option Node -> State -> Prop :=
  | Entered_here n p st : Entered n p st n p st
  | Entered_below n p st st1 pre c post st2 n' p' st' :
      enter n p st = (Done Continue, st1) ->
      children n = (pre ++ c :: post)%list ->
      visit_all pre (Some n) st1 = (Done tt, st2) ->
      Entered c (Some n) st2 n' p' st' ->
      Entered n p st n' p' st'.

(** [Inside n p st n' p' st']: the same for the calls on the nodes strictly
    below [n], that is, in the scope that entering [n] made current. *)
Definition Inside (n : Node) (p : option Node) (st : State)
    (n' : Node) (p' : option Node) (st' : State) : Prop :=
  exists st1 pre c post st2,
    enter n p st = (Done Continue, st1) /\
    children n = (pre ++ c :: post)%list /\
    visit_all pre (Some n) st1 = (Done tt, st2) /\
    Entered c (Some n) st2 n' p' st'.

End Pass.

(** [knownProps] is read as the list of its entries (public key, local
    alias), in the order [for ... in] enumerates them. *)
Definition seed_scope (knownProps : list (string * string)) : Scope :=
  fold_left (fun rootScope kl => scope_set rootScope (snd kl) true)
            knownProps ∅.

Definition seed_map (knownProps : list (string * string)) : gmap string string :=
  fold_left (fun m kl => <[snd kl := fst kl]> m) knownProps ∅.

Definition transformDestructuredProps (ast : Node) (s0 : list Edit) (offset : Z)
    (knownProps : list (string * string))
    (vueImportAliases : gmap string string)
    (genPropsAccessExp : string -> string) : Outcome unit * list Edit :=
  let rootScope := seed_scope knownProps in
  let propsLocalToPublicMap := seed_map knownProps in
  let st0 := mkState [rootScope] ∅ [] s0 in
  let '(r, st) :=
    (walkScope ast true ;;
     walk offset propsLocalToPublicMap vueImportAliases genPropsAccessExp ast) st0 in
  (r, s st).

(** ** Scope resolution *)

(** [resolve x scopes]: the binding of [x] in the innermost frame that has
    it, as the loop over [scopeStack] finds it. *)
Fixpoint resolve (x : string) (scopes : list Scope) : option bool :=
  match scopes with
  | [] => None
  | scope :: outer =>
      match scope !! x with
      | Some binding => Some binding
      | None => resolve x outer
      end
  end.

(** A frame that holds local bindings only. *)
Definition all_local (scope : Scope) : Prop :=
  forall x, scope !! x <> Some true.

(** The nodes on which [enter] opens a frame, and those on which [leave]
    closes one. *)
Definition outside_function (parent : option Node) : bool :=
  match parent with
  | Some p => negb (isFunctionType p)
  | None => false
  end.

Definition pushes (node : Node) (parent : option Node) : bool :=
  isFunctionType node
  || str_eq (type node) "CatchClause"
  || (str_eq (type node) "BlockStatement" && outside_function parent).

Definition pops (node : Node) (parent : option Node) : bool :=
  (str_eq (type node) "BlockStatement" && outside_function parent)
  || isFunctionType node.

(** ** Relations between the states of the pass *)

(** [preserves R m]: however [m] ends, by a result or by a throw, the state
    it ends in is [R]-related to the one it started from. *)
Definition preserves {A : Type} (R : State -> State -> Prop) (m : M A) : Prop :=
  forall st o st', m st = (o, st') -> R st st'.

(** [frame_le F F']: [F'] has every local binding of [F], and no prop
    binding that [F] has not. *)
Definition frame_le (F F' : Scope) : Prop :=
  (forall x, F !! x = Some false -> F' !! x = Some false)
  /\ (forall x, F' !! x = Some true -> F !! x = Some true).

Definition stack_le (S S' : list Scope) : Prop :=
  match S, S' with
  | [], [] => True
  | F :: r, F' :: r' => frame_le F F' /\ r' = r
  | _, _ => False
  end.

(** What the collection of declarations does: bindings are added to the
    current frame and identifiers to the exclusion set, nothing else. *)
Definition registers (st st' : State) : Prop :=
  stack_le (scopeStack st) (scopeStack st')
  /\ excludedIds st ⊆ excludedIds st'
  /\ parentStack st' = parentStack st
  /\ s st' = s st.

(** What the rewriting of an identifier does: edits are appended. *)
Definition edits_only (st st' : State) : Prop :=
  scopeStack st' = scopeStack st
  /\ excludedIds st' = excludedIds st
  /\ parentStack st' = parentStack st
  /\ s st `prefix_of` s st'.

(** The log of edits is only ever appended to. *)
Definition log_ext (st st' : State) : Prop := s st `prefix_of` s st'.

(** The exclusion set only ever grows. *)
Definition excl_ext (st st' : State) : Prop := excludedIds st ⊆ excludedIds st'.

(** [grows st st']: the scope stack of [st'] is that of [st] under further
    frames, all of them of local bindings. *)
Definition grows (st st' : State) : Prop :=
  exists L, scopeStack st' = (L ++ scopeStack st)%list /\ Forall all_local L.

(** [yields v m]: when [m] returns, it returns [v]. *)
Definition yields {A : Type} (v : A) (m : M A) : Prop :=
  forall st a st', m st = (Done a, st') -> a = v.

(** ** Vocabulary of the properties *)

(** The state in which [enter] goes on after it has pushed the parent. *)
Definition entered_state (parent : option Node) (st : State) : State :=
  mkState (scopeStack st) (excludedIds st)
          (match parent with
           | Some p => p :: parentStack st
           | None => parentStack st
           end)
          (s st).

(** An identifier that is written to: the left operand of an assignment
    expression, or the operand of an increment or decrement. *)
Definition is_write_target (parent id : Node) : bool :=
  (str_eq (type parent) "AssignmentExpression" && same (child parent "left") id)
  || str_eq (type parent) "UpdateExpression".

(** The value of a shorthand property. *)
Definition is_shorthand (parent : Node) : bool :=
  isStaticProperty parent && flag parent "shorthand".

(** A property marked as part of a destructuring pattern, in a pattern that
    binds (it is not the target of an assignment expression). *)
Definition in_binding_pattern (parent : Node) (parentStack : list Node) : bool :=
  flag parent "inPattern" && negb (isInDestructureAssignment parent parentStack).


(** The log of edits is left as it is. *)
Definition same_log (st st' : State) : Prop := s st' = s st.

(** ** Vocabulary of the further properties *)

(** [all_nodes f node]: [f] holds of [node] and of every node below it. *)
Fixpoint all_nodes (f : Node -> bool) (node : Node) : bool :=
  match node with
  | mkNode _ _ _ _ _ ks =>
      f node
      && (fix fields (l : list (string * Kid Node)) : bool :=
            match l with
            | [] => true
            | (_, KOne c) :: r => all_nodes f c && fields r
            | (_, KMany a) :: r =>
                (fix entries (a : list (option Node)) : bool :=
                   match a with
                   | [] => true
                   | Some c :: a' => all_nodes f c && entries a'
                   | None :: a' => entries a'
                   end) a
                && fields r
            end) ks
  end.

Definition not_catch (node : Node) : bool :=
  negb (str_eq (type node) "CatchClause").

Definition not_type_node (node : Node) : bool := negb (is_type_parent node).

(** [Within d n]: the node [d] occurs in the tree [n]. *)
Inductive Within : Node -> Node -> Prop :=
  | Within_here n : Within n n
  | Within_below d c n : In c (children n) -> Within d c -> Within d n.

(** The error that [registerLocalBinding] raises without a current scope. *)
Definition is_invariant_violation (e : Exn) : bool :=
  match e with
  | Diag (InternalInvariantViolation _) => true
  | _ => false
  end.

(** [throws_only P m]: when [m] throws, what it throws satisfies [P]. *)
Definition throws_only {A : Type} (P : Exn -> Prop) (m : M A) : Prop :=
  forall st o st', m st = (o, st') -> forall e, o = Throw e -> P e.

(** [scoped m]: started with a current scope, [m] keeps one, and can only
    fail by dereferencing [undefined]. *)
Definition scoped {A : Type} (m : M A) : Prop :=
  forall st o st',
    scopeStack st <> [] ->
    m st = (o, st') ->
    scopeStack st' <> [] /\ forall e, o = Throw e -> e = TypeError.

(** A helper that can only fail by dereferencing [undefined]. *)
Definition only_type_error {A : Type} (o : Outcome A) : Prop :=
  forall e, o = Throw e -> e = TypeError.

(** The chain of parents is left as it is. *)
Definition same_parents (st st' : State) : Prop :=
  parentStack st' = parentStack st.

(** The outcome of the pass is the invariant violation. *)
Definition ends_in_violation {A : Type} (o : Outcome A) : bool :=
  match o with
  | Throw e => is_invariant_violation e
  | Done _ => false
  end.

(** The two edits that [rewriteId] makes at the identifier [id], with the
    text [text] of the access. *)
Definition edit_at (offset : Z) (id : Node) (text : string) (e : Edit) : Prop :=
  e = Overwrite (nstart id + offset) (nend id + offset) text
  \/ e = AppendLeft (nend id + offset) (": " ++ text).

(** [isRoot && decl.init && isCallOf(unwrapTSNode(decl.init), 'defineProps')],
    the test of [walkVariableDeclaration] on a declarator. *)
Definition isDefineProps (isRoot : bool) (decl : Node) : Outcome bool :=
  if isRoot
  then match child decl "init" with
       | Some init => let? e := unwrapTSNode init in isCallOf e "defineProps"
       | None => Done false
       end
  else Done false.

(** [declarator_names decl id]: [id] is one of the identifiers that the
    target of the declarator [decl] binds. *)
Definition declarator_names (decl id : Node) : Prop :=
  exists target ids,
    child decl "id" = Some target
    /\ extractIdentifiers target = Done ids
    /\ In id ids.

(** [declaration_binds isRoot stmt id]: the variable declaration [stmt],
    which is not an ambient one, has a declarator, other than the
    destructuring of [defineProps()] at the root, that binds [id]. *)
Definition declaration_binds (isRoot : bool) (stmt id : Node) : Prop :=
  flag stmt "declare" = false
  /\ exists declarations decl,
       elems stmt "declarations" = Some declarations
       /\ In (Some decl) declarations
       /\ isDefineProps isRoot decl = Done false
       /\ declarator_names decl id.

(** [statement_binds isRoot stmt id]: the statement [stmt] of a body declares
    [id] in one of the forms that [walkScope] collects: a variable
    declaration, also exported, labeled or at the head of a [for-of] or
    [for-in] loop, and a function or class declaration. *)
Definition statement_binds (isRoot : bool) (stmt id : Node) : Prop :=
  (type stmt = "VariableDeclaration" /\ declaration_binds isRoot stmt id)
  \/ ((type stmt = "FunctionDeclaration" \/ type stmt = "ClassDeclaration")
      /\ flag stmt "declare" = false
      /\ child stmt "id" = Some id)
  \/ ((type stmt = "ForOfStatement" \/ type stmt = "ForInStatement")
      /\ exists left,
           child stmt "left" = Some left
           /\ type left = "VariableDeclaration"
           /\ declaration_binds false left id)
  \/ (type stmt = "ExportNamedDeclaration"
      /\ exists declaration,
           child stmt "declaration" = Some declaration
           /\ type declaration = "VariableDeclaration"
           /\ declaration_binds isRoot declaration id)
  \/ (type stmt = "LabeledStatement"
      /\ exists body,
           child stmt "body" = Some body
           /\ type body = "VariableDeclaration"
           /\ declaration_binds isRoot body id).

(** The kinds of statement that [walkScope] looks at. *)
Definition collected_kinds : list string :=
  [ "VariableDeclaration"; "FunctionDeclaration"; "ClassDeclaration";
    "ForOfStatement"; "ForInStatement"; "ExportNamedDeclaration";
    "LabeledStatement" ].

(** An ambient declaration ([declare const], [declare function],
    [declare class]). *)
Definition ambient (stmt : Node) : Prop :=
  flag stmt "declare" = true
  /\ (type stmt = "VariableDeclaration"
      \/ type stmt = "FunctionDeclaration"
      \/ type stmt = "ClassDeclaration").

(** The block whose statements [enter] collects on [node]: the body of a
    function when it is a block, the body of an exception-handler clause,
    and a block that is not the body of a function. *)
Definition scope_body (node : Node) (parent : option Node) : option Node :=
  if isFunctionType node then
    match child node "body" with
    | Some body =>
        if str_eq (type body) "BlockStatement" then Some body else None
    | None => None
    end
  else if str_eq (type node) "CatchClause" then child node "body"
  else if str_eq (type node) "BlockStatement" && outside_function parent
  then Some node
  else None.

(** [tracking_misuse aliases node method arg]: [node] is a call of [watch]
    or [toRef], under the name it is imported by, whose first argument is,
    under its type wrappers, the identifier [arg]. *)
Definition tracking_misuse (vueImportAliases : gmap string string)
    (node : Node) (method : string) (arg : Node) : Prop :=
  (method = "watch" \/ method = "toRef")
  /\ isCallOf node (default method (vueImportAliases !! method)) = Done true
  /\ exists arg0 rest,
       elems node "arguments" = Some (Some arg0 :: rest)
       /\ unwrapTSNode arg0 = Done arg
       /\ type arg = "Identifier".

(** What the exclusion of an identifier does: the exclusion set grows,
    nothing else changes. *)
Definition excludes (st st' : State) : Prop :=
  scopeStack st' = scopeStack st
  /\ parentStack st' = parentStack st
  /\ s st' = s st
  /\ excludedIds st ⊆ excludedIds st'.

(** The test of [enter] on the parent: the node is in a type position. *)
Definition skipped (parent : option Node) : bool :=
  match parent with Some p => is_type_parent p | None => false end.

(** [calls parent node]: the calls of [enter] that a visit of [node] under
    [parent] makes when nothing is thrown, in order: on the node, and,
    unless it is skipped, on the nodes below it. *)
Fixpoint calls (parent : option Node) (node : Node) {struct node}
    : list (Node * option Node) :=
  (node, parent) ::
  if skipped parent then []
  else
    match node with
    | mkNode _ _ _ _ _ ks =>
        (fix fields (l : list (string * Kid Node)) : list (Node * option Node) :=
           match l with
           | [] => []
           | (_, KOne c) :: r => (calls (Some node) c ++ fields r)%list
           | (_, KMany a) :: r =>
               ((fix entries (a : list (option Node))
                   : list (Node * option Node) :=
                   match a with
                   | [] => []
                   | Some c :: a' => (calls (Some node) c ++ entries a')%list
                   | None :: a' => entries a'
                   end) a
                ++ fields r)%list
           end) ks
    end.

(** The calls of [enter] of a visit that are skipped, and those that open
    the frame of an exception-handler clause. *)
Definition skipped_calls (parent : option Node) (node : Node) : nat :=
  List.length (List.filter (fun call => skipped (snd call)) (calls parent node)).

Definition clause_calls (parent : option Node) (node : Node) : nat :=
  List.length
    (List.filter
       (fun call => negb (skipped (snd call))
                    && str_eq (type (fst call)) "CatchClause")
       (calls parent node)).

(** [grows_by k st st']: the scope stack of [st'] is that of [st] under [k]
    further frames, all of them of local bindings. *)
Definition grows_by (k : nat) (st st' : State) : Prop :=
  exists L,
    scopeStack st' = (L ++ scopeStack st)%list
    /\ Forall all_local L
    /\ List.length L = k.


(** ** Sample trees

    Trees as the Babel parser builds them, for the worked examples below.
    The first argument of every builder is the identity of the node. *)

Definition Identifier (u : nat) (x : string) (a b : Z) : Node :=
  mkNode u "Identifier" a b [("name", PStr x)] [].

Definition NumericLiteral (u : nat) (v : Z) (a b : Z) : Node :=
  mkNode u "NumericLiteral" a b [("value", PNum v)] [].

Definition Program (u : nat) (a b : Z) (body : list Node) : Node :=
  mkNode u "Program" a b [("sourceType", PStr "module")]
         [("body", KMany (map Some body)); ("directives", KMany [])].

Definition BlockStatement (u : nat) (a b : Z) (body : list Node) : Node :=
  mkNode u "BlockStatement" a b []
         [("body", KMany (map Some body)); ("directives", KMany [])].

Definition ExpressionStatement (u : nat) (a b : Z) (e : Node) : Node :=
  mkNode u "ExpressionStatement" a b [] [("expression", KOne e)].

Definition VariableDeclaration (u : nat) (a b : Z) (kind : string)
    (declarations : list Node) : Node :=
  mkNode u "VariableDeclaration" a b [("kind", PStr kind)]
         [("declarations", KMany (map Some declarations))].

Definition VariableDeclarator (u : nat) (a b : Z) (id init : Node) : Node :=
  mkNode u "VariableDeclarator" a b [] [("id", KOne id); ("init", KOne init)].

Definition CallExpression (u : nat) (a b : Z) (callee : Node)
    (arguments : list Node) : Node :=
  mkNode u "CallExpression" a b []
         [("callee", KOne callee); ("arguments", KMany (map Some arguments))].

Definition AssignmentExpression (u : nat) (a b : Z) (left right : Node) : Node :=
  mkNode u "AssignmentExpression" a b [("operator", PStr "=")]
         [("left", KOne left); ("right", KOne right)].

Definition ObjectProperty (u : nat) (a b : Z) (shorthand : bool)
    (key value : Node) : Node :=
  mkNode u "ObjectProperty" a b
         [("method", PBool false); ("computed", PBool false);
          ("shorthand", PBool shorthand)]
         [("key", KOne key); ("value", KOne value)].

Definition ObjectExpression (u : nat) (a b : Z) (properties : list Node) : Node :=
  mkNode u "ObjectExpression" a b []
         [("properties", KMany (map Some properties))].

Definition ObjectPattern (u : nat) (a b : Z) (properties : list Node) : Node :=
  mkNode u "ObjectPattern" a b []
         [("properties", KMany (map Some properties))].

Definition ArrayPattern (u : nat) (a b : Z) (elements : list Node) : Node :=
  mkNode u "ArrayPattern" a b []
         [("elements", KMany (map Some elements))].

Definition FunctionDeclaration (u : nat) (a b : Z) (id : Node)
    (params : list Node) (body : Node) : Node :=
  mkNode u "FunctionDeclaration" a b
         [("generator", PBool false); ("async", PBool false)]
         [("id", KOne id); ("params", KMany (map Some params));
          ("body", KOne body)].

Definition CatchClause (u : nat) (a b : Z) (param body : Node) : Node :=
  mkNode u "CatchClause" a b [] [("param", KOne param); ("body", KOne body)].

Definition TryStatement (u : nat) (a b : Z) (block handler : Node) : Node :=
  mkNode u "TryStatement" a b [] [("block", KOne block); ("handler", KOne handler)].

Definition ForStatement (u : nat) (a b : Z) (init body : Node) : Node :=
  mkNode u "ForStatement" a b [] [("init", KOne init); ("body", KOne body)].

Definition TSTypeReference (u : nat) (a b : Z) (typeName : Node) : Node :=
  mkNode u "TSTypeReference" a b [] [("typeName", KOne typeName)].

(** [genPropsAccessExp] on a public name that is a plain identifier. *)
Definition dot_access (key : string) : string := "__props." ++ key.

Definition state0 (knownProps : list (string * string)) : State :=
  mkState [seed_scope knownProps] ∅ [] [].

(** [x;] *)
Definition read_x : Node := Identifier 2 "x" 0 1.
Definition read_stmt : Node := ExpressionStatement 1 0 2 read_x.
Definition read_program : Node := Program 0 0 2 [read_stmt].

(** [function f(count) { count }  count;  aliasedLabel;] *)
Definition scenario_program : Node :=
  Program 0 0 48
    [ FunctionDeclaration 1 0 27 (Identifier 2 "f" 9 10)
        [Identifier 3 "count" 11 16]
        (BlockStatement 4 18 27
           [ExpressionStatement 5 20 25 (Identifier 6 "count" 20 25)]);
      ExpressionStatement 7 28 34 (Identifier 8 "count" 28 33);
      ExpressionStatement 9 35 48 (Identifier 10 "aliasedLabel" 35 47) ].

(** [function f(x) { x }] *)
Definition shadow_use : Node := Identifier 6 "x" 16 17.
Definition shadow_stmt : Node := ExpressionStatement 5 16 17 shadow_use.
Definition shadow_body : Node := BlockStatement 4 14 19 [shadow_stmt].
Definition shadow_param : Node := Identifier 3 "x" 11 12.
Definition shadow_function : Node :=
  FunctionDeclaration 1 0 19 (Identifier 2 "f" 9 10) [shadow_param] shadow_body.
Definition shadow_program : Node := Program 0 0 19 [shadow_function].

(** [x = 1] *)
Definition write_x : Node := Identifier 3 "x" 0 1.
Definition write_assignment : Node :=
  AssignmentExpression 2 0 5 write_x (NumericLiteral 4 1 4 5).

(** [x;  x = 1] *)
Definition late_write_x : Node := Identifier 5 "x" 3 4.
Definition late_write_assignment : Node :=
  AssignmentExpression 4 3 8 late_write_x (NumericLiteral 6 1 7 8).
Definition late_write_stmt : Node :=
  ExpressionStatement 3 3 8 late_write_assignment.
Definition late_write_program : Node :=
  Program 0 0 8 [read_stmt; late_write_stmt].

(** [[x] = arr] *)
Definition destructuring_assignment_program : Node :=
  Program 0 0 9
    [ ExpressionStatement 1 0 9
        (AssignmentExpression 2 0 9
           (ArrayPattern 3 0 3 [Identifier 4 "x" 1 2])
           (Identifier 5 "arr" 6 9)) ].

(** [({ x })] *)
Definition shorthand_value : Node := Identifier 5 "x" 3 4.
Definition shorthand_property : Node :=
  ObjectProperty 3 3 4 true (Identifier 4 "x" 3 4) shorthand_value.
Definition shorthand_program : Node :=
  Program 0 0 7
    [ExpressionStatement 1 0 7 (ObjectExpression 2 1 6 [shorthand_property])].

(** [for (let { x } = o;;) {}] *)
Definition for_pattern_program : Node :=
  Program 0 0 24
    [ ForStatement 1 0 24
        (VariableDeclaration 2 5 18 "let"
           [ VariableDeclarator 3 9 18
               (ObjectPattern 4 9 14
                  [ObjectProperty 5 11 12 true
                     (Identifier 6 "x" 11 12) (Identifier 7 "x" 11 12)])
               (Identifier 8 "o" 17 18) ])
        (BlockStatement 9 22 24 []) ].


(** [try {} catch (e) {}  e] *)
Definition catch_program : Node :=
  Program 0 0 21
    [ TryStatement 1 0 19 (BlockStatement 2 4 6 [])
        (CatchClause 3 7 19 (Identifier 4 "e" 14 15) (BlockStatement 5 17 19 []));
      ExpressionStatement 6 20 21 (Identifier 7 "e" 20 21) ].

(** [const z = 1  watch(z)] *)
Definition watch_local_arg : Node := Identifier 8 "z" 18 19.
Definition watch_local_program : Node :=
  Program 0 0 20
    [ VariableDeclaration 1 0 11 "const"
        [VariableDeclarator 2 6 11 (Identifier 3 "z" 6 7)
           (NumericLiteral 4 1 10 11)];
      ExpressionStatement 5 12 20
        (CallExpression 6 12 20 (Identifier 7 "watch" 12 17) [watch_local_arg]) ].

(** [watch()] *)
Definition watch_nothing : Node :=
  CallExpression 1 0 7 (Identifier 2 "watch" 0 5) [].
Definition watch_nothing_stmt : Node := ExpressionStatement 3 0 7 watch_nothing.

(** The [x] of the annotation in [let a: x]. *)
Definition annotation_x : Node := Identifier 5 "x" 7 8.
Definition annotation_reference : Node := TSTypeReference 4 7 8 annotation_x.

(** [import { watch } from 'vue'] *)
Definition watch_imported : gmap string string := {[ "watch" := "watch" ]}.

(** [{ x;  let x = 1 }] *)
Definition hoisted_use : Node := Identifier 4 "x" 2 3.
Definition hoisted_use_stmt : Node := ExpressionStatement 3 2 4 hoisted_use.
Definition hoisted_id : Node := Identifier 7 "x" 9 10.
Definition hoisted_declarator : Node :=
  VariableDeclarator 6 9 14 hoisted_id (NumericLiteral 8 1 13 14).
Definition hoisted_declaration : Node :=
  VariableDeclaration 5 5 14 "let" [hoisted_declarator].
Definition hoisted_block : Node :=
  BlockStatement 1 0 16 [hoisted_use_stmt; hoisted_declaration].
Definition hoisted_program : Node := Program 0 0 16 [hoisted_block].

(** [x;  const x = 1] *)
Definition root_use : Node := Identifier 2 "x" 0 1.
Definition root_use_stmt : Node := ExpressionStatement 1 0 2 root_use.
Definition root_id : Node := Identifier 5 "x" 9 10.
Definition root_declarator : Node :=
  VariableDeclarator 4 9 14 root_id (NumericLiteral 6 1 13 14).
Definition root_declaration : Node :=
  VariableDeclaration 3 3 14 "const" [root_declarator].
Definition root_program : Node :=
  Program 0 0 14 [root_use_stmt; root_declaration].

(** [const { x } = defineProps()  x] *)
Definition macro_x : Node := Identifier 6 "x" 8 9.
Definition macro_property : Node :=
  ObjectProperty 4 8 9 true (Identifier 5 "x" 8 9) macro_x.
Definition macro_pattern : Node := ObjectPattern 3 6 11 [macro_property].
Definition macro_declarator : Node :=
  VariableDeclarator 2 6 27 macro_pattern
    (CallExpression 7 14 27 (Identifier 8 "defineProps" 14 25) []).
Definition macro_declaration : Node :=
  VariableDeclaration 1 0 27 "const" [macro_declarator].
Definition macro_use : Node := Identifier 10 "x" 28 29.
Definition macro_use_stmt : Node := ExpressionStatement 9 28 29 macro_use.
Definition macro_program : Node :=
  Program 0 0 29 [macro_declaration; macro_use_stmt].

(** [watch(x as any)] *)
Definition watch_wrapped_x : Node := Identifier 5 "x" 6 7.
Definition watch_wrapped_arg : Node :=
  mkNode 4 "TSAsExpression" 6 14 []
         [("expression", KOne watch_wrapped_x);
          ("typeAnnotation", KOne (mkNode 6 "TSAnyKeyword" 11 14 [] []))].
Definition watch_wrapped_call : Node :=
  CallExpression 2 0 15 (Identifier 3 "watch" 0 5) [watch_wrapped_arg].
Definition watch_wrapped_stmt : Node :=
  ExpressionStatement 1 0 15 watch_wrapped_call.
Definition watch_wrapped_program : Node := Program 0 0 15 [watch_wrapped_stmt].

(** [x satisfies T] *)
Definition satisfies_x : Node := Identifier 3 "x" 0 1.
Definition satisfies_expression : Node :=
  mkNode 2 "TSSatisfiesExpression" 0 13 []
         [("expression", KOne satisfies_x);
          ("typeAnnotation",
           KOne (TSTypeReference 4 12 13 (Identifier 5 "T" 12 13)))].
Definition satisfies_program : Node :=
  Program 0 0 13 [ExpressionStatement 1 0 13 satisfies_expression].

(** [for (const x of y) {}  x] *)
Definition for_of_program : Node :=
  Program 0 0 23
    [ mkNode 1 "ForOfStatement" 0 21 [("await", PBool false)]
        [("left",
          KOne (VariableDeclaration 2 5 12 "const"
                  [mkNode 3 "VariableDeclarator" 11 12 []
                          [("id", KOne (Identifier 4 "x" 11 12))]]));
         ("right", KOne (Identifier 5 "y" 16 17));
         ("body", KOne (BlockStatement 6 19 21 []))];
      ExpressionStatement 7 22 23 (Identifier 8 "x" 22 23) ].

(** [switch (a) { case 1: const { x } = o }] *)
Definition switch_program : Node :=
  Program 0 0 38
    [ mkNode 1 "SwitchStatement" 0 38 []
        [("discriminant", KOne (Identifier 2 "a" 8 9));
         ("cases",
          KMany
            [Some
               (mkNode 3 "SwitchCase" 13 36 []
                  [("consequent",
                    KMany
                      [Some
                         (VariableDeclaration 4 21 36 "const"
                            [VariableDeclarator 5 27 36
                               (ObjectPattern 6 27 32
                                  [ObjectProperty 7 29 30 true
                                     (Identifier 8 "x" 29 30)
                                     (Identifier 9 "x" 29 30)])
                               (Identifier 10 "o" 35 36)])]);
                   ("test", KOne (NumericLiteral 11 1 18 19))])])] ].

(** [__proto__;] *)
Definition proto_program : Node :=
  Program 0 0 10 [ExpressionStatement 1 0 10 (Identifier 2 "__proto__" 0 9)].

(** * Auxiliary results *)

(** Structural induction on trees: a property holds of a node as soon as it
    holds of all the nodes below it. *)
Lemma Node_ind (P : Node -> Prop) :
  (forall n, Forall P (children n) -> P n) -> forall n, P n.
Proof.
  intros IH.
  fix rec 1.
  intros [u t a b at_ ks]. apply IH. unfold children. simpl.
  induction ks as [|[key k] ks IHks]; simpl.
  - constructor.
  - apply Forall_app. split; [|exact IHks].
    destruct k as [c|l]; simpl.
    + constructor; [apply rec|constructor].
    + induction l as [|[c|] l IHl]; simpl.
      * constructor.
      * constructor; [apply rec|exact IHl].
      * exact IHl.
Qed.

(** Unfolding of the handlers, by their global names. *)
Ltac unfold_enter := unfold enter.
Ltac unfold_rewriteId := unfold rewriteId.
Ltac unfold_access := unfold access.
Ltac unfold_rewriteId_head := unfold rewriteId at 1.

(** ** Running a computation *)

Lemma bind_done {A B : Type} (m : M A) (k : A -> M B) st a st1 :
  m st = (Done a, st1) -> bind m k st = k a st1.
Proof. intros H. unfold bind. rewrite H. reflexivity. Qed.

Lemma bind_throw {A B : Type} (m : M A) (k : A -> M B) st e st1 :
  m st = (Throw e, st1) -> bind m k st = (Throw e, st1).
Proof. intros H. unfold bind. rewrite H. reflexivity. Qed.

Lemma bind_inv {A B : Type} (m : M A) (k : A -> M B) st o st' :
  bind m k st = (o, st') ->
  (exists a st1, m st = (Done a, st1) /\ k a st1 = (o, st'))
  \/ (exists e, o = Throw e /\ m st = (Throw e, st')).
Proof.
  unfold bind. destruct (m st) as [[a|e] st1]; intros H.
  - left. eauto.
  - right. inversion H; subst. eauto.
Qed.

Lemma bind_done_inv {A B : Type} (m : M A) (k : A -> M B) st b st' :
  bind m k st = (Done b, st') ->
  exists a st1, m st = (Done a, st1) /\ k a st1 = (Done b, st').
Proof.
  intros H. apply bind_inv in H as [H|[e [H _]]]; [exact H|discriminate].
Qed.

Lemma bind_assoc {A B C : Type} (m : M A) (k : A -> M B) (h : B -> M C) st :
  bind (bind m k) h st = bind m (fun a => bind (k a) h) st.
Proof.
  unfold bind. destruct (m st) as [[a|e] st1]; [|reflexivity].
  destruct (k a st1) as [[b|e] st2]; reflexivity.
Qed.

Lemma bind_ext {A B : Type} (m : M A) (k k' : A -> M B) st :
  (forall a st1, k a st1 = k' a st1) -> bind m k st = bind m k' st.
Proof. intros H. unfold bind. destruct (m st) as [[a|e] st1]; auto. Qed.

Lemma bind_ext_l {A B : Type} (m m' : M A) (k : A -> M B) st :
  (forall st0, m st0 = m' st0) -> bind m k st = bind m' k st.
Proof. intros H. unfold bind. rewrite H. reflexivity. Qed.

Lemma lift_inv {A : Type} (o : Outcome A) st o' st' :
  lift o st = (o', st') -> o' = o /\ st' = st.
Proof. unfold lift. intros H. inversion H. auto. Qed.

(** ** Relations kept by every step *)

Section Preserves.

Variable R : State -> State -> Prop.
Context `{!PreOrder R}.

Lemma preserves_ret {A : Type} (a : A) : preserves R (ret a).
Proof. intros st o st' H. inversion H. reflexivity. Qed.

Lemma preserves_throw {A : Type} (e : Exn) : preserves R (@throw A e).
Proof. intros st o st' H. inversion H. reflexivity. Qed.

Lemma preserves_error {A : Type} (d : Diagnostic) : preserves R (@error A d).
Proof. apply preserves_throw. Qed.

Lemma preserves_lift {A : Type} (o : Outcome A) : preserves R (lift o).
Proof. intros st o' st' H. inversion H. reflexivity. Qed.

Lemma preserves_bind {A B : Type} (m : M A) (k : A -> M B) :
  preserves R m -> (forall a, preserves R (k a)) -> preserves R (bind m k).
Proof.
  intros Hm Hk st o st' H.
  apply bind_inv in H as [(a & st1 & H1 & H2)|(e & _ & H1)].
  - transitivity st1; [eapply Hm|eapply Hk]; eassumption.
  - eapply Hm; eassumption.
Qed.

Lemma preserves_for_of xs body :
  (forall x, preserves R (body x)) -> preserves R (for_of xs body).
Proof.
  intros Hb. induction xs as [|[x|] xs IH]; simpl.
  - apply preserves_ret.
  - apply preserves_bind; [apply Hb|intros _; exact IH].
  - apply preserves_throw.
Qed.

Lemma preserves_for_ids ids body :
  (forall x, preserves R (body x)) -> preserves R (for_ids ids body).
Proof.
  intros Hb. induction ids as [|x ids IH]; simpl.
  - apply preserves_ret.
  - apply preserves_bind; [apply Hb|intros _; exact IH].
Qed.

End Preserves.

(** Breaks a goal [preserves R m] down along the structure of [m]. *)
Ltac preserves_step :=
  first
    [ apply preserves_ret; solve [typeclasses eauto]
    | apply preserves_throw; solve [typeclasses eauto]
    | apply preserves_error; solve [typeclasses eauto]
    | apply preserves_lift; solve [typeclasses eauto]
    | apply preserves_for_of; [typeclasses eauto|intros ?]
    | apply preserves_for_ids; [typeclasses eauto|intros ?]
    | apply preserves_bind; [typeclasses eauto| |intros ?]
    | match goal with
      | |- preserves _ (if ?b then _ else _) => destruct b
      | |- preserves _ (match ?o with Some _ => _ | None => _ end) => destruct o
      end ].

(** ** The relations are preorders *)

Lemma frame_le_refl F : frame_le F F.
Proof. split; auto. Qed.

Lemma frame_le_trans F G H : frame_le F G -> frame_le G H -> frame_le F H.
Proof. intros [a b] [c d]. split; auto. Qed.

Lemma frame_le_insert F x : frame_le F (<[x := false]> F).
Proof.
  split; intros y Hy.
  - destruct (decide (x = y)) as [->|Hne].
    + apply lookup_insert_eq.
    + rewrite lookup_insert_ne; assumption.
  - destruct (decide (x = y)) as [->|Hne].
    + rewrite lookup_insert_eq in Hy. discriminate.
    + rewrite lookup_insert_ne in Hy; assumption.
Qed.

Lemma frame_le_scope_set F x : frame_le F (scope_set F x false).
Proof.
  unfold scope_set. destruct (str_eq x "__proto__").
  - apply frame_le_refl.
  - apply frame_le_insert.
Qed.

Lemma scope_set_lookup F x b :
  x <> "__proto__" -> scope_set F x b !! x = Some b.
Proof.
  intros Hx. unfold scope_set.
  destruct (str_eq x "__proto__") eqn:E.
  - apply String.eqb_eq in E. contradiction.
  - apply lookup_insert_eq.
Qed.

Lemma scope_set_lookup_ne F x y b :
  x <> y -> scope_set F x b !! y = F !! y.
Proof.
  intros Hne. unfold scope_set. destruct (str_eq x "__proto__");
    [reflexivity|]. apply lookup_insert_ne. exact Hne.
Qed.

Lemma scope_set_proto F x b :
  scope_set F x b !! "__proto__" = F !! "__proto__".
Proof.
  unfold scope_set. destruct (str_eq x "__proto__") eqn:E; [reflexivity|].
  apply lookup_insert_ne. intros ->. discriminate.
Qed.

Lemma frame_le_all_local F F' : frame_le F F' -> all_local F -> all_local F'.
Proof. intros [_ H] HF x Hx. exact (HF x (H x Hx)). Qed.

Lemma all_local_empty : all_local ∅.
Proof. intros x. rewrite lookup_empty. discriminate. Qed.

#[local] Instance stack_le_preorder : PreOrder stack_le.
Proof.
  split.
  - intros [|F r]; simpl; auto using frame_le_refl.
  - intros [|F r] [|G r'] [|H r'']; simpl; try tauto.
    intros [a ->] [b ->]. eauto using frame_le_trans.
Qed.

#[local] Instance registers_preorder : PreOrder registers.
Proof.
  split.
  - intros st. repeat split; reflexivity.
  - intros a b c (H1 & H2 & H3 & H4) (K1 & K2 & K3 & K4). repeat split.
    + etransitivity; eassumption.
    + etransitivity; eassumption.
    + congruence.
    + congruence.
Qed.

#[local] Instance edits_only_preorder : PreOrder edits_only.
Proof.
  split.
  - intros st. repeat split; reflexivity.
  - intros a b c (H1 & H2 & H3 & H4) (K1 & K2 & K3 & K4). repeat split.
    + congruence.
    + congruence.
    + congruence.
    + etransitivity; eassumption.
Qed.

#[local] Instance log_ext_preorder : PreOrder log_ext.
Proof.
  split.
  - intros st. unfold log_ext. reflexivity.
  - intros a b c. unfold log_ext. intros. etransitivity; eassumption.
Qed.

#[local] Instance excl_ext_preorder : PreOrder excl_ext.
Proof.
  split.
  - intros st. unfold excl_ext. reflexivity.
  - intros a b c. unfold excl_ext. intros. etransitivity; eassumption.
Qed.

#[local] Instance eq_state_preorder : PreOrder (@eq State).
Proof. split; [intros ?; reflexivity|intros ? ? ?; apply eq_trans]. Qed.

Lemma preserves_weaken {A : Type} (R R' : State -> State -> Prop) (m : M A) :
  (forall st st', R st st' -> R' st st') -> preserves R m -> preserves R' m.
Proof. intros HR Hm st o st' H. apply HR. eapply Hm. eassumption. Qed.

Lemma registers_log st st' : registers st st' -> log_ext st st'.
Proof. intros (_ & _ & _ & H). unfold log_ext. rewrite H. reflexivity. Qed.

Lemma registers_excl st st' : registers st st' -> excl_ext st st'.
Proof. intros (_ & H & _). exact H. Qed.

Lemma edits_only_log st st' : edits_only st st' -> log_ext st st'.
Proof. intros (_ & _ & _ & H). exact H. Qed.

Lemma edits_only_excl st st' : edits_only st st' -> excl_ext st st'.
Proof. intros (_ & H & _). unfold excl_ext. rewrite H. reflexivity. Qed.

(** ** The collection of declarations *)

Lemma excludedIds_add_registers id : preserves registers (excludedIds_add id).
Proof.
  intros st o st' H. inversion H; subst; clear H.
  repeat split; simpl; try reflexivity. set_solver.
Qed.

Lemma registerLocalBinding_registers id :
  preserves registers (registerLocalBinding id).
Proof.
  unfold registerLocalBinding.
  apply preserves_bind; [typeclasses eauto|apply excludedIds_add_registers|].
  intros _ st o st' H.
  destruct (scopeStack st) as [|F r] eqn:E.
  - inversion H; subst. reflexivity.
  - inversion H; subst; clear H. repeat split; simpl; try reflexivity.
    rewrite E. simpl. split; [apply frame_le_scope_set|reflexivity].
Qed.

Lemma walkVariableDeclaration_registers stmt isRoot :
  preserves registers (walkVariableDeclaration stmt isRoot).
Proof.
  unfold walkVariableDeclaration.
  repeat first
    [ apply excludedIds_add_registers
    | apply registerLocalBinding_registers
    | preserves_step ].
Qed.

Lemma walkScope_registers node isRoot :
  preserves registers (walkScope node isRoot).
Proof.
  unfold walkScope.
  repeat first
    [ apply walkVariableDeclaration_registers
    | apply registerLocalBinding_registers
    | preserves_step ].
Qed.

Lemma walkFunctionParams_registers node :
  preserves registers (walkFunctionParams node registerLocalBinding).
Proof.
  unfold walkFunctionParams.
  repeat first [ apply registerLocalBinding_registers | preserves_step ].
Qed.

(** ** The check of tracking calls changes nothing *)

Lemma checkUsage_eq node method alias :
  preserves eq (checkUsage node method alias).
Proof. unfold checkUsage. repeat preserves_step. Qed.

(** ** The rewriting of an identifier *)

Section Rewriting.

Variable offset : Z.
Variable propsLocalToPublicMap : gmap string string.
Variable genPropsAccessExp : string -> string.

Lemma record_edits_only e : preserves edits_only (record e).
Proof.
  intros st o st' H. inversion H; subst; clear H.
  repeat split; simpl. apply prefix_app_r. reflexivity.
Qed.

Lemma rewriteId_edits_only scope id parent stack :
  preserves edits_only
    (rewriteId offset propsLocalToPublicMap genPropsAccessExp
               scope id parent stack).
Proof.
  unfold rewriteId.
  destruct (scope !! name id) as [[|]|];
    repeat first [ apply record_edits_only | preserves_step ].
Qed.

Lemma rewrite_in_edits_only scopes id parent stack :
  preserves edits_only
    (rewrite_in offset propsLocalToPublicMap genPropsAccessExp
                scopes id parent stack).
Proof.
  induction scopes as [|scope outer IH]; simpl.
  - preserves_step.
  - apply preserves_bind;
      [typeclasses eauto|apply rewriteId_edits_only|].
    intros [|]; [preserves_step|exact IH].
Qed.

End Rewriting.

(** ** Stack operations *)

Lemma push_scope_log : preserves log_ext push_scope.
Proof. intros st o st' H. inversion H; subst. unfold log_ext. reflexivity. Qed.

Lemma pop_scope_log : preserves log_ext pop_scope.
Proof. intros st o st' H. inversion H; subst. unfold log_ext. reflexivity. Qed.

Lemma parentStack_push_log p : preserves log_ext (parentStack_push p).
Proof. intros st o st' H. inversion H; subst. unfold log_ext. reflexivity. Qed.

Lemma parentStack_pop_log : preserves log_ext parentStack_pop.
Proof. intros st o st' H. inversion H; subst. unfold log_ext. reflexivity. Qed.

Lemma push_scope_excl : preserves excl_ext push_scope.
Proof. intros st o st' H. inversion H; subst. unfold excl_ext. reflexivity. Qed.

Lemma pop_scope_excl : preserves excl_ext pop_scope.
Proof. intros st o st' H. inversion H; subst. unfold excl_ext. reflexivity. Qed.

Lemma parentStack_push_excl p : preserves excl_ext (parentStack_push p).
Proof. intros st o st' H. inversion H; subst. unfold excl_ext. reflexivity. Qed.

Lemma parentStack_pop_excl : preserves excl_ext parentStack_pop.
Proof. intros st o st' H. inversion H; subst. unfold excl_ext. reflexivity. Qed.

Lemma eq_log st st' : st = st' -> log_ext st st'.
Proof. intros ->. reflexivity. Qed.

Lemma eq_excl st st' : st = st' -> excl_ext st st'.
Proof. intros ->. reflexivity. Qed.

(** The steps of the pass, each with the strongest relation it keeps,
    weakened to the relation [R] at hand. *)
Ltac preserves_base toR_registers toR_edits toR_eq :=
  first
    [ apply (preserves_weaken registers); [exact toR_registers|];
      first [ apply registerLocalBinding_registers
            | apply walkScope_registers
            | apply walkFunctionParams_registers
            | apply walkVariableDeclaration_registers ]
    | apply (preserves_weaken eq); [exact toR_eq|]; apply checkUsage_eq
    | apply (preserves_weaken edits_only); [exact toR_edits|];
      apply rewrite_in_edits_only ].

Section Handlers.

Variable offset : Z.
Variable propsLocalToPublicMap : gmap string string.
Variable vueImportAliases : gmap string string.
Variable genPropsAccessExp : string -> string.

Local Abbreviation enter :=
  (enter offset propsLocalToPublicMap vueImportAliases genPropsAccessExp).
Local Abbreviation visit :=
  (visit offset propsLocalToPublicMap vueImportAliases genPropsAccessExp).
Local Abbreviation visit_all :=
  (visit_all offset propsLocalToPublicMap vueImportAliases genPropsAccessExp).
Local Abbreviation Entered :=
  (Entered offset propsLocalToPublicMap vueImportAliases genPropsAccessExp).
Local Abbreviation Inside :=
  (Inside offset propsLocalToPublicMap vueImportAliases genPropsAccessExp).
Local Abbreviation rewrite_in :=
  (rewrite_in offset propsLocalToPublicMap genPropsAccessExp).
Local Abbreviation rewriteId :=
  (rewriteId offset propsLocalToPublicMap genPropsAccessExp).

(** *** The log and the exclusion set along [enter] and [leave] *)

Lemma enter_log node parent : preserves log_ext (enter node parent).
Proof.
  unfold enter.
  repeat first
    [ apply push_scope_log | apply parentStack_push_log
    | preserves_base registers_log edits_only_log eq_log
    | preserves_step ].
  intros st o st' H.
  destruct (_ && _) in H.
  - eapply (preserves_weaken edits_only); [exact edits_only_log| |exact H].
    apply rewrite_in_edits_only.
  - inversion H. reflexivity.
Qed.

Lemma enter_excl node parent : preserves excl_ext (enter node parent).
Proof.
  unfold enter.
  repeat first
    [ apply push_scope_excl | apply parentStack_push_excl
    | preserves_base registers_excl edits_only_excl eq_excl
    | preserves_step ].
  intros st o st' H.
  destruct (_ && _) in H.
  - eapply (preserves_weaken edits_only); [exact edits_only_excl| |exact H].
    apply rewrite_in_edits_only.
  - inversion H. reflexivity.
Qed.

Lemma leave_log node parent : preserves log_ext (leave node parent).
Proof.
  unfold leave.
  repeat first
    [ apply pop_scope_log | apply parentStack_pop_log | preserves_step ].
Qed.

Lemma leave_excl node parent : preserves excl_ext (leave node parent).
Proof.
  unfold leave.
  repeat first
    [ apply pop_scope_excl | apply parentStack_pop_excl | preserves_step ].
Qed.

(** *** The walker, one node at a time *)

Lemma visit_all_app pre post parent st :
  visit_all (pre ++ post) parent st =
  (visit_all pre parent ;; visit_all post parent) st.
Proof.
  revert st. induction pre as [|c pre IH]; intros st; cbn -[bind].
  - reflexivity.
  - rewrite bind_assoc. apply bind_ext. intros _ st1. apply IH.
Qed.

Lemma visit_eq node parent st :
  visit node parent st =
  (let! signal := enter node parent in
   match signal with
   | Skip => ret tt
   | Continue => visit_all (children node) (Some node) ;; leave node parent
   end) st.
Proof.
  destruct node as [u t a b at_ ks].
  cbn -[bind enter leave children].
  apply bind_ext. intros [|] st1; [|reflexivity].
  apply bind_ext_l. clear. intros st.
  unfold children. cbn [kids].
  generalize (mkNode u t a b at_ ks) as node. intros node.
  revert st. induction ks as [|[key [c|l]] ks IH]; intros st.
  - reflexivity.
  - cbn -[bind]. apply bind_ext. intros _ st1. apply IH.
  - cbn -[bind]. rewrite visit_all_app.
    etransitivity; [apply bind_ext; intros a0 st1; apply IH|].
    apply bind_ext_l. clear IH st. intros st.
    induction l as [|[c|] l IHl] in st |- *.
    + reflexivity.
    + cbn -[bind]. apply bind_ext. intros _ st1. apply IHl.
    + apply IHl.
Qed.

Lemma visit_all_preserves (R : State -> State -> Prop) `{!PreOrder R}
    nodes parent :
  Forall (fun c => forall p, preserves R (visit c p)) nodes ->
  preserves R (visit_all nodes parent).
Proof.
  induction 1 as [|c r Hc _ IH]; simpl.
  - apply preserves_ret; assumption.
  - apply preserves_bind; [assumption|apply Hc|intros _; exact IH].
Qed.

Lemma visit_preserves (R : State -> State -> Prop) `{!PreOrder R} :
  (forall n p, preserves R (enter n p)) ->
  (forall n p, preserves R (leave n p)) ->
  forall node parent, preserves R (visit node parent).
Proof.
  intros He Hl node. induction node as [node IH] using Node_ind.
  intros parent st o st' H. rewrite visit_eq in H. revert st o st' H.
  change (preserves R
    (let! signal := enter node parent in
     match signal with
     | Skip => ret tt
     | Continue => visit_all (children node) (Some node) ;; leave node parent
     end)).
  apply preserves_bind; [assumption|apply He|].
  intros [|].
  - apply preserves_bind; [assumption| |intros _; apply Hl].
    apply visit_all_preserves; assumption.
  - apply preserves_ret; assumption.
Qed.

Lemma visit_log node parent : preserves log_ext (visit node parent).
Proof.
  apply visit_preserves;
    [typeclasses eauto|apply enter_log|apply leave_log].
Qed.

Lemma visit_excl node parent : preserves excl_ext (visit node parent).
Proof.
  apply visit_preserves;
    [typeclasses eauto|apply enter_excl|apply leave_excl].
Qed.

End Handlers.

(** ** The scope stack along the walk *)

Lemma type_block_not_function node :
  str_eq (type node) "BlockStatement" = true -> isFunctionType node = false.
Proof.
  intros H. apply String.eqb_eq in H. unfold isFunctionType. rewrite H.
  reflexivity.
Qed.


Lemma pops_pushes node parent : pops node parent = true -> pushes node parent = true.
Proof.
  unfold pops, pushes.
  destruct (isFunctionType node), (str_eq (type node) "CatchClause"),
    (str_eq (type node) "BlockStatement" && outside_function parent);
    simpl; auto.
Qed.

Lemma grows_refl st : grows st st.
Proof. exists []. split; [reflexivity|constructor]. Qed.

Lemma grows_trans a b c : grows a b -> grows b c -> grows a c.
Proof.
  intros (L & E & HL) (L' & E' & HL'). exists (L' ++ L)%list. split.
  - rewrite E', E. apply app_assoc.
  - apply Forall_app. auto.
Qed.

#[local] Instance grows_preorder : PreOrder grows.
Proof. split; [exact grows_refl|exact grows_trans]. Qed.

Lemma grows_same st st' : scopeStack st' = scopeStack st -> grows st st'.
Proof. intros E. exists []. split; [exact E|constructor]. Qed.

Lemma grows_frame st st' F :
  all_local F -> scopeStack st' = F :: scopeStack st -> grows st st'.
Proof. intros HF E. exists [F]. split; [exact E|]. constructor; auto. Qed.

(** A frame opened and then filled by the collection of declarations. *)
Lemma opened_frame {A : Type} (m : M A) st o st1 :
  preserves registers m ->
  (push_scope ;; m) st = (o, st1) ->
  exists F, all_local F /\ scopeStack st1 = F :: scopeStack st.
Proof.
  intros Hm H. unfold bind, push_scope in H.
  apply Hm in H. destruct H as (Hs & _). simpl in Hs.
  destruct (scopeStack st1) as [|F r]; [contradiction|].
  destruct Hs as [Hle ->]. exists F. split; [|reflexivity].
  eapply frame_le_all_local; [exact Hle|apply all_local_empty].
Qed.

Lemma yields_ret {A : Type} (v : A) : yields v (ret v).
Proof. intros st a st' H. inversion H. reflexivity. Qed.

Lemma yields_bind {A B : Type} (v : B) (m : M A) (k : A -> M B) :
  (forall a, yields v (k a)) -> yields v (bind m k).
Proof.
  intros Hk st b st' H. apply bind_done_inv in H as (a & st1 & _ & H).
  eapply Hk. exact H.
Qed.

Ltac yields_tac :=
  repeat first
    [ apply yields_ret
    | apply yields_bind; intros ?
    | match goal with
      | |- yields _ (if ?b then _ else _) => destruct b
      end ].

(** From a run that returned [signal], and ends in [ret Continue] on every
    path, to [signal = Continue]. *)
Ltac signal_continue H :=
  match type of H with
  | ?m _ = (Done ?sg, _) =>
      assert (sg = Continue) as ->
        by (apply (fun Hy : yields Continue m => Hy _ _ _ H); yields_tac)
  end.

Ltac registers_tac :=
  repeat first
    [ apply registerLocalBinding_registers
    | apply walkScope_registers
    | apply walkFunctionParams_registers
    | preserves_step ].

Section Stack.

Variable offset : Z.
Variable propsLocalToPublicMap : gmap string string.
Variable vueImportAliases : gmap string string.
Variable genPropsAccessExp : string -> string.

Local Abbreviation enter :=
  (enter offset propsLocalToPublicMap vueImportAliases genPropsAccessExp).
Local Abbreviation visit :=
  (visit offset propsLocalToPublicMap vueImportAliases genPropsAccessExp).
Local Abbreviation visit_all :=
  (visit_all offset propsLocalToPublicMap vueImportAliases genPropsAccessExp).
Local Abbreviation Entered :=
  (Entered offset propsLocalToPublicMap vueImportAliases genPropsAccessExp).
Local Abbreviation Inside :=
  (Inside offset propsLocalToPublicMap vueImportAliases genPropsAccessExp).
Local Abbreviation rewrite_in :=
  (rewrite_in offset propsLocalToPublicMap genPropsAccessExp).
Local Abbreviation rewriteId :=
  (rewriteId offset propsLocalToPublicMap genPropsAccessExp).

(** The frames after [enter]: one more, of local bindings, on the nodes that
    open a scope, and the same frames on all others. *)
Lemma enter_stack node parent st signal st1 :
  enter node parent st = (Done signal, st1) ->
  match signal with
  | Skip => scopeStack st1 = scopeStack st
  | Continue =>
      if pushes node parent
      then exists F, all_local F /\ scopeStack st1 = F :: scopeStack st
      else scopeStack st1 = scopeStack st
  end.
Proof.
  unfold_enter. intros H.
  apply bind_done_inv in H as (? & st0 & H0 & H).
  assert (scopeStack st0 = scopeStack st) as E0.
  { destruct parent; inversion H0; reflexivity. }
  clear H0. rewrite <- E0. clear E0 st.
  destruct (match parent with Some p => is_type_parent p | None => false end).
  { inversion H; subst. reflexivity. }
  apply bind_done_inv in H as (? & st' & Hc & H).
  apply checkUsage_eq in Hc. subst st'.
  apply bind_done_inv in H as (? & st' & Hc & H).
  apply checkUsage_eq in Hc. subst st'.
  destruct (isFunctionType node) eqn:Ef.
  { signal_continue H.
    unfold pushes. rewrite Ef. simpl.
    eapply opened_frame; [|exact H]. registers_tac. }
  destruct (str_eq (type node) "CatchClause") eqn:Ec.
  { signal_continue H.
    unfold pushes. rewrite Ef, Ec. simpl.
    eapply opened_frame; [|exact H]. registers_tac. }
  apply bind_done_inv in H as (in_function & st' & Hf & H).
  apply lift_inv in Hf as [Hf ->].
  unfold pushes. rewrite Ef, Ec. simpl.
  assert (str_eq (type node) "BlockStatement" && outside_function parent
          = str_eq (type node) "BlockStatement" && negb in_function) as ->.
  { destruct (str_eq (type node) "BlockStatement"); [|reflexivity].
    destruct parent as [p|]; simpl in Hf; [|discriminate].
    simpl. congruence. }
  clear Hf.
  destruct (str_eq (type node) "BlockStatement" && negb in_function).
  - signal_continue H.
    eapply opened_frame; [|exact H]. registers_tac.
  - destruct (str_eq (type node) "Identifier").
    + apply bind_done_inv in H as (? & st' & Hr & H).
      inversion H; subst; clear H.
      destruct (_ && _) in Hr; [|inversion Hr; reflexivity].
      apply rewrite_in_edits_only in Hr. apply Hr.
    + inversion H; subst. reflexivity.
Qed.

Lemma leave_stack node parent st st' :
  leave node parent st = (Done tt, st') ->
  scopeStack st' =
    if pops node parent then tail (scopeStack st) else scopeStack st.
Proof.
  unfold leave, pops. intros H.
  apply bind_done_inv in H as (? & st0 & H0 & H).
  assert (scopeStack st0 = scopeStack st) as E0.
  { destruct parent; inversion H0; reflexivity. }
  rewrite <- E0. clear H0 E0.
  apply bind_done_inv in H as (block_scope & st1 & Hb & H).
  apply lift_inv in Hb as [Hb ->].
  assert (block_scope =
          str_eq (type node) "BlockStatement" && outside_function parent)
    as ->.
  { destruct (str_eq (type node) "BlockStatement"); simpl in *.
    - destruct parent; simpl in *; [|discriminate]. congruence.
    - congruence. }
  destruct (_ || _); inversion H; reflexivity.
Qed.

(** After a node has been visited to the end, the frames that were there
    are all still there, under the frames that were opened and not closed. *)
Lemma visit_grows node :
  forall parent st st',
    visit node parent st = (Done tt, st') -> grows st st'.
Proof.
  induction node as [node IH] using Node_ind.
  intros parent st st' H. rewrite visit_eq in H.
  apply bind_done_inv in H as (signal & st1 & He & H).
  apply enter_stack in He.
  destruct signal.
  2:{ inversion H; subst. apply grows_same. exact He. }
  apply bind_done_inv in H as ([] & st2 & Hc & Hl).
  assert (grows st1 st2) as (L & E2 & HL).
  { clear He Hl. revert st1 Hc.
    induction IH as [|c r Hc' _ IHr]; intros st1 Hc; simpl in Hc.
    - inversion Hc. apply grows_refl.
    - apply bind_done_inv in Hc as ([] & st1' & H1 & H2).
      eapply grows_trans; [eapply Hc'; exact H1|apply IHr; exact H2]. }
  apply leave_stack in Hl.
  destruct (pops node parent) eqn:Ep.
  - rewrite (pops_pushes _ _ Ep) in He. destruct He as (F & HF & E1).
    rewrite E2, E1 in Hl.
    destruct L as [|G L]; simpl in Hl.
    + apply grows_same. exact Hl.
    + exists (L ++ [F])%list. split.
      * rewrite Hl, <- app_assoc. reflexivity.
      * inversion HL; subst. apply Forall_app. split; [assumption|].
        constructor; [assumption|constructor].
  - unfold grows. rewrite Hl, E2.
    destruct (pushes node parent).
    + destruct He as (F & HF & E1). rewrite E1.
      exists (L ++ [F])%list. split.
      * rewrite <- app_assoc. reflexivity.
      * apply Forall_app. split; [assumption|].
        constructor; [assumption|constructor].
    + rewrite He. exists L. auto.
Qed.

Lemma visit_all_grows nodes parent st st' :
  visit_all nodes parent st = (Done tt, st') -> grows st st'.
Proof.
  revert st. induction nodes as [|c r IH]; intros st H; simpl in H.
  - inversion H. apply grows_refl.
  - apply bind_done_inv in H as ([] & st1 & H1 & H2).
    eapply grows_trans; [eapply visit_grows; exact H1|apply IH; exact H2].
Qed.

(** Whenever the walker calls [enter] inside a subtree, the frames that
    were there when the subtree was entered are all still there. *)
Lemma Entered_grows n p st n' p' st' :
  Entered n p st n' p' st' -> grows st st'.
Proof.
  induction 1 as [|n p st st1 pre c post st2 n' p' st' He Hc Hv _ IH].
  - apply grows_refl.
  - apply enter_stack in He. apply visit_all_grows in Hv.
    eapply grows_trans; [|eapply grows_trans; [exact Hv|exact IH]].
    destruct (pushes n p).
    + destruct He as (F & HF & E). eapply grows_frame; eassumption.
    + apply grows_same. exact He.
Qed.

End Stack.

(** ** Resolution *)

Lemma resolve_app_local L S x :
  Forall all_local L -> resolve x S = Some false ->
  resolve x (L ++ S) = Some false.
Proof.
  intros HL HS. induction HL as [|F L HF _ IH]; simpl; [exact HS|].
  destruct (F !! x) as [[|]|] eqn:E; [|reflexivity|exact IH].
  exfalso. exact (HF x E).
Qed.

Lemma resolve_grows st st' x :
  grows st st' -> resolve x (scopeStack st) = Some false ->
  resolve x (scopeStack st') = Some false.
Proof.
  intros (L & E & HL) H. rewrite E. apply resolve_app_local; assumption.
Qed.

Lemma resolve_head F outer x b :
  F !! x = Some b -> resolve x (F :: outer) = Some b.
Proof. intros H. simpl. rewrite H. reflexivity. Qed.

Section Identifiers.

Variable offset : Z.
Variable propsLocalToPublicMap : gmap string string.
Variable vueImportAliases : gmap string string.
Variable genPropsAccessExp : string -> string.

Local Abbreviation enter :=
  (enter offset propsLocalToPublicMap vueImportAliases genPropsAccessExp).
Local Abbreviation Inside :=
  (Inside offset propsLocalToPublicMap vueImportAliases genPropsAccessExp).
Local Abbreviation rewrite_in :=
  (rewrite_in offset propsLocalToPublicMap genPropsAccessExp).
Local Abbreviation rewriteId :=
  (rewriteId offset propsLocalToPublicMap genPropsAccessExp).
Local Abbreviation access :=
  (access propsLocalToPublicMap genPropsAccessExp).

(** The loop over the frames stops at the innermost frame that has the
    name: it does there what [rewriteId] does on a frame with that one
    binding. *)
Lemma rewrite_in_resolve scopes id parent stack st :
  rewrite_in scopes id parent stack st =
  match resolve (name id) scopes with
  | Some b =>
      (rewriteId {[ name id := b ]} id parent stack ;; ret tt) st
  | None => (Done tt, st)
  end.
Proof.
  induction scopes as [|scope outer IH]; simpl; [reflexivity|].
  unfold_rewriteId_head.
  destruct (scope !! name id) as [b|] eqn:E.
  - unfold_rewriteId. rewrite lookup_singleton_eq.
    rewrite !bind_assoc. apply bind_ext. intros ? ?. reflexivity.
  - exact IH.
Qed.

Lemma rewrite_in_local scopes id parent stack st :
  resolve (name id) scopes = Some false ->
  rewrite_in scopes id parent stack st = (Done tt, st).
Proof.
  intros H. rewrite rewrite_in_resolve, H.
  unfold_rewriteId. rewrite lookup_singleton_eq. reflexivity.
Qed.

(** What [rewriteId] does for a prop binding. *)
Lemma rewrite_in_prop scopes id parent stack st :
  resolve (name id) scopes = Some true ->
  rewrite_in scopes id (Some parent) stack st =
  if is_write_target parent id then (Throw (Diag (ReadonlyViolation id)), st)
  else if is_shorthand parent then
    if in_binding_pattern parent stack then (Done tt, st)
    else record (AppendLeft (nend id + offset) (": " ++ access id)) st
  else
    record (Overwrite (nstart id + offset) (nend id + offset) (access id)) st.
Proof.
  intros H. rewrite rewrite_in_resolve, H.
  unfold_rewriteId. rewrite lookup_singleton_eq.
  unfold bind, lift, deref.
  fold (is_write_target parent id). fold (is_shorthand parent).
  unfold in_binding_pattern.
  destruct (is_write_target parent id); [reflexivity|].
  destruct (is_shorthand parent); cbn -[access]; [|reflexivity].
  destruct (flag parent "inPattern"),
    (isInDestructureAssignment parent stack); reflexivity.
Qed.

(** An identifier is no call, no function, no clause and no block: [enter]
    comes down to the rewriting. *)
Lemma enter_Identifier id parent st :
  type id = "Identifier" ->
  match parent with Some p => is_type_parent p | None => false end = false ->
  enter id parent st =
  ((fun st0 =>
      if isReferencedIdentifier id parent (parentStack st0)
         && negb (excludedIds_has id st0)
      then rewrite_in (scopeStack st0) id parent (parentStack st0) st0
      else (Done tt, st0)) ;;
   ret Continue) (entered_state parent st).
Proof.
  intros Ht Hp. destruct st as [scopes excluded stack log].
  unfold_enter.
  erewrite bind_done with (st1 := entered_state parent (mkState scopes excluded stack log));
    [|destruct parent; reflexivity].
  rewrite Hp.
  unfold checkUsage, isCallOf. rewrite Ht.
  rewrite !andb_false_r. cbn -[bind rewrite_in isReferencedIdentifier].
  unfold isFunctionType. rewrite Ht. reflexivity.
Qed.

End Identifiers.

(** ** Calls of [enter] and the outcome of the walk *)

Section Walk.

Variable offset : Z.
Variable propsLocalToPublicMap : gmap string string.
Variable vueImportAliases : gmap string string.
Variable genPropsAccessExp : string -> string.

Local Abbreviation enter :=
  (enter offset propsLocalToPublicMap vueImportAliases genPropsAccessExp).
Local Abbreviation visit :=
  (visit offset propsLocalToPublicMap vueImportAliases genPropsAccessExp).
Local Abbreviation visit_all :=
  (visit_all offset propsLocalToPublicMap vueImportAliases genPropsAccessExp).
Local Abbreviation Entered :=
  (Entered offset propsLocalToPublicMap vueImportAliases genPropsAccessExp).

(** A throw in [enter] ends the walk on the spot, in the state of the
    throw. *)
Lemma Entered_throw n p st n' p' st' e st'' :
  Entered n p st n' p' st' ->
  enter n' p' st' = (Throw e, st'') ->
  visit n p st = (Throw e, st'').
Proof.
  intros HE Hthrow.
  induction HE as [|n p st st1 pre c post st2 n' p' st' He Hc Hv _ IH].
  - rewrite visit_eq. apply bind_throw. exact Hthrow.
  - specialize (IH Hthrow).
    rewrite visit_eq. erewrite bind_done; [|exact He].
    apply bind_throw. rewrite Hc, visit_all_app.
    erewrite bind_done; [|exact Hv].
    simpl. apply bind_throw. exact IH.
Qed.

Lemma visit_all_log nodes parent : preserves log_ext (visit_all nodes parent).
Proof.
  apply visit_all_preserves; [typeclasses eauto|].
  apply Forall_forall. intros c _ p. apply visit_log.
Qed.

(** What [enter] has appended to the log is in the log when the walk
    ends, however it ends. *)
Lemma Entered_log n p st n' p' st' o' st'' o stf :
  Entered n p st n' p' st' ->
  enter n' p' st' = (o', st'') ->
  visit n p st = (o, stf) ->
  log_ext st'' stf.
Proof.
  intros HE Henter. revert o stf.
  induction HE as [|n p st st1 pre c post st2 n' p' st' He Hc Hv _ IH];
    intros o stf Hvisit; rewrite visit_eq in Hvisit.
  - destruct o' as [signal|e].
    + erewrite bind_done in Hvisit; [|exact Henter].
      destruct signal.
      * revert Hvisit.
        apply (preserves_bind log_ext);
          [apply visit_all_log|intros _; apply leave_log].
      * inversion Hvisit. reflexivity.
    + erewrite bind_throw in Hvisit; [|exact Henter].
      inversion Hvisit. reflexivity.
  - specialize (IH Henter).
    erewrite bind_done in Hvisit; [|exact He].
    cbn beta iota in Hvisit.
    rewrite Hc in Hvisit.
    assert (forall (k : M unit) st0,
               (visit_all (pre ++ c :: post) (Some n) ;; k) st0 =
               (visit_all pre (Some n) ;;
                visit c (Some n) ;;
                visit_all post (Some n) ;; k) st0) as Eq.
    { clear. intros k st0.
      etransitivity; [apply bind_ext_l; intros; apply visit_all_app|].
      rewrite bind_assoc. apply bind_ext. intros _ st3.
      apply bind_assoc. }
    rewrite Eq in Hvisit.
    erewrite bind_done in Hvisit; [|exact Hv].
    apply bind_inv in Hvisit as [(a & st3 & Hvc & Hrest)|(e & _ & Hvc)].
    + transitivity st3; [eapply IH; exact Hvc|].
      revert Hrest.
      apply (preserves_bind log_ext);
        [apply visit_all_log|intros _; apply leave_log].
    + eapply IH. exact Hvc.
Qed.

End Walk.

(** ** Tracking calls *)

Lemma isCallOf_defined node test test' :
  isCallOf node test = Done true ->
  exists b, isCallOf node test' = Done b.
Proof.
  unfold isCallOf.
  destruct (negb (str_eq test "") && str_eq (type node) "CallExpression");
    [|discriminate].
  destruct (child node "callee"); simpl; [|discriminate].
  intros _. destruct (negb (str_eq test' "") && _); eauto.
Qed.

Lemma checkUsage_other node method alias st :
  isCallOf node (default method alias) = Done false ->
  checkUsage node method alias st = (Done tt, st).
Proof. intros H. unfold checkUsage, bind, lift. rewrite H. reflexivity. Qed.

Lemma checkUsage_no_argument node method alias st :
  isCallOf node (default method alias) = Done true ->
  elems node "arguments" = Some [] ->
  checkUsage node method alias st = (Throw TypeError, st).
Proof.
  intros H Ha. unfold checkUsage, bind, lift. rewrite H, Ha. reflexivity.
Qed.

(** The diagnostic is raised on the kind of the first argument alone,
    whatever the state, and so whatever the scopes bind. *)
Lemma checkUsage_identifier node method alias arg0 rest arg st :
  isCallOf node (default method alias) = Done true ->
  elems node "arguments" = Some (Some arg0 :: rest) ->
  unwrapTSNode arg0 = Done arg ->
  type arg = "Identifier" ->
  checkUsage node method alias st
  = (Throw (Diag (ReactivityTrackingMisuse method arg)), st).
Proof.
  intros H Ha Hu Ht. unfold checkUsage, bind, lift. rewrite H, Ha.
  cbn [head mjoin option_join deref obind]. rewrite Hu, Ht. reflexivity.
Qed.

(** ** The seeding of the root scope *)

Lemma seed_map_lookup knownProps key local :
  In (key, local) knownProps ->
  (forall key', In (key', local) knownProps -> key' = key) ->
  seed_map knownProps !! local = Some key.
Proof.
  unfold seed_map.
  assert (forall (m : gmap string string),
             (m !! local = Some key \/ In (key, local) knownProps) ->
             (forall key', In (key', local) knownProps -> key' = key) ->
             fold_left (fun m kl => <[kl.2 := kl.1]> m) knownProps m
             !! local = Some key) as G.
  { induction knownProps as [|[k l] r IH]; intros m Hm Hu; simpl.
    - destruct Hm as [Hm|[]]. exact Hm.
    - apply IH.
      + destruct (decide (l = local)) as [->|Hne].
        * left. rewrite (Hu k (or_introl eq_refl)). apply lookup_insert_eq.
        * destruct Hm as [Hm|[Hm|Hm]].
          -- left. rewrite lookup_insert_ne; assumption.
          -- congruence.
          -- right. exact Hm.
      + intros key' Hk. apply Hu. right. exact Hk. }
  intros Hin Hu. apply G; auto.
Qed.

Lemma seed_scope_lookup knownProps key local :
  local <> "__proto__" ->
  In (key, local) knownProps ->
  seed_scope knownProps !! local = Some true.
Proof.
  unfold seed_scope. intros Hlocal.
  assert (forall (m : Scope),
             (m !! local = Some true \/ In (key, local) knownProps) ->
             fold_left (fun m kl => scope_set m kl.2 true) knownProps m
             !! local = Some true) as G.
  { induction knownProps as [|[k l] r IH]; intros m Hm; simpl.
    - destruct Hm as [Hm|[]]. exact Hm.
    - apply IH.
      destruct (decide (l = local)) as [->|Hne].
      + left. apply scope_set_lookup. exact Hlocal.
      + destruct Hm as [Hm|[Hm|Hm]].
        * left. rewrite scope_set_lookup_ne; assumption.
        * congruence.
        * right. exact Hm. }
  intros Hin. apply G; auto.
Qed.

(** ** Classification of occurrences *)

Lemma str_eq_true a b : str_eq a b = true -> a = b.
Proof. apply String.eqb_eq. Qed.

Lemma write_target_cases parent id :
  is_write_target parent id = true ->
  (type parent = "AssignmentExpression" /\ same (child parent "left") id = true)
  \/ type parent = "UpdateExpression".
Proof.
  unfold is_write_target. intros H.
  apply orb_true_iff in H as [H|H].
  - apply andb_true_iff in H as [H1 H2]. left. split; [|exact H2].
    apply str_eq_true. exact H1.
  - right. apply str_eq_true. exact H.
Qed.

Lemma write_target_not_type_parent parent id :
  is_write_target parent id = true -> is_type_parent parent = false.
Proof.
  intros H. apply write_target_cases in H as [[H _]|H];
    unfold is_type_parent; rewrite H; reflexivity.
Qed.

Lemma write_target_referenced parent id stack :
  str_eq (name id) "arguments" = false ->
  is_write_target parent id = true ->
  isReferencedIdentifier id (Some parent) stack = true.
Proof.
  intros Hn H. unfold isReferencedIdentifier. rewrite Hn.
  apply write_target_cases in H as [[H _]|H];
    unfold isReferenced; rewrite H; cbn.
  - destruct (same (child parent "right") id); reflexivity.
  - reflexivity.
Qed.

Lemma static_property_cases parent :
  isStaticProperty parent = true ->
  (type parent = "ObjectProperty" \/ type parent = "ObjectMethod")
  /\ flag parent "computed" = false.
Proof.
  unfold isStaticProperty. intros H.
  apply andb_true_iff in H as [H1 H2]. split.
  - apply orb_true_iff in H1 as [H1|H1]; [left|right];
      apply str_eq_true; exact H1.
  - apply negb_true_iff. exact H2.
Qed.

Lemma static_property_not_type_parent parent :
  isStaticProperty parent = true -> is_type_parent parent = false.
Proof.
  intros H. apply static_property_cases in H as [[H|H] _];
    unfold is_type_parent; rewrite H; reflexivity.
Qed.

Lemma static_property_not_write_target parent id :
  isStaticProperty parent = true -> is_write_target parent id = false.
Proof.
  intros H. apply static_property_cases in H as [[H|H] _];
    unfold is_write_target; rewrite H; reflexivity.
Qed.

(** The key of a property or method that is not computed is no reference. *)
Lemma static_key_not_referenced parent id stack :
  isStaticProperty parent = true ->
  same (child parent "key") id = true ->
  isReferencedIdentifier id (Some parent) stack = false.
Proof.
  intros H Hk. unfold isReferencedIdentifier.
  destruct (str_eq (name id) "arguments"); [reflexivity|].
  apply static_property_cases in H as [[H|H] Hc];
    unfold isReferenced; rewrite H; cbn; rewrite Hk, Hc; reflexivity.
Qed.

(** ** Registration of parameters *)

Lemma registers_keeps_local st st' F outer x :
  registers st st' ->
  scopeStack st = F :: outer -> F !! x = Some false ->
  exists F', scopeStack st' = F' :: outer /\ F' !! x = Some false.
Proof.
  intros (Hs & _) E Hx. rewrite E in Hs.
  destruct (scopeStack st') as [|F' r]; [contradiction|].
  destruct Hs as [[Hle _] ->]. exists F'. split; [reflexivity|auto].
Qed.

Lemma registerLocalBinding_binds id st st' :
  name id <> "__proto__" ->
  registerLocalBinding id st = (Done tt, st') ->
  exists F outer,
    scopeStack st' = F :: outer /\ F !! name id = Some false
    /\ tail (scopeStack st) = outer.
Proof.
  intros Hname.
  unfold registerLocalBinding, bind, excludedIds_add. cbn [scopeStack].
  destruct (scopeStack st) as [|F outer]; [discriminate|].
  intros H. inversion H; subst; clear H. cbn [scopeStack].
  eexists _, _. split; [reflexivity|]. split; [|reflexivity].
  apply scope_set_lookup. exact Hname.
Qed.

Lemma for_ids_binds ids id st st' :
  name id <> "__proto__" ->
  for_ids ids registerLocalBinding st = (Done tt, st') ->
  In id ids ->
  exists F outer, scopeStack st' = F :: outer /\ F !! name id = Some false.
Proof.
  intros Hname.
  revert st. induction ids as [|i r IH]; intros st H Hin; [destruct Hin|].
  simpl in H. apply bind_done_inv in H as ([] & st1 & H1 & H2).
  destruct Hin as [->|Hin].
  - apply registerLocalBinding_binds in H1 as (F & outer & E & Hx & _);
      [|exact Hname].
    assert (registers st1 st') as Hreg.
    { eapply preserves_for_ids;
        [typeclasses eauto|intros; apply registerLocalBinding_registers|exact H2]. }
    destruct (registers_keeps_local _ _ _ _ _ Hreg E Hx) as (F' & E' & Hx').
    eauto.
  - eapply IH; eassumption.
Qed.



Section Params.

Variable offset : Z.
Variable propsLocalToPublicMap : gmap string string.
Variable vueImportAliases : gmap string string.
Variable genPropsAccessExp : string -> string.

Local Abbreviation enter :=
  (enter offset propsLocalToPublicMap vueImportAliases genPropsAccessExp).

Lemma enter_skip node parent st :
  is_type_parent parent = true ->
  enter node (Some parent) st = (Done Skip, entered_state (Some parent) st).
Proof.
  intros Hp. unfold_enter. cbn -[is_type_parent]. rewrite Hp. reflexivity.
Qed.


End Params.

(** ** Local bindings along the walk *)

Section Shadow.

Variable offset : Z.
Variable propsLocalToPublicMap : gmap string string.
Variable vueImportAliases : gmap string string.
Variable genPropsAccessExp : string -> string.

Local Abbreviation enter :=
  (enter offset propsLocalToPublicMap vueImportAliases genPropsAccessExp).
Local Abbreviation Inside :=
  (Inside offset propsLocalToPublicMap vueImportAliases genPropsAccessExp).

(** A name that resolves to a local binding once a node has been entered
    does so at every call of [enter] below that node. *)
Lemma Inside_resolve_local n p st st1 x n' p' st' :
  enter n p st = (Done Continue, st1) ->
  resolve x (scopeStack st1) = Some false ->
  Inside n p st n' p' st' ->
  resolve x (scopeStack st') = Some false.
Proof.
  intros He Hx (st1' & pre & c & post & st2 & He' & _ & Hv & HE).
  rewrite He in He'. injection He' as <-.
  apply visit_all_grows in Hv. apply Entered_grows in HE.
  eapply resolve_grows; [|exact Hx].
  eapply grows_trans; eassumption.
Qed.

(** On an identifier whose name resolves to a local binding, [enter]
    returns and leaves the log as it is. *)
Lemma enter_local_identifier id parent st :
  type id = "Identifier" ->
  resolve (name id) (scopeStack st) = Some false ->
  exists signal, enter id parent st = (Done signal, entered_state parent st).
Proof.
  intros Ht Hx.
  destruct (match parent with Some p => is_type_parent p | None => false end)
    eqn:Hp.
  - destruct parent as [p|]; [|discriminate].
    exists Skip. apply enter_skip. exact Hp.
  - exists Continue. rewrite enter_Identifier; [|exact Ht|exact Hp].
    unfold bind.
    destruct (_ && _); [|reflexivity].
    rewrite rewrite_in_local; [reflexivity|exact Hx].
Qed.

Lemma Entered_excl n p st n' p' st' :
  Entered offset propsLocalToPublicMap vueImportAliases genPropsAccessExp
          n p st n' p' st' ->
  excl_ext st st'.
Proof.
  induction 1 as [|n p st st1 pre c post st2 n' p' st' He Hc Hv _ IH].
  - reflexivity.
  - transitivity st1; [eapply enter_excl; exact He|].
    transitivity st2; [|exact IH].
    eapply visit_all_preserves; [typeclasses eauto| |exact Hv].
    apply Forall_forall. intros ? _ ?. apply visit_excl.
Qed.

End Shadow.

(** ** Where the edits come from *)

#[local] Instance same_log_preorder : PreOrder same_log.
Proof.
  split.
  - intros st. reflexivity.
  - intros a b c. unfold same_log. congruence.
Qed.

Lemma registers_same_log st st' : registers st st' -> same_log st st'.
Proof. intros (_ & _ & _ & H). exact H. Qed.

Lemma eq_same_log st st' : st = st' -> same_log st st'.
Proof. intros ->. reflexivity. Qed.

Lemma push_scope_same_log : preserves same_log push_scope.
Proof. intros st o st' H. inversion H; subst. reflexivity. Qed.

Lemma pop_scope_same_log : preserves same_log pop_scope.
Proof. intros st o st' H. inversion H; subst. reflexivity. Qed.

Lemma parentStack_push_same_log p : preserves same_log (parentStack_push p).
Proof. intros st o st' H. inversion H; subst. reflexivity. Qed.

Lemma parentStack_pop_same_log : preserves same_log parentStack_pop.
Proof. intros st o st' H. inversion H; subst. reflexivity. Qed.

Lemma leave_same_log node parent : preserves same_log (leave node parent).
Proof.
  unfold leave.
  repeat first
    [ apply pop_scope_same_log | apply parentStack_pop_same_log
    | preserves_step ].
Qed.

Section Origin.

Variable offset : Z.
Variable propsLocalToPublicMap : gmap string string.
Variable vueImportAliases : gmap string string.
Variable genPropsAccessExp : string -> string.

Local Abbreviation enter :=
  (enter offset propsLocalToPublicMap vueImportAliases genPropsAccessExp).
Local Abbreviation visit :=
  (visit offset propsLocalToPublicMap vueImportAliases genPropsAccessExp).
Local Abbreviation visit_all :=
  (visit_all offset propsLocalToPublicMap vueImportAliases genPropsAccessExp).
Local Abbreviation Entered :=
  (Entered offset propsLocalToPublicMap vueImportAliases genPropsAccessExp).
Local Abbreviation rewrite_in :=
  (rewrite_in offset propsLocalToPublicMap genPropsAccessExp).

(** The loop over the frames records one edit at most. *)
Lemma rewrite_in_one_edit scopes id parent stack st o st' :
  rewrite_in scopes id parent stack st = (o, st') ->
  s st' = s st \/ exists e, s st' = (s st ++ [e])%list.
Proof.
  rewrite rewrite_in_resolve.
  destruct (resolve (name id) scopes) as [[|]|].
  - destruct parent as [parent|].
    + fold (bind (rewriteId offset propsLocalToPublicMap genPropsAccessExp
                    {[name id := true]} id (Some parent) stack)
                 (fun _ => ret tt) st).
      pose proof (rewrite_in_prop offset propsLocalToPublicMap
                    genPropsAccessExp [{[name id := true]}] id parent stack st)
        as Hp.
      rewrite rewrite_in_resolve in Hp. cbn [resolve] in Hp.
      rewrite lookup_singleton_eq in Hp. rewrite Hp by reflexivity.
      destruct (is_write_target parent id).
      { intros H. inversion H. left. reflexivity. }
      destruct (is_shorthand parent).
      * destruct (in_binding_pattern parent stack); intros H; inversion H;
          [left; reflexivity|right; eexists; reflexivity].
      * intros H. inversion H. right. eexists. reflexivity.
    + unfold_rewriteId. rewrite lookup_singleton_eq.
      intros H. inversion H. left. reflexivity.
  - unfold_rewriteId. rewrite lookup_singleton_eq.
    intros H. inversion H. left. reflexivity.
  - intros H. inversion H. left. reflexivity.
Qed.

(** [enter] records one edit at most, and only on an identifier. *)
Lemma enter_one_edit node parent st o st1 :
  enter node parent st = (o, st1) ->
  s st1 = s st
  \/ (type node = "Identifier" /\ exists e, s st1 = (s st ++ [e])%list).
Proof.
  destruct (str_eq (type node) "Identifier") eqn:Et.
  - apply str_eq_true in Et.
    destruct (match parent with Some p => is_type_parent p | None => false end)
      eqn:Hp.
    + destruct parent as [p|]; [|discriminate].
      rewrite enter_skip by exact Hp. intros H. inversion H. left. reflexivity.
    + rewrite enter_Identifier; [|exact Et|exact Hp].
      intros H. apply bind_inv in H as [(a & st2 & H & Hr)|(e & _ & H)].
      * inversion Hr; subst. destruct (_ && _) in H.
        -- apply rewrite_in_one_edit in H as [H|H]; [left|right]; auto.
        -- inversion H. left. reflexivity.
      * destruct (_ && _) in H.
        -- apply rewrite_in_one_edit in H as [H|H]; [left|right]; auto.
        -- inversion H.
  - intros H. left. revert H.
    change (s st1 = s st) with (same_log st st1). revert st o st1.
    change (preserves same_log (enter node parent)).
    unfold_enter. rewrite Et.
    repeat first
      [ apply push_scope_same_log | apply parentStack_push_same_log
      | preserves_base registers_same_log registers_same_log eq_same_log
      | preserves_step ].
Qed.

(** Every edit that a visit adds to the log was recorded by a call of
    [enter] made in its course, on an identifier. *)
Lemma visit_edits_entered node :
  forall parent st o stf,
    visit node parent st = (o, stf) ->
    exists added,
      s stf = (s st ++ added)%list
      /\ forall e, In e added ->
           exists n' p' st' o' st'',
             Entered node parent st n' p' st'
             /\ enter n' p' st' = (o', st'')
             /\ type n' = "Identifier"
             /\ s st'' = (s st' ++ [e])%list.
Proof.
  induction node as [node IH] using Node_ind.
  intros parent st o stf H. rewrite visit_eq in H.
  assert (forall st1 o1, enter node parent st = (o1, st1) ->
            exists added1,
              s st1 = (s st ++ added1)%list
              /\ forall e, In e added1 ->
                   exists n' p' st' o' st'',
                     Entered node parent st n' p' st'
                     /\ enter n' p' st' = (o', st'')
                     /\ type n' = "Identifier"
                     /\ s st'' = (s st' ++ [e])%list) as Hfirst.
  { intros st1 o1 He.
    destruct (enter_one_edit _ _ _ _ _ He) as [Hs|(Ht & e & Hs)].
    - exists []. rewrite app_nil_r. split; [exact Hs|]. intros e [].
    - exists [e]. split; [exact Hs|].
      intros e' [<-|[]]. exists node, parent, st, o1, st1.
      repeat split; try assumption. apply Entered_here. }
  apply bind_inv in H as [(signal & st1 & He & H)|(e & _ & He)].
  2:{ apply Hfirst in He. exact He. }
  destruct (Hfirst _ _ He) as (added1 & Hs1 & Hadded1).
  destruct signal.
  2:{ inversion H; subst. eauto. }
  assert (forall pre post st2 o2 st3,
             children node = (pre ++ post)%list ->
             visit_all pre (Some node) st1 = (Done tt, st2) ->
             visit_all post (Some node) st2 = (o2, st3) ->
             exists added,
               s st3 = (s st2 ++ added)%list
               /\ forall e, In e added ->
                    exists n' p' st' o' st'',
                      Entered node parent st n' p' st'
                      /\ enter n' p' st' = (o', st'')
                      /\ type n' = "Identifier"
                      /\ s st'' = (s st' ++ [e])%list) as Hkids.
  { intros pre post. revert pre.
    induction post as [|c post IHpost]; intros pre st2 o2 st3 Hc Hpre Hpost.
    - inversion Hpost; subst. exists []. rewrite app_nil_r.
      split; [reflexivity|]. intros e [].
    - simpl in Hpost.
      assert (In c (children node)) as Hin.
      { rewrite Hc. apply in_or_app. right. left. reflexivity. }
      rewrite Forall_forall in IH.
      assert (c ∈ children node) as Hin' by (apply list_elem_of_In; exact Hin).
      specialize (IH c Hin').
      assert (forall o' st', visit c (Some node) st2 = (o', st') ->
                exists added,
                  s st' = (s st2 ++ added)%list
                  /\ forall e, In e added ->
                       exists n' p' st'0 o'0 st'',
                         Entered node parent st n' p' st'0
                         /\ enter n' p' st'0 = (o'0, st'')
                         /\ type n' = "Identifier"
                         /\ s st'' = (s st'0 ++ [e])%list) as Hchild.
      { intros o' st' Hv.
        destruct (IH _ _ _ _ Hv) as (added & Hs & Ha).
        exists added. split; [exact Hs|].
        intros e Hin_e.
        destruct (Ha e Hin_e) as (n' & p' & st'0 & o'0 & st'' & HE & rest).
        exists n', p', st'0, o'0, st''. split; [|exact rest].
        eapply Entered_below; eassumption. }
      apply bind_inv in Hpost as [([] & st2' & Hv & Hrest)|(e & _ & Hv)].
      + destruct (Hchild _ _ Hv) as (added & Hs & Ha).
        destruct (IHpost (pre ++ [c])%list st2' o2 st3) as (added' & Hs' & Ha').
        * rewrite <- app_assoc. exact Hc.
        * rewrite visit_all_app. erewrite bind_done; [|exact Hpre].
          simpl. erewrite bind_done; [|exact Hv]. reflexivity.
        * exact Hrest.
        * exists (added ++ added')%list. split.
          -- rewrite Hs', Hs, app_assoc. reflexivity.
          -- intros e Hin_e. apply in_app_or in Hin_e as [Hin_e|Hin_e]; auto.
      + apply Hchild in Hv. exact Hv. }
  apply bind_inv in H as [([] & st2 & Hv & Hl)|(e & _ & Hv)].
  - destruct (Hkids [] (children node) st1 (Done tt) st2 eq_refl eq_refl Hv)
      as (added & Hs & Ha).
    apply leave_same_log in Hl. unfold same_log in Hl.
    exists (added1 ++ added)%list. split.
    + rewrite Hl, Hs, Hs1, app_assoc. reflexivity.
    + intros e Hin_e. apply in_app_or in Hin_e as [Hin_e|Hin_e]; auto.
  - destruct (Hkids [] (children node) st1 (Throw e) stf eq_refl eq_refl Hv)
      as (added & Hs & Ha).
    exists (added1 ++ added)%list. split.
    + rewrite Hs, Hs1, app_assoc. reflexivity.
    + intros e0 Hin_e. apply in_app_or in Hin_e as [Hin_e|Hin_e]; auto.
Qed.

Lemma Entered_inv n p st n' p' st' :
  Entered n p st n' p' st' ->
  (n' = n /\ p' = p /\ st' = st)
  \/ Inside offset propsLocalToPublicMap vueImportAliases genPropsAccessExp
            n p st n' p' st'.
Proof.
  intros H. inversion H; subst.
  - left. auto.
  - right. unfold Inside. eauto 10.
Qed.

(** The edits made in the course of a visit, below a node where [x] is
    bound as local in the current frame, are all made at identifiers whose
    name is not [x]. *)
Lemma visit_edits_not_local n p st st1 x o stf :
  enter n p st = (Done Continue, st1) ->
  resolve x (scopeStack st1) = Some false ->
  visit n p st = (o, stf) ->
  exists added,
    s stf = (s st ++ added)%list
    /\ forall e, In e added ->
         exists n' p' st' o' st'',
           Entered n p st n' p' st'
           /\ enter n' p' st' = (o', st'')
           /\ type n' = "Identifier"
           /\ name n' <> x
           /\ s st'' = (s st' ++ [e])%list.
Proof.
  intros He Hx Hv.
  destruct (visit_edits_entered _ _ _ _ _ Hv) as (added & Hs & Ha).
  exists added. split; [exact Hs|].
  intros e Hin. destruct (Ha e Hin) as (n' & p' & st' & o' & st'' & HE & He' & Ht & Hs').
  exists n', p', st', o', st''. repeat split; try assumption.
  intros Hn.
  assert (resolve (name n') (scopeStack st') = Some false) as Hr.
  { rewrite Hn. apply Entered_inv in HE as [(-> & -> & ->)|Hin'].
    - pose proof (enter_stack _ _ _ _ _ _ _ _ _ He) as Hst. cbn iota in Hst.
      assert (pushes n p = false) as Hp.
      { unfold pushes, isFunctionType. rewrite Ht. reflexivity. }
      rewrite Hp in Hst. rewrite <- Hst. exact Hx.
    - eapply Inside_resolve_local; eassumption. }
  destruct (enter_local_identifier offset propsLocalToPublicMap
              vueImportAliases genPropsAccessExp n' p' st' Ht Hr)
    as (signal & He'').
  rewrite He' in He''. injection He'' as _ ->.
  cbn [entered_state s] in Hs'.
  apply (f_equal (@List.length Edit)) in Hs'. rewrite List.length_app in Hs'.
  simpl in Hs'. lia.
Qed.

Lemma enter_skip_inv node parent st st1 :
  enter node parent st = (Done Skip, st1) ->
  match parent with Some p => is_type_parent p | None => false end = true.
Proof.
  unfold_enter. intros H.
  apply bind_done_inv in H as (? & st0 & _ & H).
  destruct (match parent with Some p => is_type_parent p | None => false end);
    [reflexivity|].
  match type of H with
  | ?m _ = _ => assert (yields Continue m) as Hy by yields_tac
  end.
  discriminate (Hy _ _ _ H).
Qed.

(** A completed visit of an exception-handler clause leaves the frame of the
    clause on the stack. *)
Lemma catch_clause_frame_stays c p st st' :
  type c = "CatchClause" ->
  match p with Some q => is_type_parent q | None => false end = false ->
  visit c p st = (Done tt, st') ->
  exists L F, scopeStack st' = (L ++ F :: scopeStack st)%list.
Proof.
  intros Ht Hp Hv. rewrite visit_eq in Hv.
  apply bind_done_inv in Hv as (signal & st1 & He & Hv).
  destruct signal.
  - apply bind_done_inv in Hv as ([] & st2 & Hc & Hl).
    apply enter_stack in He. apply visit_all_grows in Hc.
    apply leave_stack in Hl.
    assert (pushes c p = true) as Hpush.
    { unfold pushes. rewrite Ht. apply orb_true_iff. left. apply orb_true_r. }
    assert (pops c p = false) as Hpop.
    { unfold pops, isFunctionType. rewrite Ht. reflexivity. }
    rewrite Hpush in He. rewrite Hpop in Hl.
    destruct He as (F & _ & E1). destruct Hc as (L & E2 & _).
    exists L, F. rewrite Hl, E2, E1. reflexivity.
  - apply enter_skip_inv in He. congruence.
Qed.

End Origin.

(** ** Trees without a given kind of node *)

Lemma all_nodes_eq f node :
  all_nodes f node = f node && forallb (all_nodes f) (children node).
Proof.
  destruct node as [u t a b at_ ks]. cbn [all_nodes]. f_equal.
  unfold children. cbn [kids].
  induction ks as [|[key [c|l]] ks IH]; cbn [flat_map kid_nodes snd app].
  - reflexivity.
  - cbn [forallb]. rewrite IH. reflexivity.
  - rewrite forallb_app, <- IH. f_equal.
    induction l as [|[c|] l IHl]; cbn; [reflexivity| |exact IHl].
    rewrite IHl. reflexivity.
Qed.

Lemma all_nodes_inv f node :
  all_nodes f node = true ->
  f node = true /\ Forall (fun c => all_nodes f c = true) (children node).
Proof.
  rewrite all_nodes_eq. intros H. apply andb_true_iff in H as [H1 H2].
  split; [exact H1|]. apply Forall_forall. intros c Hc.
  rewrite forallb_forall in H2. apply H2. apply list_elem_of_In. exact Hc.
Qed.

Lemma not_catch_pushes_pops node parent :
  not_catch node = true -> pushes node parent = pops node parent.
Proof.
  unfold not_catch, pushes, pops. intros H. apply negb_true_iff in H.
  rewrite H.
  destruct (isFunctionType node),
    (str_eq (type node) "BlockStatement" && outside_function parent);
    reflexivity.
Qed.

#[local] Instance same_parents_preorder : PreOrder same_parents.
Proof.
  split.
  - intros st. reflexivity.
  - intros a b c. unfold same_parents. congruence.
Qed.

Lemma registers_parents st st' : registers st st' -> same_parents st st'.
Proof. intros (_ & _ & H & _). exact H. Qed.

Lemma edits_only_parents st st' : edits_only st st' -> same_parents st st'.
Proof. intros (_ & _ & H & _). exact H. Qed.

Lemma eq_parents st st' : st = st' -> same_parents st st'.
Proof. intros ->. reflexivity. Qed.

Lemma push_scope_parents : preserves same_parents push_scope.
Proof. intros st o st' H. inversion H; subst. reflexivity. Qed.

Lemma pop_scope_parents : preserves same_parents pop_scope.
Proof. intros st o st' H. inversion H; subst. reflexivity. Qed.

Section Balance.

Variable offset : Z.
Variable propsLocalToPublicMap : gmap string string.
Variable vueImportAliases : gmap string string.
Variable genPropsAccessExp : string -> string.

Local Abbreviation enter :=
  (enter offset propsLocalToPublicMap vueImportAliases genPropsAccessExp).
Local Abbreviation visit :=
  (visit offset propsLocalToPublicMap vueImportAliases genPropsAccessExp).
Local Abbreviation visit_all :=
  (visit_all offset propsLocalToPublicMap vueImportAliases genPropsAccessExp).

Lemma visit_all_same {B : Type} (f : State -> B) nodes parent :
  Forall (fun c => forall st st',
            visit c parent st = (Done tt, st') -> f st' = f st) nodes ->
  forall st st',
    visit_all nodes parent st = (Done tt, st') -> f st' = f st.
Proof.
  intros Hc. induction Hc as [|c r Hc _ IH]; intros st st' H; simpl in H.
  - inversion H. reflexivity.
  - apply bind_done_inv in H as ([] & st1 & H1 & H2).
    rewrite (IH _ _ H2). eapply Hc; eassumption.
Qed.

(** The chain of parents after [enter]: what it was, under the parent. *)
Lemma enter_parentStack node parent st o st1 :
  enter node parent st = (o, st1) ->
  parentStack st1 = parentStack (entered_state parent st).
Proof.
  unfold_enter. intros H.
  apply bind_inv in H as [(? & st0 & H0 & H)|(e & _ & H0)].
  2:{ destruct parent; inversion H0. }
  assert (parentStack st0 = parentStack (entered_state parent st)) as E0.
  { destruct parent; inversion H0; reflexivity. }
  rewrite <- E0. clear H0 E0.
  match type of H with
  | ?m _ = _ => assert (preserves same_parents m) as Hp
  end.
  2:{ exact (Hp _ _ _ H). }
  clear H.
  repeat first
    [ apply push_scope_parents
    | preserves_base registers_parents edits_only_parents eq_parents
    | preserves_step ].
  intros st' o' st'' H.
  destruct (_ && _) in H.
  - eapply (preserves_weaken edits_only); [exact edits_only_parents| |exact H].
    apply rewrite_in_edits_only.
  - inversion H. reflexivity.
Qed.

Lemma leave_parentStack node parent st o st' :
  leave node parent st = (o, st') ->
  parentStack st' =
    match parent with
    | Some _ => tail (parentStack st)
    | None => parentStack st
    end.
Proof.
  unfold leave. intros H.
  apply bind_inv in H as [(? & st0 & H0 & H)|(e & _ & H0)].
  2:{ destruct parent; inversion H0. }
  assert (parentStack st0 =
          match parent with
          | Some _ => tail (parentStack st)
          | None => parentStack st
          end) as E0.
  { destruct parent; inversion H0; reflexivity. }
  rewrite <- E0. clear H0 E0.
  match type of H with
  | ?m _ = _ => assert (preserves same_parents m) as Hp
  end.
  2:{ exact (Hp _ _ _ H). }
  repeat first [ apply pop_scope_parents | preserves_step ].
Qed.

End Balance.

(** ** Named fields and children *)

Lemma with_node_child {B : Type} node key (f : Node -> B) d :
  with_node (kids node) key f d =
  match child node key with Some c => f c | None => d end.
Proof.
  unfold child. induction (kids node) as [|[k [c|l]] ks IH]; simpl.
  - reflexivity.
  - destruct (str_eq k key); [reflexivity|exact IH].
  - destruct (str_eq k key); [reflexivity|exact IH].
Qed.

Lemma with_list_elems {B : Type} node key (f : list (option Node) -> B) d :
  with_list (kids node) key f d =
  match elems node key with Some l => f l | None => d end.
Proof.
  unfold elems. induction (kids node) as [|[k [c|l]] ks IH]; simpl.
  - reflexivity.
  - destruct (str_eq k key); [reflexivity|exact IH].
  - destruct (str_eq k key); [reflexivity|exact IH].
Qed.

Lemma child_in_children node key c :
  child node key = Some c -> In c (children node).
Proof.
  unfold child, children.
  induction (kids node) as [|[k [c'|l]] ks IH]; simpl; [discriminate| |].
  - destruct (str_eq k key).
    + intros H. injection H as ->. left. reflexivity.
    + intros H. right. exact (IH H).
  - destruct (str_eq k key); [discriminate|].
    intros H. apply in_or_app. right. exact (IH H).
Qed.

Lemma elems_in_children node key l c :
  elems node key = Some l -> In (Some c) l -> In c (children node).
Proof.
  unfold elems, children.
  induction (kids node) as [|[k [c'|l']] ks IH]; simpl; [discriminate| |].
  - destruct (str_eq k key); [discriminate|].
    intros H Hc. right. exact (IH H Hc).
  - destruct (str_eq k key).
    + intros H Hc. injection H as ->. apply in_or_app. left.
      apply list_elem_of_In, list_elem_of_omap. exists (Some c).
      split; [apply list_elem_of_In; exact Hc|reflexivity].
    + intros H Hc. apply in_or_app. right. exact (IH H Hc).
Qed.

(** ** The helpers fail by dereferencing [undefined] only *)

Lemma ote_done {A : Type} (a : A) : only_type_error (Done a).
Proof. intros e H. discriminate. Qed.

Lemma ote_throw {A : Type} : only_type_error (@Throw A TypeError).
Proof. intros e H. injection H as <-. reflexivity. Qed.

Lemma ote_deref {A : Type} (o : option A) : only_type_error (deref o).
Proof. destruct o; [apply ote_done|apply ote_throw]. Qed.

Lemma ote_obind {A B : Type} (o : Outcome A) (k : A -> Outcome B) :
  only_type_error o -> (forall a, only_type_error (k a)) ->
  only_type_error (obind o k).
Proof.
  intros Ho Hk. destruct o as [a|e]; simpl; [apply Hk|].
  intros e' H. injection H as <-. apply Ho. reflexivity.
Qed.

Lemma unwrapTSNode_ote node : only_type_error (unwrapTSNode node).
Proof.
  induction node as [node IH] using Node_ind.
  destruct node as [u t a b at_ ks]. cbn [unwrapTSNode].
  destruct (includes TS_NODE_TYPES t); [|apply ote_done].
  change ks with (kids (mkNode u t a b at_ ks)).
  rewrite with_node_child.
  destruct (child _ "expression") as [c|] eqn:E; [|apply ote_throw].
  rewrite Forall_forall in IH. apply IH, list_elem_of_In.
  eapply child_in_children. exact E.
Qed.

Lemma member_base_ote node : only_type_error (member_base node).
Proof.
  induction node as [node IH] using Node_ind.
  destruct node as [u t a b at_ ks]. cbn [member_base].
  destruct (str_eq t "MemberExpression"); [|apply ote_done].
  change ks with (kids (mkNode u t a b at_ ks)).
  rewrite with_node_child.
  destruct (child _ "object") as [c|] eqn:E; [|apply ote_throw].
  rewrite Forall_forall in IH. apply IH, list_elem_of_In.
  eapply child_in_children. exact E.
Qed.

Lemma isCallOf_ote node test : only_type_error (isCallOf node test).
Proof.
  unfold isCallOf. destruct (_ && _); [|apply ote_done].
  apply ote_obind; [apply ote_deref|intros c; apply ote_done].
Qed.

Lemma extractIdentifiers_ote_fields node :
  only_type_error (extractIdentifiers node)
  /\ forall key,
       only_type_error
         (with_node (kids node) key extractIdentifiers (Throw TypeError)).
Proof.
  induction node as [node IH] using Node_ind.
  rewrite Forall_forall in IH.
  assert (forall key,
            only_type_error
              (with_node (kids node) key extractIdentifiers (Throw TypeError)))
    as Hfield.
  { intros key. rewrite with_node_child.
    destruct (child node key) as [c|] eqn:E; [|apply ote_throw].
    apply IH, list_elem_of_In. eapply child_in_children. exact E. }
  split; [|exact Hfield].
  destruct node as [u t a b at_ ks]. cbn [extractIdentifiers].
  set (node := mkNode u t a b at_ ks) in *.
  change ks with (kids node).
  destruct (str_eq t "Identifier"); [apply ote_done|].
  destruct (str_eq t "MemberExpression").
  { apply ote_obind; [apply member_base_ote|intros ?; apply ote_done]. }
  destruct (str_eq t "ObjectPattern").
  { rewrite with_list_elems.
    destruct (elems node "properties") as [l|] eqn:E; [|apply ote_throw].
    assert (forall c, In (Some c) l -> In c (children node)) as Hl
      by (intros c; eapply elems_in_children; exact E).
    clear E. induction l as [|[prop|] l IHl]; [apply ote_done| |apply ote_throw].
    apply ote_obind.
    - assert (In prop (children node)) as Hp by (apply Hl; left; reflexivity).
      apply list_elem_of_In, IH in Hp. destruct Hp as [_ Hp].
      destruct (str_eq (type prop) "RestElement"); apply Hp.
    - intros ids. apply ote_obind; [|intros ?; apply ote_done].
      apply IHl. intros c Hc. apply Hl. right. exact Hc. }
  destruct (str_eq t "ArrayPattern").
  { rewrite with_list_elems.
    destruct (elems node "elements") as [l|] eqn:E; [|apply ote_throw].
    assert (forall c, In (Some c) l -> In c (children node)) as Hl
      by (intros c; eapply elems_in_children; exact E).
    clear E. induction l as [|[element|] l IHl]; [apply ote_done| |].
    - apply ote_obind.
      + apply IH, list_elem_of_In, Hl. left. reflexivity.
      + intros ids. apply ote_obind; [|intros ?; apply ote_done].
        apply IHl. intros c Hc. apply Hl. right. exact Hc.
    - apply IHl. intros c Hc. apply Hl. right. exact Hc. }
  destruct (str_eq t "RestElement"); [apply Hfield|].
  destruct (str_eq t "AssignmentPattern"); [apply Hfield|].
  apply ote_done.
Qed.

Lemma extractIdentifiers_ote node : only_type_error (extractIdentifiers node).
Proof. apply extractIdentifiers_ote_fields. Qed.

Ltac ote_tac :=
  repeat first
    [ apply ote_done | apply ote_throw | apply ote_deref
    | apply unwrapTSNode_ote | apply isCallOf_ote
    | apply extractIdentifiers_ote
    | apply ote_obind; [|intros ?]
    | match goal with
      | |- only_type_error (if ?b then _ else _) => destruct b
      | |- only_type_error (match ?o with Some _ => _ | None => _ end) =>
          destruct o
      end ].

(** ** What the steps of the pass can throw *)

Lemma scoped_ret {A : Type} (a : A) : scoped (ret a).
Proof. intros st o st' Hs H. inversion H; subst. split; [exact Hs|discriminate]. Qed.

Lemma scoped_throw {A : Type} : scoped (@throw A TypeError).
Proof.
  intros st o st' Hs H. inversion H; subst. split; [exact Hs|].
  intros e He. injection He as <-. reflexivity.
Qed.

Lemma scoped_lift {A : Type} (o : Outcome A) :
  only_type_error o -> scoped (lift o).
Proof.
  intros Ho st o' st' Hs H. inversion H; subst. split; [exact Hs|].
  intros e He. apply Ho, He.
Qed.

Lemma scoped_bind {A B : Type} (m : M A) (k : A -> M B) :
  scoped m -> (forall a, scoped (k a)) -> scoped (bind m k).
Proof.
  intros Hm Hk st o st' Hs H.
  apply bind_inv in H as [(a & st1 & H1 & H2)|(e & -> & H1)].
  - destruct (Hm _ _ _ Hs H1) as [Hs1 _]. exact (Hk _ _ _ _ Hs1 H2).
  - destruct (Hm _ _ _ Hs H1) as [Hs1 He]. split; [exact Hs1|].
    intros e' E. injection E as <-. apply He. reflexivity.
Qed.

Lemma scoped_for_of xs body :
  (forall x, scoped (body x)) -> scoped (for_of xs body).
Proof.
  intros Hb. induction xs as [|[x|] xs IH]; simpl.
  - apply scoped_ret.
  - apply scoped_bind; [apply Hb|intros _; exact IH].
  - apply scoped_throw.
Qed.

Lemma scoped_for_ids ids body :
  (forall x, scoped (body x)) -> scoped (for_ids ids body).
Proof.
  intros Hb. induction ids as [|x xs IH]; simpl.
  - apply scoped_ret.
  - apply scoped_bind; [apply Hb|intros _; exact IH].
Qed.

Lemma excludedIds_add_scoped id : scoped (excludedIds_add id).
Proof.
  intros st o st' Hs H. inversion H; subst. split; [exact Hs|discriminate].
Qed.

Ltac scoped_step :=
  first
    [ apply scoped_ret
    | apply scoped_throw
    | apply excludedIds_add_scoped
    | apply scoped_lift; solve [ote_tac]
    | apply scoped_for_of; intros ?
    | apply scoped_for_ids; intros ?
    | apply scoped_bind; [|intros ?]
    | match goal with
      | |- scoped (if ?b then _ else _) => destruct b
      | |- scoped (match ?o with Some _ => _ | None => _ end) => destruct o
      end ].

(** With a current scope, [registerLocalBinding] does not reach its error
    branch. *)
Lemma registerLocalBinding_scoped id : scoped (registerLocalBinding id).
Proof.
  unfold registerLocalBinding. apply scoped_bind.
  - apply excludedIds_add_scoped.
  - intros _ st o st' Hs H.
    destruct (scopeStack st) as [|F r] eqn:E; [contradiction|].
    inversion H; subst. split; discriminate.
Qed.

Lemma walkVariableDeclaration_scoped stmt isRoot :
  scoped (walkVariableDeclaration stmt isRoot).
Proof.
  unfold walkVariableDeclaration.
  repeat first [ apply registerLocalBinding_scoped | scoped_step ].
Qed.

Lemma walkScope_scoped node isRoot : scoped (walkScope node isRoot).
Proof.
  unfold walkScope.
  repeat first
    [ apply registerLocalBinding_scoped
    | apply walkVariableDeclaration_scoped
    | scoped_step ].
Qed.

Lemma walkFunctionParams_scoped node :
  scoped (walkFunctionParams node registerLocalBinding).
Proof.
  unfold walkFunctionParams.
  repeat first [ apply registerLocalBinding_scoped | scoped_step ].
Qed.

Ltac scoped_tac :=
  repeat first
    [ apply walkFunctionParams_scoped | apply walkScope_scoped
    | apply registerLocalBinding_scoped | scoped_step ].

Section Throws.

Context {A : Type} (P : Exn -> Prop).

Lemma throws_only_ret (a : A) : throws_only P (ret a).
Proof. intros st o st' H. inversion H; subst. discriminate. Qed.

Lemma throws_only_lift (o : Outcome A) :
  P TypeError -> only_type_error o -> throws_only P (lift o).
Proof.
  intros HP Ho st o' st' H. inversion H; subst.
  intros e He. rewrite (Ho e He). exact HP.
Qed.

Lemma throws_only_error d : P (Diag d) -> throws_only P (@error A d).
Proof.
  intros Hd st o st' H. inversion H; subst.
  intros e He. injection He as <-. exact Hd.
Qed.

Lemma throws_only_bind {B : Type} (m : M B) (k : B -> M A) :
  throws_only P m -> (forall a, throws_only P (k a)) ->
  throws_only P (bind m k).
Proof.
  intros Hm Hk st o st' H.
  apply bind_inv in H as [(a & st1 & H1 & H2)|(e & -> & H1)].
  - exact (Hk _ _ _ _ H2).
  - intros e' E. injection E as <-. eapply Hm; [exact H1|reflexivity].
Qed.

(** In a frame just opened, the collection of declarations can only fail
    by dereferencing [undefined]. *)
Lemma throws_only_opened (m : M A) :
  P TypeError -> scoped m -> throws_only P (push_scope ;; m).
Proof.
  intros HP Hm st o st' H e He. unfold bind, push_scope in H.
  assert (e = TypeError) as ->; [|exact HP].
  eapply Hm; [|exact H|exact He]. simpl. discriminate.
Qed.

Lemma throws_only_total (m : M A) :
  (forall st, exists a st', m st = (Done a, st')) -> throws_only P m.
Proof.
  intros Hm st o st' H e ->. destruct (Hm st) as (a & st1 & E). congruence.
Qed.

End Throws.

Ltac throws_step :=
  first
    [ apply throws_only_ret
    | apply throws_only_lift; [assumption|solve [ote_tac]]
    | apply throws_only_bind; [|intros ?]
    | match goal with
      | |- throws_only _ (if ?b then _ else _) => destruct b
      | |- throws_only _ (match ?o with Some _ => _ | None => _ end) =>
          destruct o
      end ].

Lemma record_throws P e : throws_only P (record e).
Proof. apply throws_only_total. intros st. eexists _, _. reflexivity. Qed.

(** [checkUsage] throws the tracking misuse, on a matched call whose first
    argument unwraps to an identifier, or fails on [undefined]. *)
Lemma checkUsage_throws (P : Exn -> Prop) node method alias :
  P TypeError ->
  (forall arg0 rest arg,
      isCallOf node (default method alias) = Done true ->
      elems node "arguments" = Some (Some arg0 :: rest) ->
      unwrapTSNode arg0 = Done arg ->
      type arg = "Identifier" ->
      P (Diag (ReactivityTrackingMisuse method arg))) ->
  throws_only P (checkUsage node method alias).
Proof.
  intros HT HM st o st' H e ->.
  unfold checkUsage, bind, lift, error, throw, ret in H. cbv zeta in H.
  destruct (isCallOf node (default method alias)) as [[|]|e0] eqn:Hc.
  - destruct (elems node "arguments") as [[|[arg0|] rest]|] eqn:Ha;
      cbn [deref obind head mjoin option_join option_bind] in H;
      try (injection H as <- _; exact HT).
    destruct (unwrapTSNode arg0) as [arg|e1] eqn:Hu; cbn [obind] in H.
    + destruct (str_eq (type arg) "Identifier") eqn:Et; [|discriminate].
      injection H as <- _. eapply HM; try eassumption; try reflexivity.
      apply str_eq_true. exact Et.
    + injection H as <- _. rewrite (unwrapTSNode_ote _ _ Hu). exact HT.
  - discriminate.
  - injection H as <- _. rewrite (isCallOf_ote _ _ _ Hc). exact HT.
Qed.

Section Calm.

Variable offset : Z.
Variable propsLocalToPublicMap : gmap string string.
Variable vueImportAliases : gmap string string.
Variable genPropsAccessExp : string -> string.

Local Abbreviation enter :=
  (enter offset propsLocalToPublicMap vueImportAliases genPropsAccessExp).
Local Abbreviation visit :=
  (visit offset propsLocalToPublicMap vueImportAliases genPropsAccessExp).
Local Abbreviation visit_all :=
  (visit_all offset propsLocalToPublicMap vueImportAliases genPropsAccessExp).
Local Abbreviation Entered :=
  (Entered offset propsLocalToPublicMap vueImportAliases genPropsAccessExp).
Local Abbreviation rewrite_in :=
  (rewrite_in offset propsLocalToPublicMap genPropsAccessExp).
Local Abbreviation rewriteId :=
  (rewriteId offset propsLocalToPublicMap genPropsAccessExp).

Lemma rewriteId_throws (P : Exn -> Prop) scope id parent stack :
  P TypeError -> P (Diag (ReadonlyViolation id)) ->
  throws_only P (rewriteId scope id parent stack).
Proof.
  intros HT HR. unfold_rewriteId.
  repeat first
    [ apply record_throws | apply throws_only_error; exact HR | throws_step ].
Qed.

Lemma rewrite_in_throws (P : Exn -> Prop) scopes id parent stack :
  P TypeError -> P (Diag (ReadonlyViolation id)) ->
  throws_only P (rewrite_in scopes id parent stack).
Proof.
  intros HT HR. induction scopes as [|scope outer IH]; simpl.
  - apply throws_only_ret.
  - apply throws_only_bind; [apply rewriteId_throws; assumption|].
    intros [|]; [apply throws_only_ret|exact IH].
Qed.

(** What [enter] can throw: the tracking misuse, on a call of [watch] or
    [toRef] with an identifier for first argument; the read-only violation,
    on the identifier entered; and the failure on [undefined]. *)
Lemma enter_throws (P : Exn -> Prop) node parent :
  P TypeError ->
  (forall method arg,
      tracking_misuse vueImportAliases node method arg ->
      P (Diag (ReactivityTrackingMisuse method arg))) ->
  (type node = "Identifier" -> P (Diag (ReadonlyViolation node))) ->
  throws_only P (enter node parent).
Proof.
  intros HT HM HR. unfold_enter.
  apply throws_only_bind.
  { apply throws_only_total. intros st.
    destruct parent; eexists _, _; reflexivity. }
  intros _.
  destruct (match parent with Some p => is_type_parent p | None => false end);
    [apply throws_only_ret|].
  apply throws_only_bind.
  { apply checkUsage_throws; [exact HT|]. intros arg0 rest arg Hc Ha Hu Ht.
    apply HM. split; [left; reflexivity|]. split; [exact Hc|]. eauto. }
  intros _.
  apply throws_only_bind.
  { apply checkUsage_throws; [exact HT|]. intros arg0 rest arg Hc Ha Hu Ht.
    apply HM. split; [right; reflexivity|]. split; [exact Hc|]. eauto. }
  intros _.
  destruct (isFunctionType node).
  { apply throws_only_opened; [exact HT|]. scoped_tac. }
  destruct (str_eq (type node) "CatchClause").
  { apply throws_only_opened; [exact HT|]. scoped_tac. }
  apply throws_only_bind; [apply throws_only_lift; [exact HT|ote_tac]|].
  intros in_function.
  destruct (_ && _).
  { apply throws_only_opened; [exact HT|]. scoped_tac. }
  destruct (str_eq (type node) "Identifier") eqn:Et; [|apply throws_only_ret].
  apply str_eq_true in Et.
  apply throws_only_bind; [|intros _; apply throws_only_ret].
  intros st o st' H. destruct (_ && _) in H.
  - eapply rewrite_in_throws; [exact HT|exact (HR Et)|exact H].
  - inversion H; subst. discriminate.
Qed.

Lemma leave_throws (P : Exn -> Prop) node parent :
  P TypeError -> throws_only P (leave node parent).
Proof.
  intros HT. unfold leave.
  apply throws_only_bind.
  { apply throws_only_total. intros st.
    destruct parent; eexists _, _; reflexivity. }
  intros _.
  apply throws_only_bind; [apply throws_only_lift; [exact HT|ote_tac]|].
  intros b.
  apply throws_only_total. intros st. destruct (_ || _); eexists _, _; reflexivity.
Qed.

(** What a visit throws was thrown by a call of [enter] made in its course,
    or is the failure of [leave] on [undefined]. *)
Lemma visit_throw_entered node :
  forall parent st e stf,
    visit node parent st = (Throw e, stf) ->
    e = TypeError
    \/ exists n' p' st',
         Entered node parent st n' p' st'
         /\ enter n' p' st' = (Throw e, stf).
Proof.
  induction node as [node IH] using Node_ind.
  intros parent st e stf H. rewrite visit_eq in H.
  apply bind_inv in H as [(signal & st1 & He & H)|(e' & E & He)].
  2:{ injection E as <-. right. exists node, parent, st.
      split; [apply Entered_here|exact He]. }
  destruct signal; [|discriminate].
  apply bind_inv in H as [([] & st2 & Hv & Hl)|(e' & E & Hv)].
  { left. eapply (leave_throws (fun e => e = TypeError));
      [reflexivity|exact Hl|reflexivity]. }
  injection E as <-.
  assert (forall pre post st2,
             children node = (pre ++ post)%list ->
             visit_all pre (Some node) st1 = (Done tt, st2) ->
             visit_all post (Some node) st2 = (Throw e, stf) ->
             e = TypeError
             \/ exists n' p' st',
                  Entered node parent st n' p' st'
                  /\ enter n' p' st' = (Throw e, stf)) as Hkids.
  { intros pre post. revert pre.
    induction post as [|c post IHpost]; intros pre st2 Hc Hpre Hpost.
    - discriminate.
    - simpl in Hpost.
      apply bind_inv in Hpost as [([] & st2' & Hvc & Hrest)|(e' & E & Hvc)].
      + apply (IHpost (pre ++ [c])%list st2').
        * rewrite <- app_assoc. exact Hc.
        * rewrite visit_all_app. erewrite bind_done; [|exact Hpre].
          simpl. erewrite bind_done; [|exact Hvc]. reflexivity.
        * exact Hrest.
      + injection E as <-.
        rewrite Forall_forall in IH.
        assert (c ∈ children node) as Hin.
        { apply list_elem_of_In. rewrite Hc. apply in_or_app. right. left.
          reflexivity. }
        destruct (IH c Hin _ _ _ _ Hvc) as [->|(n' & p' & st' & HE & He')];
          [left; reflexivity|].
        right. exists n', p', st'. split; [|exact He'].
        eapply Entered_below; eassumption. }
  exact (Hkids [] (children node) st1 eq_refl eq_refl Hv).
Qed.

End Calm.

(** ** The edits and where they come from *)

Lemma log_not_grown st st' (e : Edit) :
  s st' = s st -> s st' = (s st ++ [e])%list -> False.
Proof.
  intros H1 H2. rewrite H1 in H2.
  apply (f_equal (@List.length Edit)) in H2. rewrite List.length_app in H2.
  simpl in H2. lia.
Qed.

Lemma log_last st (e e' : Edit) l :
  l = (s st ++ [e])%list -> l = (s st ++ [e'])%list -> e' = e.
Proof.
  intros -> H. apply app_inv_head in H. congruence.
Qed.

Lemma seed_scope_inv knownProps local :
  seed_scope knownProps !! local = Some true ->
  exists key,
    seed_map knownProps !! local = Some key /\ In (key, local) knownProps.
Proof.
  unfold seed_scope, seed_map.
  induction knownProps as [|[k l] r IH] using rev_ind; simpl.
  - rewrite lookup_empty. discriminate.
  - rewrite !fold_left_app. simpl.
    destruct (decide (l = local)) as [->|Hne].
    + intros _. exists k. rewrite lookup_insert_eq. split; [reflexivity|].
      apply in_or_app. right. left. reflexivity.
    + rewrite scope_set_lookup_ne, lookup_insert_ne by exact Hne. intros H.
      destruct (IH H) as (key & Hk & Hin). exists key. split; [exact Hk|].
      apply in_or_app. left. exact Hin.
Qed.

(** The root scope never owns the key [__proto__]. *)
Lemma seed_scope_proto knownProps :
  seed_scope knownProps !! "__proto__" = None.
Proof.
  unfold seed_scope.
  induction knownProps as [|[k l] r IH] using rev_ind; simpl.
  - apply lookup_empty.
  - rewrite fold_left_app. simpl. rewrite scope_set_proto. exact IH.
Qed.

Lemma resolve_app_prop L S x :
  Forall all_local L -> resolve x (L ++ S) = Some true ->
  resolve x S = Some true.
Proof.
  intros HL. induction HL as [|F L HF _ IH]; simpl; [auto|].
  destruct (F !! x) as [[|]|] eqn:E.
  - exfalso. exact (HF x E).
  - discriminate.
  - exact IH.
Qed.

Section Shape.

Variable offset : Z.
Variable propsLocalToPublicMap : gmap string string.
Variable vueImportAliases : gmap string string.
Variable genPropsAccessExp : string -> string.

Local Abbreviation enter :=
  (enter offset propsLocalToPublicMap vueImportAliases genPropsAccessExp).
Local Abbreviation visit :=
  (visit offset propsLocalToPublicMap vueImportAliases genPropsAccessExp).
Local Abbreviation Entered :=
  (Entered offset propsLocalToPublicMap vueImportAliases genPropsAccessExp).
Local Abbreviation rewrite_in :=
  (rewrite_in offset propsLocalToPublicMap genPropsAccessExp).
Local Abbreviation access :=
  (access propsLocalToPublicMap genPropsAccessExp).

(** An edit recorded by the loop over the frames: the name resolves to a
    prop binding, and the edit is one of the two of [rewriteId]. *)
Lemma rewrite_in_shape scopes id parent stack st o st' e :
  rewrite_in scopes id parent stack st = (o, st') ->
  s st' = (s st ++ [e])%list ->
  resolve (name id) scopes = Some true /\ edit_at offset id (access id) e.
Proof.
  intros H Hs.
  destruct (resolve (name id) scopes) as [[|]|] eqn:Hr.
  - split; [reflexivity|].
    destruct parent as [parent|].
    + rewrite (rewrite_in_prop _ _ _ _ _ _ _ _ Hr) in H.
      destruct (is_write_target parent id).
      { inversion H; subst. exfalso. eapply log_not_grown; [reflexivity|exact Hs]. }
      destruct (is_shorthand parent).
      * destruct (in_binding_pattern parent stack).
        { inversion H; subst. exfalso.
          eapply log_not_grown; [reflexivity|exact Hs]. }
        inversion H; subst. cbn [s] in Hs. right.
        eapply log_last; [reflexivity|exact Hs].
      * inversion H; subst. cbn [s] in Hs. left.
        eapply log_last; [reflexivity|exact Hs].
    + rewrite rewrite_in_resolve, Hr in H. revert H.
      unfold_rewriteId. rewrite lookup_singleton_eq.
      intros H. inversion H; subst. exfalso.
      eapply log_not_grown; [reflexivity|exact Hs].
  - rewrite rewrite_in_local in H by exact Hr. inversion H; subst.
    exfalso. eapply log_not_grown; [reflexivity|exact Hs].
  - rewrite rewrite_in_resolve, Hr in H. inversion H; subst.
    exfalso. eapply log_not_grown; [reflexivity|exact Hs].
Qed.

(** An edit recorded by [enter]: made at an identifier that is a reference,
    is not excluded, and whose name resolves to a prop binding. *)
Lemma enter_edit_shape node parent st o st1 e :
  enter node parent st = (o, st1) ->
  s st1 = (s st ++ [e])%list ->
  type node = "Identifier"
  /\ isReferencedIdentifier node parent
       (parentStack (entered_state parent st)) = true
  /\ excludedIds_has node st = false
  /\ resolve (name node) (scopeStack st) = Some true
  /\ edit_at offset node (access node) e.
Proof.
  intros H Hs.
  destruct (enter_one_edit _ _ _ _ _ _ _ _ _ H) as [Hn|[Ht _]].
  { exfalso. eapply log_not_grown; eassumption. }
  split; [exact Ht|].
  destruct (match parent with Some p => is_type_parent p | None => false end)
    eqn:Hp.
  { destruct parent as [p|]; [|discriminate].
    rewrite enter_skip in H by exact Hp. inversion H; subst.
    exfalso. eapply log_not_grown; [reflexivity|exact Hs]. }
  rewrite enter_Identifier in H; [|exact Ht|exact Hp].
  assert (exists o', (fun st0 =>
      if isReferencedIdentifier node parent (parentStack st0)
         && negb (excludedIds_has node st0)
      then rewrite_in (scopeStack st0) node parent (parentStack st0) st0
      else (Done tt, st0)) (entered_state parent st) = (o', st1)) as (o' & H').
  { apply bind_inv in H as [(a & st2 & H & Hr)|(e' & _ & H)].
    - inversion Hr; subst. eauto.
    - eauto. }
  clear H. cbn beta in H'.
  destruct (isReferencedIdentifier _ _ _) eqn:Er; simpl in H'.
  2:{ inversion H'; subst. exfalso.
      eapply log_not_grown; [reflexivity|exact Hs]. }
  change (excludedIds_has node (entered_state parent st))
    with (excludedIds_has node st) in H'.
  destruct (excludedIds_has node st) eqn:Ex; simpl in H'.
  { inversion H'; subst. exfalso.
    eapply log_not_grown; [reflexivity|exact Hs]. }
  split; [reflexivity|]. split; [reflexivity|].
  eapply rewrite_in_shape; [exact H'|exact Hs].
Qed.

Lemma Entered_within n p st n' p' st' :
  Entered n p st n' p' st' -> Within n' n.
Proof.
  induction 1 as [|n p st st1 pre c post st2 n' p' st' He Hc Hv _ IH].
  - apply Within_here.
  - eapply Within_below; [|exact IH].
    rewrite Hc. apply in_or_app. right. left. reflexivity.
Qed.

End Shape.

(** During the walk of the pass, a name that resolves to a prop binding is
    bound as a prop by the seeding of the root scope. *)
Lemma pass_resolve_seed ast s0 knownProps st1 offset vueImportAliases
    genPropsAccessExp n p st x :
  walkScope ast true (mkState [seed_scope knownProps] ∅ [] s0)
  = (Done tt, st1) ->
  Entered offset (seed_map knownProps) vueImportAliases genPropsAccessExp
          ast None st1 n p st ->
  resolve x (scopeStack st) = Some true ->
  seed_scope knownProps !! x = Some true.
Proof.
  intros Hw HE Hr.
  pose proof (walkScope_registers _ _ _ _ _ Hw) as (Hst & _).
  cbn [scopeStack] in Hst.
  destruct (scopeStack st1) as [|root [|? ?]] eqn:Es; simpl in Hst;
    try contradiction; [|destruct Hst as [_ Hst]; discriminate].
  destruct Hst as [[_ Hroot] _].
  pose proof (Entered_grows _ _ _ _ _ _ _ _ _ _ HE) as (L & EL & HL).
  rewrite EL, Es in Hr. apply resolve_app_prop in Hr; [|exact HL].
  simpl in Hr. destruct (root !! x) as [b|] eqn:Eb; [|discriminate].
  injection Hr as ->. apply Hroot. exact Eb.
Qed.

(** It is the local alias of a known prop. *)
Lemma pass_resolve_prop ast s0 knownProps st1 offset vueImportAliases
    genPropsAccessExp n p st x :
  walkScope ast true (mkState [seed_scope knownProps] ∅ [] s0)
  = (Done tt, st1) ->
  Entered offset (seed_map knownProps) vueImportAliases genPropsAccessExp
          ast None st1 n p st ->
  resolve x (scopeStack st) = Some true ->
  exists key, seed_map knownProps !! x = Some key /\ In (key, x) knownProps.
Proof.
  intros Hw HE Hr. apply seed_scope_inv.
  eapply pass_resolve_seed; eassumption.
Qed.

(** It is not [__proto__]. *)
Lemma pass_resolve_not_proto ast s0 knownProps st1 offset vueImportAliases
    genPropsAccessExp n p st x :
  walkScope ast true (mkState [seed_scope knownProps] ∅ [] s0)
  = (Done tt, st1) ->
  Entered offset (seed_map knownProps) vueImportAliases genPropsAccessExp
          ast None st1 n p st ->
  resolve x (scopeStack st) = Some true ->
  x <> "__proto__".
Proof.
  intros Hw HE Hr ->.
  pose proof (pass_resolve_seed _ _ _ _ _ _ _ _ _ _ _ Hw HE Hr) as H.
  rewrite seed_scope_proto in H. discriminate.
Qed.

(** Every edit of the pass is recorded by a call of [enter] made in the
    course of its walk. *)
Lemma pass_edits_entered ast s0 offset knownProps vueImportAliases
    genPropsAccessExp r log :
  transformDestructuredProps ast s0 offset knownProps vueImportAliases
                             genPropsAccessExp = (r, log) ->
  exists added,
    log = (s0 ++ added)%list
    /\ forall e, In e added ->
         exists st1 n' p' st' o' st'',
           walkScope ast true (mkState [seed_scope knownProps] ∅ [] s0)
           = (Done tt, st1)
           /\ Entered offset (seed_map knownProps) vueImportAliases
                      genPropsAccessExp ast None st1 n' p' st'
           /\ enter offset (seed_map knownProps) vueImportAliases
                    genPropsAccessExp n' p' st' = (o', st'')
           /\ s st'' = (s st' ++ [e])%list.
Proof.
  unfold transformDestructuredProps.
  destruct (bind _ _ _) as [r' stf] eqn:E. intros H. injection H as _ <-.
  apply bind_inv in E as [([] & st1 & Hw & Hv)|(e & _ & Hw)].
  2:{ apply walkScope_registers in Hw. destruct Hw as (_ & _ & _ & Hw).
      exists []. rewrite app_nil_r. split; [exact Hw|]. intros ? []. }
  pose proof (walkScope_registers _ _ _ _ _ Hw) as (_ & _ & _ & Hlog).
  cbn [s] in Hlog.
  unfold walk in Hv.
  destruct (visit_edits_entered _ _ _ _ _ _ _ _ _ Hv) as (added & Hs & Ha).
  exists added. split; [rewrite Hs, Hlog; reflexivity|].
  intros e Hin.
  destruct (Ha e Hin) as (n' & p' & st' & o' & st'' & HE & He & _ & Hs').
  exists st1, n', p', st', o', st''. auto.
Qed.

(** An error of the pass other than the failure on [undefined] was thrown
    by a call of [enter] made in the course of its walk. *)
Lemma pass_throw_entered ast s0 offset knownProps vueImportAliases
    genPropsAccessExp e log :
  transformDestructuredProps ast s0 offset knownProps vueImportAliases
                             genPropsAccessExp = (Throw e, log) ->
  e = TypeError
  \/ exists st1 n' p' st' st'',
       walkScope ast true (mkState [seed_scope knownProps] ∅ [] s0)
       = (Done tt, st1)
       /\ Entered offset (seed_map knownProps) vueImportAliases
                  genPropsAccessExp ast None st1 n' p' st'
       /\ enter offset (seed_map knownProps) vueImportAliases
                genPropsAccessExp n' p' st' = (Throw e, st'')
       /\ log = s st''.
Proof.
  unfold transformDestructuredProps.
  destruct (bind _ _ _) as [r' stf] eqn:E. intros H. injection H as -> <-.
  apply bind_inv in E as [([] & st1 & Hw & Hv)|(e' & E & Hw)].
  - unfold walk in Hv.
    apply visit_throw_entered in Hv as [->|(n' & p' & st' & HE & He)];
      [left; reflexivity|].
    right. exists st1, n', p', st', stf. auto.
  - injection E as <-. left.
    eapply (walkScope_scoped ast true); [|exact Hw|reflexivity].
    simpl. discriminate.
Qed.

Section Origins.

Variable offset : Z.
Variable propsLocalToPublicMap : gmap string string.
Variable vueImportAliases : gmap string string.
Variable genPropsAccessExp : string -> string.

Local Abbreviation enter :=
  (enter offset propsLocalToPublicMap vueImportAliases genPropsAccessExp).
Local Abbreviation Entered :=
  (Entered offset propsLocalToPublicMap vueImportAliases genPropsAccessExp).
Local Abbreviation rewrite_in :=
  (rewrite_in offset propsLocalToPublicMap genPropsAccessExp).

(** A node entered in the course of a visit is the node visited, or a child
    of a node of the tree, entered under that node as parent. *)
Lemma Entered_parent n p st n' p' st' :
  Entered n p st n' p' st' ->
  (n' = n /\ p' = p)
  \/ exists q, p' = Some q /\ Within q n /\ In n' (children q).
Proof.
  induction 1 as [|n p st st1 pre c post st2 n' p' st' He Hc Hv _ IH].
  - left. auto.
  - assert (In c (children n)) as Hin.
    { rewrite Hc. apply in_or_app. right. left. reflexivity. }
    right. destruct IH as [[-> ->]|(q & -> & Hq & Hn)].
    + exists n. split; [reflexivity|]. split; [apply Within_here|exact Hin].
    + exists q. split; [reflexivity|]. split; [|exact Hn].
      eapply Within_below; eassumption.
Qed.

(** The read-only violation is thrown on the identifier entered, when it is
    written to and its name resolves to a prop binding. *)
Lemma enter_readonly_inv node parent st id st' :
  enter node parent st = (Throw (Diag (ReadonlyViolation id)), st') ->
  id = node
  /\ type node = "Identifier"
  /\ excludedIds_has node st = false
  /\ resolve (name node) (scopeStack st) = Some true
  /\ exists p, parent = Some p /\ is_write_target p node = true.
Proof.
  intros H.
  destruct (str_eq (type node) "Identifier") eqn:Et.
  2:{ assert (throws_only
                (fun e => match e with
                          | Diag (ReadonlyViolation _) => False
                          | _ => True
                          end) (enter node parent)) as HT.
      { apply enter_throws.
        - exact I.
        - intros; exact I.
        - intros Ht. rewrite Ht in Et. discriminate. }
      destruct (HT _ _ _ H _ eq_refl). }
  apply str_eq_true in Et.
  destruct (match parent with Some p => is_type_parent p | None => false end)
    eqn:Hp.
  { destruct parent as [p|]; [|discriminate].
    rewrite enter_skip in H by exact Hp. discriminate. }
  rewrite enter_Identifier in H; [|exact Et|exact Hp].
  apply bind_inv in H as [(a & st2 & _ & H)|(e' & E & H)]; [discriminate|].
  injection E as <-. cbn beta in H.
  destruct (isReferencedIdentifier _ _ _); simpl in H; [|discriminate].
  change (excludedIds_has node (entered_state parent st))
    with (excludedIds_has node st) in H.
  destruct (excludedIds_has node st); simpl in H; [discriminate|].
  change (scopeStack (entered_state parent st)) with (scopeStack st) in H.
  destruct (resolve (name node) (scopeStack st)) as [[|]|] eqn:Hr.
  - destruct parent as [p|].
    + rewrite (rewrite_in_prop _ _ _ _ _ _ _ _ Hr) in H.
      destruct (is_write_target p node) eqn:Hw.
      * injection H as <- _. repeat split; eauto.
      * destruct (is_shorthand p); [destruct (in_binding_pattern _ _)|];
          discriminate.
    + rewrite rewrite_in_resolve, Hr in H. revert H.
      unfold_rewriteId. rewrite lookup_singleton_eq. discriminate.
  - rewrite rewrite_in_local in H by exact Hr. discriminate.
  - rewrite rewrite_in_resolve, Hr in H. discriminate.
Qed.

End Origins.

(** ** Collection of the declarations of a body *)

Ltac reduce_type_tests H :=
  cbn [str_eq String.eqb Ascii.eqb Bool.eqb orb andb negb] in H.

Lemma for_of_binds xs (f : Node -> M unit) x id st st' :
  (forall y, preserves registers (f y)) ->
  for_of xs f st = (Done tt, st') ->
  In (Some x) xs ->
  (forall st1 st2,
      f x st1 = (Done tt, st2) ->
      exists F outer, scopeStack st2 = F :: outer /\ F !! name id = Some false) ->
  exists F outer, scopeStack st' = F :: outer /\ F !! name id = Some false.
Proof.
  intros Hf H Hin Hx. revert st H.
  induction xs as [|[y|] r IH]; intros st H; [destruct Hin| |].
  - simpl in H. apply bind_done_inv in H as ([] & st1 & H1 & H2).
    destruct Hin as [Hy|Hin].
    + injection Hy as ->.
      destruct (Hx _ _ H1) as (F & outer & E & Hb).
      assert (registers st1 st') as Hreg.
      { eapply preserves_for_of; [typeclasses eauto|exact Hf|exact H2]. }
      destruct (registers_keeps_local _ _ _ _ _ Hreg E Hb) as (F' & E' & Hb').
      eauto.
    + eapply IH; eassumption.
  - simpl in H. discriminate.
Qed.

Lemma walkVariableDeclaration_binds stmt isRoot id st st' :
  name id <> "__proto__" ->
  walkVariableDeclaration stmt isRoot st = (Done tt, st') ->
  declaration_binds isRoot stmt id ->
  exists F outer, scopeStack st' = F :: outer /\ F !! name id = Some false.
Proof.
  unfold walkVariableDeclaration.
  intros Hname H (Hd & declarations & decl & Hds & Hin & Hp & target & ids
            & Ht & He & Hid).
  rewrite Hd, Hds in H. unfold bind at 1 in H. cbn [lift deref] in H.
  eapply for_of_binds; [|exact H|exact Hin|].
  - intros y. registers_tac. apply excludedIds_add_registers.
  - intros st1 st2 H1. unfold isDefineProps in Hp. cbn beta in H1.
    rewrite Hp, Ht in H1. cbn [deref obind] in H1. rewrite He in H1.
    unfold bind at 1 2 in H1. cbn [lift] in H1.
    eapply for_ids_binds; [exact Hname|exact H1|exact Hid].
Qed.

Lemma walkScope_body_registers isRoot stmt :
  preserves registers
    (if str_eq (type stmt) "VariableDeclaration" then
       walkVariableDeclaration stmt isRoot
     else if str_eq (type stmt) "FunctionDeclaration"
             || str_eq (type stmt) "ClassDeclaration" then
       match child stmt "id" with
       | Some id => if flag stmt "declare" then ret tt
                    else registerLocalBinding id
       | None => ret tt
       end
     else
       let! is_for_decl := lift
         (if str_eq (type stmt) "ForOfStatement"
             || str_eq (type stmt) "ForInStatement"
          then let? left := deref (child stmt "left") in
               Done (str_eq (type left) "VariableDeclaration")
          else Done false) in
       if is_for_decl : bool then
         let! left := lift (deref (child stmt "left")) in
         walkVariableDeclaration left false
       else if str_eq (type stmt) "ExportNamedDeclaration"
               && match child stmt "declaration" with
                  | Some d => str_eq (type d) "VariableDeclaration"
                  | None => false
                  end then
         let! declaration := lift (deref (child stmt "declaration")) in
         walkVariableDeclaration declaration isRoot
       else
         let! is_labeled_decl := lift
           (if str_eq (type stmt) "LabeledStatement"
            then let? body := deref (child stmt "body") in
                 Done (str_eq (type body) "VariableDeclaration")
            else Done false) in
         if is_labeled_decl : bool then
           let! body := lift (deref (child stmt "body")) in
           walkVariableDeclaration body isRoot
         else ret tt).
Proof.
  repeat first
    [ apply registerLocalBinding_registers
    | apply walkVariableDeclaration_registers
    | preserves_step ].
Qed.

(** Every declaration that stands directly in a body is bound as local in
    the current frame once the body has been collected. *)
Lemma walkScope_binds node isRoot body stmt id st st' :
  name id <> "__proto__" ->
  walkScope node isRoot st = (Done tt, st') ->
  elems node "body" = Some body ->
  In (Some stmt) body ->
  statement_binds isRoot stmt id ->
  exists F outer, scopeStack st' = F :: outer /\ F !! name id = Some false.
Proof.
  unfold walkScope. intros Hname H Hb Hin Hs.
  rewrite Hb in H. unfold bind at 1 in H. cbn [lift deref] in H.
  eapply for_of_binds; [|exact H|exact Hin|].
  { intros y. apply walkScope_body_registers. }
  clear H. intros st1 st2 H. cbn beta in H.
  destruct Hs as [(Ht & Hd)
                 |[(Ht & Hd & Hid)
                  |[(Ht & left & Hl & Htl & Hd)
                   |[(Ht & d & Hc & Htd & Hd)
                    |(Ht & b & Hc & Htb & Hd)]]]].
  - rewrite Ht in H. reduce_type_tests H.
    eapply walkVariableDeclaration_binds; eassumption.
  - assert (str_eq (type stmt) "VariableDeclaration" = false) as E1
      by (destruct Ht as [-> | ->]; reflexivity).
    assert (str_eq (type stmt) "FunctionDeclaration"
            || str_eq (type stmt) "ClassDeclaration" = true) as E2
      by (destruct Ht as [-> | ->]; reflexivity).
    rewrite E1, E2, Hid, Hd in H.
    apply registerLocalBinding_binds in H as (F & outer & E & Hx & _);
      [eauto|exact Hname].
  - assert (str_eq (type stmt) "VariableDeclaration" = false) as E1
      by (destruct Ht as [-> | ->]; reflexivity).
    assert (str_eq (type stmt) "FunctionDeclaration"
            || str_eq (type stmt) "ClassDeclaration" = false) as E2
      by (destruct Ht as [-> | ->]; reflexivity).
    assert (str_eq (type stmt) "ForOfStatement"
            || str_eq (type stmt) "ForInStatement" = true) as E3
      by (destruct Ht as [-> | ->]; reflexivity).
    rewrite E1, E2, E3, Hl in H. cbn [deref obind] in H. rewrite Htl in H.
    unfold bind at 1 in H. cbn [lift] in H.
    reduce_type_tests H.
    unfold bind at 1 in H. cbn [lift deref] in H.
    eapply walkVariableDeclaration_binds; eassumption.
  - rewrite Ht, Hc in H. cbv beta iota in H. rewrite Htd in H.
    reduce_type_tests H.
    unfold bind at 1 in H. cbn [lift] in H.
    unfold bind at 1 in H. cbn [lift deref] in H.
    eapply walkVariableDeclaration_binds; eassumption.
  - rewrite Ht, Hc in H. cbn [deref obind] in H. rewrite Htb in H.
    reduce_type_tests H.
    unfold bind at 1 in H. cbn [lift] in H.
    unfold bind at 1 in H. cbn [lift] in H.
    unfold bind at 1 in H. cbn [lift deref] in H.
    eapply walkVariableDeclaration_binds; eassumption.
Qed.

Lemma scope_body_pushes node parent b :
  scope_body node parent = Some b -> pushes node parent = true.
Proof.
  unfold scope_body, pushes.
  destruct (isFunctionType node); [reflexivity|].
  destruct (str_eq (type node) "CatchClause"); [reflexivity|].
  destruct (str_eq (type node) "BlockStatement" && outside_function parent);
    [reflexivity|discriminate].
Qed.

Section Hoist.

Variable offset : Z.
Variable propsLocalToPublicMap : gmap string string.
Variable vueImportAliases : gmap string string.
Variable genPropsAccessExp : string -> string.

Local Abbreviation enter :=
  (enter offset propsLocalToPublicMap vueImportAliases genPropsAccessExp).

(** When [enter] returns on a node that opens a scope, the frame it has
    opened binds as local what the statements of the body declare. *)
Lemma enter_binds_body node parent st st1 b body stmt id :
  name id <> "__proto__" ->
  enter node parent st = (Done Continue, st1) ->
  scope_body node parent = Some b ->
  elems b "body" = Some body ->
  In (Some stmt) body ->
  statement_binds false stmt id ->
  exists F outer, scopeStack st1 = F :: outer /\ F !! name id = Some false.
Proof.
  unfold_enter. unfold scope_body. intros Hname H Hb Hbody Hin Hs.
  apply bind_done_inv in H as (? & st0 & _ & H).
  destruct (match parent with Some p => is_type_parent p | None => false end);
    [discriminate|].
  apply bind_done_inv in H as (? & st' & Hc & H).
  apply checkUsage_eq in Hc. subst st'.
  apply bind_done_inv in H as (? & st' & Hc & H).
  apply checkUsage_eq in Hc. subst st'.
  destruct (isFunctionType node).
  { apply bind_done_inv in H as ([] & st2 & _ & H).
    apply bind_done_inv in H as ([] & st3 & _ & H).
    destruct (child node "body") as [b'|]; [|discriminate].
    unfold bind at 1 in H. cbn [lift deref] in H.
    destruct (str_eq (type b') "BlockStatement"); [|discriminate].
    injection Hb as ->.
    apply bind_done_inv in H as ([] & st4 & Hw & H).
    inversion H; subst.
    eapply walkScope_binds; eassumption. }
  destruct (str_eq (type node) "CatchClause").
  { apply bind_done_inv in H as ([] & st2 & _ & H).
    apply bind_done_inv in H as ([] & st3 & _ & H).
    rewrite Hb in H. unfold bind at 1 in H. cbn [lift deref] in H.
    apply bind_done_inv in H as ([] & st4 & Hw & H).
    inversion H; subst.
    eapply walkScope_binds; eassumption. }
  apply bind_done_inv in H as (in_function & st' & Hf & H).
  apply lift_inv in Hf as [Hf ->].
  assert (str_eq (type node) "BlockStatement" && outside_function parent
          = str_eq (type node) "BlockStatement" && negb in_function) as E.
  { destruct (str_eq (type node) "BlockStatement"); [|reflexivity].
    destruct parent as [p|]; simpl in Hf; [|discriminate].
    simpl. congruence. }
  rewrite E in Hb.
  destruct (str_eq (type node) "BlockStatement" && negb in_function);
    [|discriminate].
  injection Hb as ->.
  apply bind_done_inv in H as ([] & st2 & _ & H).
  apply bind_done_inv in H as ([] & st4 & Hw & H).
  inversion H; subst.
  eapply walkScope_binds; eassumption.
Qed.

(** On an identifier of the exclusion set, [enter] returns and leaves the
    log as it is. *)
Lemma enter_excluded_identifier id parent st :
  type id = "Identifier" ->
  excludedIds_has id st = true ->
  exists signal, enter id parent st = (Done signal, entered_state parent st).
Proof.
  intros Ht Hx.
  destruct (match parent with Some p => is_type_parent p | None => false end)
    eqn:Hp.
  - destruct parent as [p|]; [|discriminate].
    exists Skip. apply enter_skip. exact Hp.
  - exists Continue. rewrite enter_Identifier; [|exact Ht|exact Hp].
    unfold bind.
    change (excludedIds_has id (entered_state parent st))
      with (excludedIds_has id st).
    rewrite Hx, andb_false_r. reflexivity.
Qed.

End Hoist.

Lemma includes_false l x k :
  includes l x = false -> In k l -> str_eq x k = false.
Proof.
  unfold includes. intros H Hin.
  destruct (str_eq x k) eqn:E; [|reflexivity].
  rewrite <- H. symmetry. apply existsb_exists. eauto.
Qed.

(** A statement of another kind, or an ambient declaration: nothing is
    collected. *)
Lemma walkScope_other_statement stmt isRoot st :
  includes collected_kinds (type stmt) = false \/ ambient stmt ->
  (if str_eq (type stmt) "VariableDeclaration" then
       walkVariableDeclaration stmt isRoot
     else if str_eq (type stmt) "FunctionDeclaration"
             || str_eq (type stmt) "ClassDeclaration" then
       match child stmt "id" with
       | Some id => if flag stmt "declare" then ret tt
                    else registerLocalBinding id
       | None => ret tt
       end
     else
       let! is_for_decl := lift
         (if str_eq (type stmt) "ForOfStatement"
             || str_eq (type stmt) "ForInStatement"
          then let? left := deref (child stmt "left") in
               Done (str_eq (type left) "VariableDeclaration")
          else Done false) in
       if is_for_decl : bool then
         let! left := lift (deref (child stmt "left")) in
         walkVariableDeclaration left false
       else if str_eq (type stmt) "ExportNamedDeclaration"
               && match child stmt "declaration" with
                  | Some d => str_eq (type d) "VariableDeclaration"
                  | None => false
                  end then
         let! declaration := lift (deref (child stmt "declaration")) in
         walkVariableDeclaration declaration isRoot
       else
         let! is_labeled_decl := lift
           (if str_eq (type stmt) "LabeledStatement"
            then let? body := deref (child stmt "body") in
                 Done (str_eq (type body) "VariableDeclaration")
            else Done false) in
         if is_labeled_decl : bool then
           let! body := lift (deref (child stmt "body")) in
           walkVariableDeclaration body isRoot
         else ret tt) st = (Done tt, st).
Proof.
  intros [H|(Hd & [Ht|[Ht|Ht]])].
  - rewrite !(includes_false _ _ _ H) by (unfold collected_kinds; simpl; tauto).
    reflexivity.
  - rewrite Ht. cbn [str_eq String.eqb Ascii.eqb Bool.eqb].
    unfold walkVariableDeclaration. rewrite Hd. reflexivity.
  - rewrite Ht. cbn [str_eq String.eqb Ascii.eqb Bool.eqb orb].
    rewrite Hd. destruct (child stmt "id"); reflexivity.
  - rewrite Ht. cbn [str_eq String.eqb Ascii.eqb Bool.eqb orb].
    rewrite Hd. destruct (child stmt "id"); reflexivity.
Qed.

(** ** Exclusion without binding *)

#[local] Instance excludes_preorder : PreOrder excludes.
Proof.
  split.
  - intros st. repeat split; reflexivity.
  - intros a b c (H1 & H2 & H3 & H4) (K1 & K2 & K3 & K4). repeat split.
    + congruence.
    + congruence.
    + congruence.
    + etransitivity; eassumption.
Qed.

Lemma excludedIds_add_excludes id : preserves excludes (excludedIds_add id).
Proof.
  intros st o st' H. inversion H; subst; clear H.
  repeat split; simpl; try reflexivity. set_solver.
Qed.

Lemma for_ids_excluded ids id st st' :
  for_ids ids excludedIds_add st = (Done tt, st') ->
  In id ids ->
  uid id ∈ excludedIds st'.
Proof.
  revert st. induction ids as [|i r IH]; intros st H Hin; [destruct Hin|].
  simpl in H. apply bind_done_inv in H as ([] & st1 & H1 & H2).
  destruct Hin as [->|Hin].
  - assert (excludes st1 st') as (_ & _ & _ & Hsub).
    { eapply preserves_for_ids;
        [typeclasses eauto|intros; apply excludedIds_add_excludes|exact H2]. }
    apply Hsub. inversion H1; subst. simpl. set_solver.
  - eapply IH; eassumption.
Qed.

(** The body of the loop of [walkVariableDeclaration] on a declarator that
    destructures [defineProps()] at the root. *)
Lemma defineProps_declarator decl st :
  isDefineProps true decl = Done true ->
  (let! isDefineProps := lift
     (if true
      then match child decl "init" with
           | Some init =>
               let? e := unwrapTSNode init in isCallOf e "defineProps"
           | None => Done false
           end
      else Done false) in
   let! ids := lift (let? id := deref (child decl "id") in
                extractIdentifiers id) in
   for_ids ids (fun id =>
     if isDefineProps : bool
     then excludedIds_add id
     else registerLocalBinding id)) st
  = (let! ids := lift (let? id := deref (child decl "id") in
                  extractIdentifiers id) in
     for_ids ids excludedIds_add) st.
Proof.
  unfold isDefineProps. intros Hp.
  unfold bind at 1. unfold lift at 1. rewrite Hp. reflexivity.
Qed.

Lemma defineProps_declarator_excludes decl :
  preserves excludes
    (let! ids := lift (let? id := deref (child decl "id") in
                  extractIdentifiers id) in
     for_ids ids excludedIds_add).
Proof.
  repeat first [ apply excludedIds_add_excludes | preserves_step ].
Qed.

(** ** Counting what a visit leaves behind *)

Lemma calls_eq parent node :
  calls parent node =
  (node, parent) ::
  if skipped parent then []
  else flat_map (calls (Some node)) (children node).
Proof.
  destruct node as [u t a b at_ ks]. cbn [calls]. f_equal.
  destruct (skipped parent); [reflexivity|].
  unfold children. cbn [kids].
  generalize (mkNode u t a b at_ ks) as node. intros node.
  induction ks as [|[key [c|l]] ks IH]; cbn [flat_map kid_nodes snd app].
  - reflexivity.
  - rewrite IH. reflexivity.
  - rewrite flat_map_app, <- IH. f_equal.
    induction l as [|[c|] l IHl]; cbn; [reflexivity| |exact IHl].
    rewrite IHl. reflexivity.
Qed.

Lemma count_flat_map {A B : Type} (f : B -> bool) (g : A -> list B) l :
  List.length (List.filter f (flat_map g l))
  = list_sum (map (fun x => List.length (List.filter f (g x))) l).
Proof.
  induction l as [|x l IH]; simpl; [reflexivity|].
  rewrite List.filter_app, List.length_app, IH. reflexivity.
Qed.

Lemma skipped_calls_eq parent node :
  skipped_calls parent node =
  if skipped parent then 1%nat
  else list_sum (map (skipped_calls (Some node)) (children node)).
Proof.
  unfold skipped_calls at 1. rewrite calls_eq. cbn [List.filter snd].
  destruct (skipped parent); [reflexivity|].
  apply count_flat_map.
Qed.

Lemma clause_calls_eq parent node :
  clause_calls parent node =
  if skipped parent then 0%nat
  else ((if str_eq (type node) "CatchClause" then 1 else 0)
        + list_sum (map (clause_calls (Some node)) (children node)))%nat.
Proof.
  unfold clause_calls at 1. rewrite calls_eq. cbn [List.filter snd fst].
  destruct (skipped parent); [reflexivity|]. cbn [negb andb].
  destruct (str_eq (type node) "CatchClause"); cbn [List.length];
    rewrite count_flat_map; reflexivity.
Qed.

Lemma grows_by_refl st : grows_by 0 st st.
Proof. exists []. repeat split; constructor. Qed.

Lemma grows_by_trans j k a b c :
  grows_by j a b -> grows_by k b c -> grows_by (j + k) a c.
Proof.
  intros (L & E & HL & Hj) (L' & E' & HL' & Hk). exists (L' ++ L)%list.
  split; [rewrite E', E; apply app_assoc|].
  split; [apply Forall_app; auto|].
  rewrite List.length_app. lia.
Qed.

Section Count.

Variable offset : Z.
Variable propsLocalToPublicMap : gmap string string.
Variable vueImportAliases : gmap string string.
Variable genPropsAccessExp : string -> string.

Local Abbreviation enter :=
  (enter offset propsLocalToPublicMap vueImportAliases genPropsAccessExp).
Local Abbreviation visit :=
  (visit offset propsLocalToPublicMap vueImportAliases genPropsAccessExp).
Local Abbreviation visit_all :=
  (visit_all offset propsLocalToPublicMap vueImportAliases genPropsAccessExp).

Lemma enter_continue_inv node parent st st1 :
  enter node parent st = (Done Continue, st1) -> skipped parent = false.
Proof.
  unfold_enter. unfold skipped. intros H.
  apply bind_done_inv in H as (? & st0 & _ & H).
  destruct (match parent with Some p => is_type_parent p | None => false end);
    [discriminate|reflexivity].
Qed.

(** The calls of [enter] made in the course of a visit are among [calls]. *)
Lemma Entered_in_calls n p st n' p' st' :
  Entered offset propsLocalToPublicMap vueImportAliases genPropsAccessExp
          n p st n' p' st' ->
  In (n', p') (calls p n).
Proof.
  induction 1 as [|n p st st1 pre c post st2 n' p' st' He Hc Hv _ IH];
    rewrite calls_eq.
  - left. reflexivity.
  - right. rewrite (enter_continue_inv _ _ _ _ He).
    apply in_flat_map. exists c. split; [|exact IH].
    rewrite Hc. apply in_or_app. right. left. reflexivity.
Qed.

Lemma visit_all_sum (f : State -> nat) (g : Node -> nat) nodes parent :
  Forall (fun c => forall st st',
            visit c parent st = (Done tt, st') ->
            f st' = (f st + g c)%nat) nodes ->
  forall st st',
    visit_all nodes parent st = (Done tt, st') ->
    f st' = (f st + list_sum (map g nodes))%nat.
Proof.
  intros Hc. induction Hc as [|c r Hc _ IH]; intros st st' H; simpl in H.
  - inversion H. simpl. lia.
  - apply bind_done_inv in H as ([] & st1 & H1 & H2).
    rewrite (IH _ _ H2), (Hc _ _ H1). simpl. lia.
Qed.

Lemma visit_all_grows_by (g : Node -> nat) nodes parent :
  Forall (fun c => forall st st',
            visit c parent st = (Done tt, st') ->
            grows_by (g c) st st') nodes ->
  forall st st',
    visit_all nodes parent st = (Done tt, st') ->
    grows_by (list_sum (map g nodes)) st st'.
Proof.
  intros Hc. induction Hc as [|c r Hc _ IH]; intros st st' H; simpl in H.
  - inversion H. apply grows_by_refl.
  - apply bind_done_inv in H as ([] & st1 & H1 & H2).
    simpl. eapply grows_by_trans; [eapply Hc; exact H1|eapply IH; exact H2].
Qed.

End Count.

(** * Properties of the pass *)

Section Claims.

Variable offset : Z.
Variable propsLocalToPublicMap : gmap string string.
Variable vueImportAliases : gmap string string.
Variable genPropsAccessExp : string -> string.

Local Abbreviation enter :=
  (enter offset propsLocalToPublicMap vueImportAliases genPropsAccessExp).
Local Abbreviation visit :=
  (visit offset propsLocalToPublicMap vueImportAliases genPropsAccessExp).
Local Abbreviation visit_all :=
  (visit_all offset propsLocalToPublicMap vueImportAliases genPropsAccessExp).
Local Abbreviation Entered :=
  (Entered offset propsLocalToPublicMap vueImportAliases genPropsAccessExp).
Local Abbreviation Inside :=
  (Inside offset propsLocalToPublicMap vueImportAliases genPropsAccessExp).
Local Abbreviation access :=
  (access propsLocalToPublicMap genPropsAccessExp).

(** ** References to props *)

(** X18. What the pass does rewrite.  Take an identifier that the pass
    enters under a parent that is no pure type node.  (a) If it is a
    reference (a referenced identifier, not written to, not in a marked
    binding pattern), is not in the exclusion set, and its name resolves
    through the scope stack of that moment to a prop binding, then [enter]
    records exactly one edit for it: the span of the identifier overwritten
    with (or, for the value of a shorthand property, [": "] and then
    inserted after it) the access expression of the public name that the
    map seeded from [knownProps] gives for the local name; and that edit is
    in the log the pass ends with.  (b) An identifier of the exclusion set,
    like any identifier that is not a reference, and (c) the key of a
    property that is not computed get no edit. *)
Theorem read_reference_rewritten knownProps key ast st0 id parent st o stf :
  propsLocalToPublicMap = seed_map knownProps ->
  Entered ast None st0 id (Some parent) st ->
  visit ast None st0 = (o, stf) ->
  type id = "Identifier" ->
  (is_type_parent parent = false ->
   isReferencedIdentifier id (Some parent) (parent :: parentStack st) = true ->
   is_write_target parent id = false ->
   is_shorthand parent && in_binding_pattern parent (parent :: parentStack st)
     = false ->
   excludedIds_has id st = false ->
   resolve (name id) (scopeStack st) = Some true ->
   In (key, name id) knownProps ->
   (forall key', In (key', name id) knownProps -> key' = key) ->
   let edit :=
     if is_shorthand parent
     then AppendLeft (nend id + offset) (": " ++ genPropsAccessExp key)
     else Overwrite (nstart id + offset) (nend id + offset)
                    (genPropsAccessExp key) in
   enter id (Some parent) st =
     (Done Continue,
      mkState (scopeStack st) (excludedIds st) (parent :: parentStack st)
              (s st ++ [edit])%list)
   /\ (s st ++ [edit])%list `prefix_of` s stf)
  /\ (excludedIds_has id st = true
      \/ isReferencedIdentifier id (Some parent) (parent :: parentStack st)
         = false ->
      exists signal,
        enter id (Some parent) st
        = (Done signal, entered_state (Some parent) st))
  /\ (isStaticProperty parent = true ->
      same (child parent "key") id = true ->
      exists signal,
        enter id (Some parent) st
        = (Done signal, entered_state (Some parent) st)).
Proof.
  intros Hmap HE Hvisit Ht.
  assert (is_type_parent parent = true ->
             exists signal,
               enter id (Some parent) st
               = (Done signal, entered_state (Some parent) st)) as Hskip.
  { intros Hp. exists Skip. apply enter_skip. exact Hp. }
  split; [|split].
  - intros Hp Href Hw Hb Hx Hr Hin Hu edit.
    assert (enter id (Some parent) st =
            (Done Continue,
             mkState (scopeStack st) (excludedIds st)
                     (parent :: parentStack st) (s st ++ [edit])%list)) as He.
    { rewrite enter_Identifier; [|exact Ht|exact Hp].
      unfold bind. cbn [entered_state parentStack scopeStack].
      rewrite Href.
      change (excludedIds_has id (entered_state (Some parent) st))
        with (excludedIds_has id st).
      rewrite Hx. cbn [negb andb].
      rewrite rewrite_in_prop; [|exact Hr]. rewrite Hw.
      unfold edit. unfold_access.
      rewrite Hmap, (seed_map_lookup _ _ _ Hin Hu). cbn [default].
      destruct (is_shorthand parent); [|reflexivity].
      cbn [andb] in Hb. rewrite Hb. reflexivity. }
    split; [exact He|].
    apply (Entered_log _ _ _ _ _ _ _ _ _ _ _ _ _ _ HE He Hvisit).
  - intros Hx.
    destruct (is_type_parent parent) eqn:Hp; [apply (Hskip eq_refl)|].
    exists Continue. rewrite enter_Identifier; [|exact Ht|exact Hp].
    unfold bind. cbn [entered_state parentStack].
    change (excludedIds_has id (entered_state (Some parent) st))
      with (excludedIds_has id st).
    destruct Hx as [Hx|Hx]; rewrite Hx; [rewrite andb_false_r|];
      reflexivity.
  - intros Hstatic Hkey.
    exists Continue.
    rewrite enter_Identifier;
      [|exact Ht|exact (static_property_not_type_parent _ Hstatic)].
    unfold bind. cbn [entered_state parentStack].
    rewrite static_key_not_referenced; [reflexivity|exact Hstatic|exact Hkey].
Qed.

(** ** Shadowing *)

(** C2. Let [x] be bound as local in the frame that is current once a node
    has been entered (the scope S of that node), whatever the frames
    outside it bind.  Then at every identifier named [x] that the walker
    enters below that node, in S or in a scope nested in S, the name
    resolves, innermost frame first, to a local binding, and [enter]
    returns without an edit and without an error; and every edit that the
    visit of the node adds to the log is made at an identifier whose name is
    not [x]. *)
Theorem local_binding_shadows n p st st1 F outer x :
  enter n p st = (Done Continue, st1) ->
  scopeStack st1 = F :: outer ->
  F !! x = Some false ->
  (forall n' p' st',
      Inside n p st n' p' st' ->
      type n' = "Identifier" ->
      name n' = x ->
      resolve x (scopeStack st') = Some false
      /\ exists signal, enter n' p' st' = (Done signal, entered_state p' st'))
  /\ (forall o stf,
        visit n p st = (o, stf) ->
        exists added,
          s stf = (s st ++ added)%list
          /\ forall e, In e added ->
               exists n' p' st' o' st'',
                 Entered n p st n' p' st'
                 /\ enter n' p' st' = (o', st'')
                 /\ type n' = "Identifier"
                 /\ name n' <> x
                 /\ s st'' = (s st' ++ [e])%list).
Proof.
  intros He Hs HF.
  assert (resolve x (scopeStack st1) = Some false) as Hx.
  { rewrite Hs. apply resolve_head. exact HF. }
  split.
  - intros n' p' st' Hin Ht Hn.
    assert (resolve x (scopeStack st') = Some false) as Hr.
    { eapply Inside_resolve_local; [exact He|exact Hx|exact Hin]. }
    split; [exact Hr|].
    apply enter_local_identifier; [exact Ht|]. rewrite Hn. exact Hr.
  - intros o stf Hv. eapply visit_edits_not_local; eassumption.
Qed.

(** ** Parameters *)


(** ** Type positions *)

(** C9. Below a parent whose kind starts with [TS] and is none of
    [TSAsExpression], [TSNonNullExpression], [TSTypeAssertion], a node is
    skipped with its whole subtree: the visit ends at once without an
    error, the walker enters nothing below the node, and the scope frames,
    the exclusion set and the edit log are what they were. *)
Theorem type_position_skipped node parent st :
  starts_with "TS" (type parent) = true ->
  str_eq (type parent) "TSAsExpression" = false ->
  str_eq (type parent) "TSNonNullExpression" = false ->
  str_eq (type parent) "TSTypeAssertion" = false ->
  exists st',
    visit node (Some parent) st = (Done tt, st')
    /\ scopeStack st' = scopeStack st
    /\ excludedIds st' = excludedIds st
    /\ s st' = s st
    /\ forall n' p' st'', ~ Inside node (Some parent) st n' p' st''.
Proof.
  intros Hts H1 H2 H3.
  assert (is_type_parent parent = true) as Hp.
  { unfold is_type_parent. rewrite Hts, H1, H2, H3. reflexivity. }
  pose proof (enter_skip offset propsLocalToPublicMap vueImportAliases
                genPropsAccessExp node parent st Hp) as He.
  exists (entered_state (Some parent) st). repeat split.
  - rewrite visit_eq. erewrite bind_done; [|exact He]. reflexivity.
  - intros n' p' st'' (st1 & pre & c & post & st2 & He' & _).
    rewrite He in He'. discriminate.
Qed.

(** ** Tracking calls *)

(** C10. On a call of a tracking function ([watch] or [toRef], under the
    name the alias table gives it) that has no argument, the check reads
    the absent first argument unguarded: [enter] ends in the runtime's
    [TypeError], not in a diagnostic and not in a skipped call, with the log
    as it was, and the pass ends there with that error. *)
Theorem tracking_call_without_argument node parent st method :
  method = "watch" \/ method = "toRef" ->
  isCallOf node (default method (vueImportAliases !! method)) = Done true ->
  elems node "arguments" = Some [] ->
  match parent with Some p => is_type_parent p | None => false end = false ->
  enter node parent st = (Throw TypeError, entered_state parent st)
  /\ forall ast st0,
       Entered ast None st0 node parent st ->
       visit ast None st0 = (Throw TypeError, entered_state parent st).
Proof.
  intros Hm Hcall Hargs Hp.
  assert (enter node parent st = (Throw TypeError, entered_state parent st))
    as He.
  { destruct st as [scopes excluded stack log].
    unfold_enter.
    erewrite bind_done
      with (st1 := entered_state parent (mkState scopes excluded stack log));
      [|destruct parent; reflexivity].
    rewrite Hp.
    destruct Hm as [-> | ->].
    - apply bind_throw. apply checkUsage_no_argument; assumption.
    - destruct (isCallOf_defined node _
                  (default "watch" (vueImportAliases !! "watch")) Hcall)
        as [[|] Hw].
      + apply bind_throw. apply checkUsage_no_argument; assumption.
      + erewrite bind_done; [|apply checkUsage_other; exact Hw].
        apply bind_throw. apply checkUsage_no_argument; assumption. }
  split; [exact He|].
  intros ast st0 HE. eapply Entered_throw; eassumption.
Qed.

(** ** Writes to props *)

(** C3 (amended). An identifier that resolves to a prop binding and is the
    left operand of an assignment expression, or the operand of an
    increment or decrement, is reported as [ReadonlyViolation] and gets no
    edit: [enter] throws with the log as it was, and the pass ends there
    with that error.  (The identifier is not the keyword [arguments] and is
    not in the exclusion set; identifiers inside a destructuring assignment
    target are not covered.) *)
Theorem write_to_prop_rejected id parent st :
  type id = "Identifier" ->
  str_eq (name id) "arguments" = false ->
  is_write_target parent id = true ->
  excludedIds_has id st = false ->
  resolve (name id) (scopeStack st) = Some true ->
  enter id (Some parent) st
  = (Throw (Diag (ReadonlyViolation id)), entered_state (Some parent) st)
  /\ forall ast st0,
       Entered ast None st0 id (Some parent) st ->
       visit ast None st0
       = (Throw (Diag (ReadonlyViolation id)), entered_state (Some parent) st).
Proof.
  intros Ht Hn Hw Hx Hr.
  assert (enter id (Some parent) st
          = (Throw (Diag (ReadonlyViolation id)),
             entered_state (Some parent) st)) as He.
  { rewrite enter_Identifier;
      [|exact Ht|exact (write_target_not_type_parent _ _ Hw)].
    apply bind_throw.
    rewrite write_target_referenced; [|exact Hn|exact Hw].
    change (excludedIds_has id (entered_state (Some parent) st))
      with (excludedIds_has id st).
    rewrite Hx. cbn [negb andb].
    rewrite rewrite_in_prop; [|exact Hr]. rewrite Hw. reflexivity. }
  split; [exact He|].
  intros ast st0 HE. eapply Entered_throw; eassumption.
Qed.

(** ** Shorthand properties *)

(** X19. What the pass does on the value of a shorthand property that is a
    reference to a prop binding: it makes one insertion, of [": "] and the
    access expression, right after the identifier, and no other edit, so the
    key stays; the insertion is in the log the pass ends with.  The
    insertion is left out exactly when the property node carries an
    [inPattern] mark and is not inside the target of a destructuring
    assignment; the pass itself never sets that mark. *)
Theorem shorthand_value_augmented id parent st :
  type id = "Identifier" ->
  is_shorthand parent = true ->
  isReferencedIdentifier id (Some parent) (parent :: parentStack st) = true ->
  excludedIds_has id st = false ->
  resolve (name id) (scopeStack st) = Some true ->
  let log :=
    if in_binding_pattern parent (parent :: parentStack st)
    then s st
    else (s st ++ [AppendLeft (nend id + offset) (": " ++ access id)])%list in
  enter id (Some parent) st =
  (Done Continue,
   mkState (scopeStack st) (excludedIds st) (parent :: parentStack st) log)
  /\ forall ast st0 o stf,
       Entered ast None st0 id (Some parent) st ->
       visit ast None st0 = (o, stf) ->
       log `prefix_of` s stf.
Proof.
  intros Ht Hs Href Hx Hr log.
  assert (isStaticProperty parent = true) as Hstatic.
  { unfold is_shorthand in Hs. apply andb_true_iff in Hs. apply Hs. }
  assert (enter id (Some parent) st =
          (Done Continue,
           mkState (scopeStack st) (excludedIds st)
                   (parent :: parentStack st) log)) as He.
  { rewrite enter_Identifier;
      [|exact Ht|exact (static_property_not_type_parent _ Hstatic)].
    unfold bind. cbn [entered_state parentStack scopeStack].
    rewrite Href.
    change (excludedIds_has id (entered_state (Some parent) st))
      with (excludedIds_has id st).
    rewrite Hx. cbn [negb andb].
    rewrite rewrite_in_prop; [|exact Hr].
    rewrite (static_property_not_write_target _ id Hstatic), Hs.
    unfold log.
    destruct (in_binding_pattern parent (parent :: parentStack st));
      reflexivity. }
  split; [exact He|].
  intros ast st0 o stf HE Hvisit.
  apply (Entered_log _ _ _ _ _ _ _ _ _ _ _ _ _ _ HE He Hvisit).
Qed.

End Claims.

(** ** Errors and the edit log *)

(** C8 (amended). The pass fails fast but does not roll back.  The log it is
    given is only ever appended to, whether the pass completes (and then
    holds the full edit log) or ends in an error; and when [enter] throws
    (the read-only violation, the tracking misuse, the missing scope), the
    pass ends with that very error and with the log of that moment: nothing
    is recorded after the violation, and what was recorded before it stays
    in the caller's log. *)
Theorem pass_fails_fast ast s0 offset knownProps vueImportAliases
    genPropsAccessExp :
  (forall r log,
      transformDestructuredProps ast s0 offset knownProps vueImportAliases
                                 genPropsAccessExp = (r, log) ->
      s0 `prefix_of` log)
  /\ (forall st1 n p st e st',
         walkScope ast true (mkState [seed_scope knownProps] ∅ [] s0)
         = (Done tt, st1) ->
         Entered offset (seed_map knownProps) vueImportAliases
                 genPropsAccessExp ast None st1 n p st ->
         enter offset (seed_map knownProps) vueImportAliases
               genPropsAccessExp n p st = (Throw e, st') ->
         transformDestructuredProps ast s0 offset knownProps vueImportAliases
                                    genPropsAccessExp = (Throw e, s st')
         /\ s0 `prefix_of` s st
         /\ s st `prefix_of` s st').
Proof.
  split.
  - intros r log. unfold transformDestructuredProps.
    destruct (bind _ _ _) as [r' st] eqn:E. intros H. injection H as _ <-.
    change (log_ext (mkState [seed_scope knownProps] ∅ [] s0) st).
    revert E. apply (preserves_bind log_ext).
    + apply (preserves_weaken registers); [exact registers_log|].
      apply walkScope_registers.
    + intros _. apply visit_log.
  - intros st1 n p st e st' Hw HE Hthrow. split; [|split].
    + unfold transformDestructuredProps.
      erewrite bind_done; [|exact Hw].
      unfold walk.
      erewrite Entered_throw; [reflexivity|exact HE|exact Hthrow].
    + apply walkScope_registers in Hw. destruct Hw as (_ & _ & _ & Hw).
      cbn [s] in Hw. rewrite <- Hw.
      clear Hw Hthrow st' e.
      change (log_ext st1 st).
      induction HE as [|n p st st1 pre c post st2 n' p' st' He Hc Hv _ IH].
      * reflexivity.
      * transitivity st1; [eapply enter_log; exact He|].
        transitivity st2; [eapply visit_all_log; exact Hv|exact IH].
    + eapply enter_log. exact Hthrow.
Qed.

(** * Worked examples *)

(** The scenario of the specification: the parameter [count] shadows the
    prop inside the function only, and [aliasedLabel] is read under its
    public name [label]. *)
Example scenario :
  transformDestructuredProps scenario_program [] 0
    [("count", "count"); ("label", "aliasedLabel")] ∅ dot_access
  = (Done tt, [Overwrite 28 33 "__props.count"; Overwrite 35 47 "__props.label"]).
Proof. vm_compute. reflexivity. Qed.

(** [__proto__;] with a prop whose local alias is [__proto__]: the root
    scope stores no such key, and the identifier is left alone. *)
Example proto_alias_not_bound :
  transformDestructuredProps proto_program [] 0
    [("__proto__", "__proto__")] ∅ dot_access
  = (Done tt, []).
Proof. vm_compute. reflexivity. Qed.

(** Builds, on a sample tree, the step of [Entered] that goes into the child
    [c] standing between [pre] and [post]. *)
Ltac into pre c post :=
  eapply (Entered_below _ _ _ _ _ _ _ _ pre c post);
    [vm_compute; reflexivity|reflexivity|vm_compute; reflexivity|].

(** [x;] with the prop [x]: the read is overwritten. *)
Lemma read_reference_rewritten_witness :
  let st := mkState [seed_scope [("x", "x")]] ∅ [read_program] [] in
  enter 0 (seed_map [("x", "x")]) ∅ dot_access read_x (Some read_stmt) st
  = (Done Continue,
     mkState [seed_scope [("x", "x")]] ∅ [read_stmt; read_program]
             [Overwrite 0 1 "__props.x"])
  /\ [Overwrite 0 1 "__props.x"] `prefix_of` [Overwrite 0 1 "__props.x"].
Proof.
  refine (proj1 (read_reference_rewritten 0 (seed_map [("x", "x")]) ∅ dot_access
            [("x", "x")] "x" read_program (state0 [("x", "x")])
            read_x read_stmt
            (mkState [seed_scope [("x", "x")]] ∅ [read_program] [])
            (Done tt)
            (mkState [seed_scope [("x", "x")]] ∅ [] [Overwrite 0 1 "__props.x"])
            eq_refl _ _ eq_refl)
          eq_refl eq_refl eq_refl eq_refl eq_refl eq_refl _ _).
  - into (@nil Node) read_stmt (@nil Node).
    into (@nil Node) read_x (@nil Node).
    apply Entered_here.
  - vm_compute. reflexivity.
  - left. reflexivity.
  - intros key' [H|[]]. injection H as <-. reflexivity.
Defined.

(** [function f(x) { x }] with the prop [x]: the [x] of the body is the
    parameter. *)
Lemma local_binding_shadows_witness :
  resolve "x" [{[ "x" := false ]}; seed_scope [("x", "x")]] = Some false
  /\ exists signal,
       enter 0 (seed_map [("x", "x")]) ∅ dot_access shadow_use (Some shadow_stmt)
             (mkState [{[ "x" := false ]}; seed_scope [("x", "x")]]
                      {[ 3%nat ]} [shadow_body; shadow_function; shadow_program] [])
       = (Done signal,
          mkState [{[ "x" := false ]}; seed_scope [("x", "x")]]
                  {[ 3%nat ]}
                  [shadow_stmt; shadow_body; shadow_function; shadow_program] []).
Proof.
  refine (proj1 (local_binding_shadows 0 (seed_map [("x", "x")]) ∅ dot_access
            shadow_function (Some shadow_program) (state0 [("x", "x")])
            (mkState [{[ "x" := false ]}; seed_scope [("x", "x")]]
                     {[ 3%nat ]} [shadow_program] [])
            {[ "x" := false ]} [seed_scope [("x", "x")]] "x" _ eq_refl _)
            shadow_use (Some shadow_stmt)
            (mkState [{[ "x" := false ]}; seed_scope [("x", "x")]]
                     {[ 3%nat ]} [shadow_body; shadow_function; shadow_program] [])
            _ eq_refl eq_refl).
  - vm_compute. reflexivity.
  - vm_compute. reflexivity.
  - eexists _, [Identifier 2 "f" 9 10; shadow_param], shadow_body, [], _.
    split; [vm_compute; reflexivity|].
    split; [reflexivity|].
    split; [vm_compute; reflexivity|].
    into (@nil Node) shadow_stmt (@nil Node).
    into (@nil Node) shadow_use (@nil Node).
    apply Entered_here.
Defined.

(** [x = 1] with the prop [x]. *)
Lemma write_to_prop_rejected_witness :
  is_write_target write_assignment write_x = true
  /\ resolve (name write_x) (scopeStack (state0 [("x", "x")])) = Some true
  /\ enter 0 (seed_map [("x", "x")]) ∅ dot_access write_x
           (Some write_assignment) (state0 [("x", "x")])
     = (Throw (Diag (ReadonlyViolation write_x)),
        mkState [seed_scope [("x", "x")]] ∅ [write_assignment] []).
Proof.
  split; [reflexivity|]. split; [vm_compute; reflexivity|].
  apply (write_to_prop_rejected 0 (seed_map [("x", "x")]) ∅ dot_access
           write_x write_assignment (state0 [("x", "x")])).
  - reflexivity.
  - reflexivity.
  - reflexivity.
  - vm_compute. reflexivity.
  - vm_compute. reflexivity.
Defined.

(** [[x] = arr] with the prop [x]: the target of the destructuring assignment
    is rewritten like a read, and nothing is reported. *)
Lemma destructuring_target_rewritten :
  transformDestructuredProps destructuring_assignment_program [] 0
    [("x", "x")] ∅ dot_access
  = (Done tt, [Overwrite 1 2 "__props.x"]).
Proof. vm_compute. reflexivity. Qed.

(** [({ x })] with the prop [x]. *)
Lemma shorthand_value_augmented_witness :
  is_shorthand shorthand_property = true
  /\ enter 0 (seed_map [("x", "x")]) ∅ dot_access shorthand_value
           (Some shorthand_property) (state0 [("x", "x")])
     = (Done Continue,
        mkState [seed_scope [("x", "x")]] ∅ [shorthand_property]
                [AppendLeft 4 ": __props.x"]).
Proof.
  split; [reflexivity|].
  apply (shorthand_value_augmented 0 (seed_map [("x", "x")]) ∅ dot_access
           shorthand_value shorthand_property (state0 [("x", "x")])).
  - reflexivity.
  - reflexivity.
  - reflexivity.
  - vm_compute. reflexivity.
  - vm_compute. reflexivity.
Defined.




(** [x;  x = 1] with the prop [x]: the walk reaches the assignment and
    ends there. *)
Lemma pass_fails_fast_witness :
  transformDestructuredProps late_write_program [] 0 [("x", "x")] ∅ dot_access
  = (Throw (Diag (ReadonlyViolation late_write_x)), [Overwrite 0 1 "__props.x"])
  /\ [] `prefix_of` [Overwrite 0 1 "__props.x"]
  /\ [Overwrite 0 1 "__props.x"] `prefix_of` [Overwrite 0 1 "__props.x"].
Proof.
  refine (proj2 (pass_fails_fast late_write_program [] 0 [("x", "x")] ∅
                   dot_access)
            (state0 [("x", "x")]) late_write_x (Some late_write_assignment)
            (mkState [seed_scope [("x", "x")]] ∅
                     [late_write_stmt; late_write_program]
                     [Overwrite 0 1 "__props.x"])
            (Diag (ReadonlyViolation late_write_x))
            (mkState [seed_scope [("x", "x")]] ∅
                     [late_write_assignment; late_write_stmt; late_write_program]
                     [Overwrite 0 1 "__props.x"])
            _ _ _).
  - vm_compute. reflexivity.
  - into [read_stmt] late_write_stmt (@nil Node).
    into (@nil Node) late_write_assignment (@nil Node).
    into (@nil Node) late_write_x [NumericLiteral 6 1 7 8].
    apply Entered_here.
  - vm_compute. reflexivity.
Defined.

(** [x;  x = 1] with the prop [x]: the pass ends in the read-only violation,
    and the edit recorded for the first statement is in the caller's log. *)
Lemma edit_before_violation_kept :
  transformDestructuredProps late_write_program [] 0 [("x", "x")] ∅ dot_access
  = (Throw (Diag (ReadonlyViolation late_write_x)), [Overwrite 0 1 "__props.x"]).
Proof. vm_compute. reflexivity. Qed.

(** The [x] of [let a: x] with the prop [x]. *)
Lemma type_position_skipped_witness :
  starts_with "TS" (type annotation_reference) = true
  /\ exists st',
       visit 0 (seed_map [("x", "x")]) ∅ dot_access annotation_x
             (Some annotation_reference) (state0 [("x", "x")])
       = (Done tt, st')
       /\ scopeStack st' = [seed_scope [("x", "x")]]
       /\ excludedIds st' = ∅
       /\ s st' = [].
Proof.
  split; [reflexivity|].
  destruct (type_position_skipped 0 (seed_map [("x", "x")]) ∅ dot_access
              annotation_x annotation_reference (state0 [("x", "x")])
              eq_refl eq_refl eq_refl eq_refl)
    as (st' & Hv & H1 & H2 & H3 & _).
  exists st'. auto.
Defined.

(** [watch()] with [watch] imported. *)
Lemma tracking_call_without_argument_witness :
  isCallOf watch_nothing (default "watch" (watch_imported !! "watch")) = Done true
  /\ elems watch_nothing "arguments" = Some []
  /\ enter 0 (seed_map [("x", "x")]) watch_imported dot_access watch_nothing
           (Some watch_nothing_stmt) (state0 [("x", "x")])
     = (Throw TypeError,
        mkState [seed_scope [("x", "x")]] ∅ [watch_nothing_stmt] []).
Proof.
  split; [vm_compute; reflexivity|]. split; [reflexivity|].
  apply (tracking_call_without_argument 0 (seed_map [("x", "x")])
           watch_imported dot_access watch_nothing (Some watch_nothing_stmt)
           (state0 [("x", "x")]) "watch").
  - left. reflexivity.
  - vm_compute. reflexivity.
  - reflexivity.
  - reflexivity.
Defined.

(** ** Defects *)

(** C1. With the prop [x]: in [x satisfies T] the read of [x] stands under
    a node whose kind starts with [TS] and is not on the list of [enter],
    and is skipped; in [for (const x of y) {}  x] the variable of the loop
    is collected into the scope around the loop, and the read after the
    loop counts as local.  Neither read is shadowed, and neither is
    rewritten.  In [switch (a) { case 1: const { x } = o }] the [x] of the
    pattern is a declaration site, and is rewritten. *)
Theorem prop_reference_missed :
  transformDestructuredProps satisfies_program [] 0 [("x", "x")] ∅ dot_access
  = (Done tt, [])
  /\ transformDestructuredProps for_of_program [] 0 [("x", "x")] ∅ dot_access
     = (Done tt, [])
  /\ transformDestructuredProps switch_program [] 0 [("x", "x")] ∅ dot_access
     = (Done tt, [AppendLeft 30 ": __props.x"]).
Proof. repeat split; vm_compute; reflexivity. Qed.

(** C4. [for (let { x } = o;;) {}], with the prop [x]: the shorthand sits in
    a destructuring pattern that binds.  The test of [rewriteId] that is to
    skip such patterns reads an [inPattern] mark that nothing sets, and the
    declaration is not one that [walkScope] collects: the pass rewrites the
    pattern to [{ x: __props.x }]. *)
Theorem pattern_shorthand_rewritten :
  transformDestructuredProps for_pattern_program [] 0
    [("x", "x")] ∅ dot_access
  = (Done tt, [AppendLeft 12 ": __props.x"]).
Proof. vm_compute. reflexivity. Qed.

(** C5. [const z = 1  watch(z)], with the prop [x] and [watch] imported: the
    first argument is an identifier bound as local, and the pass reports the
    tracking misuse all the same: the check looks at the kind of the
    argument and never at its binding. *)
Theorem tracking_misuse_on_local :
  transformDestructuredProps watch_local_program [] 0 [("x", "x")]
    watch_imported dot_access
  = (Throw (Diag (ReactivityTrackingMisuse "watch" watch_local_arg)), []).
Proof. vm_compute. reflexivity. Qed.

(** C6. [try {} catch (e) {}  e], with the prop [e]: the frame opened for the
    clause is never popped; it is still on the stack, above the root frame,
    when the pass ends, and the [e] after the clause resolves to the
    parameter of the clause: it gets no edit. *)
Theorem catch_frame_not_popped :
  (walkScope catch_program true ;;
   walk 0 (seed_map [("e", "e")]) ∅ dot_access catch_program)
    (state0 [("e", "e")])
  = (Done tt,
     mkState [{[ "e" := false ]}; seed_scope [("e", "e")]] {[ 4%nat ]} [] []).
Proof. vm_compute. reflexivity. Qed.

(** * Further properties of the pass *)

Section Further.

Variable offset : Z.
Variable propsLocalToPublicMap : gmap string string.
Variable vueImportAliases : gmap string string.
Variable genPropsAccessExp : string -> string.

Local Abbreviation enter :=
  (enter offset propsLocalToPublicMap vueImportAliases genPropsAccessExp).
Local Abbreviation visit :=
  (visit offset propsLocalToPublicMap vueImportAliases genPropsAccessExp).
Local Abbreviation visit_all :=
  (visit_all offset propsLocalToPublicMap vueImportAliases genPropsAccessExp).
Local Abbreviation Entered :=
  (Entered offset propsLocalToPublicMap vueImportAliases genPropsAccessExp).
Local Abbreviation Inside :=
  (Inside offset propsLocalToPublicMap vueImportAliases genPropsAccessExp).

(** X1. The scopes are balanced: when a subtree that contains no
    exception-handler clause has been visited to the end, the scope stack is
    exactly what it was before, every frame that [enter] opened having been
    closed by [leave]. *)
Theorem scopes_balanced node :
  forall parent st st',
    all_nodes not_catch node = true ->
    visit node parent st = (Done tt, st') ->
    scopeStack st' = scopeStack st.
Proof.
  induction node as [node IH] using Node_ind.
  intros parent st st' Hall H.
  apply all_nodes_inv in Hall as [Hn Hc].
  rewrite visit_eq in H.
  apply bind_done_inv in H as (signal & st1 & He & H).
  apply enter_stack in He.
  destruct signal.
  2:{ inversion H; subst. exact He. }
  apply bind_done_inv in H as ([] & st2 & Hv & Hl).
  assert (scopeStack st2 = scopeStack st1) as E2.
  { revert Hv. apply visit_all_same.
    clear -IH Hc.
    induction IH as [|c r Hc' _ IHr]; inversion Hc; subst; constructor; eauto. }
  apply leave_stack in Hl.
  rewrite <- (not_catch_pushes_pops _ _ Hn) in Hl.
  rewrite Hl, E2.
  destruct (pushes node parent).
  - destruct He as (F & _ & ->). reflexivity.
  - exact He.
Qed.

(** X2. The chain of parents is balanced: when a subtree without pure type
    nodes, entered under a parent that is not one either, has been visited
    to the end, [parentStack] is exactly what it was before. *)
Theorem parents_balanced node :
  forall parent st st',
    all_nodes not_type_node node = true ->
    match parent with Some p => is_type_parent p | None => false end = false ->
    visit node parent st = (Done tt, st') ->
    parentStack st' = parentStack st.
Proof.
  induction node as [node IH] using Node_ind.
  intros parent st st' Hall Hp H.
  apply all_nodes_inv in Hall as [Hn Hc].
  rewrite visit_eq in H.
  apply bind_done_inv in H as (signal & st1 & He & H).
  destruct signal.
  2:{ apply enter_skip_inv in He. congruence. }
  apply enter_parentStack in He.
  apply bind_done_inv in H as ([] & st2 & Hv & Hl).
  assert (parentStack st2 = parentStack st1) as E2.
  { revert Hv. apply visit_all_same.
    assert (is_type_parent node = false) as Hnode
      by (apply negb_true_iff; exact Hn).
    clear -IH Hc Hnode.
    induction IH as [|c r Hc' _ IHr]; inversion Hc; subst; constructor.
    - intros st st'. apply Hc'; [assumption|exact Hnode].
    - auto. }
  apply leave_parentStack in Hl.
  rewrite E2, He in Hl. rewrite Hl.
  destruct parent; reflexivity.
Qed.

(** X3. Declarations are hoisted: when [enter] has opened the scope of a
    function, of an exception-handler clause or of a block, every name other
    than [__proto__] that a statement standing directly in the body declares
    (a variable, function or class declaration, also exported, labeled, or
    at the head of a [for-of] or [for-in] loop) is bound as local in the new
    frame before any statement of the body is visited; and wherever an
    identifier of that name is entered below the node, before or after the
    declaration, [enter] returns and leaves the log as it is. *)
Theorem declarations_hoisted node parent st st1 b body stmt id :
  enter node parent st = (Done Continue, st1) ->
  scope_body node parent = Some b ->
  elems b "body" = Some body ->
  In (Some stmt) body ->
  statement_binds false stmt id ->
  name id <> "__proto__" ->
  (exists F, scopeStack st1 = F :: scopeStack st /\ F !! name id = Some false)
  /\ forall n' p' st',
       Inside node parent st n' p' st' ->
       type n' = "Identifier" ->
       name n' = name id ->
       exists signal, enter n' p' st' = (Done signal, entered_state p' st').
Proof.
  intros He Hb Hbody Hin Hs Hname.
  destruct (enter_binds_body _ _ _ _ _ _ _ _ _ _ _ _ Hname He Hb Hbody Hin Hs)
    as (F & outer & E & Hx).
  assert (resolve (name id) (scopeStack st1) = Some false) as Hr.
  { rewrite E. apply resolve_head. exact Hx. }
  split.
  - pose proof (enter_stack _ _ _ _ _ _ _ _ _ He) as Hst. cbn iota in Hst.
    rewrite (scope_body_pushes _ _ _ Hb) in Hst.
    destruct Hst as (F' & _ & E'). rewrite E' in E. injection E as -> _.
    exists F. auto.
  - intros n' p' st' Hi Ht Hn.
    apply enter_local_identifier; [exact Ht|].
    rewrite Hn. eapply Inside_resolve_local; eassumption.
Qed.

(** X4. Exclusion is permanent: an identifier that is in the exclusion set
    when a subtree is entered is never rewritten in the course of the visit:
    whenever the walker reaches it, [enter] returns and leaves the log as it
    is, whatever its name resolves to. *)
Theorem excluded_never_rewritten n p st id p' st' :
  Entered n p st id p' st' ->
  type id = "Identifier" ->
  uid id ∈ excludedIds st ->
  exists signal, enter id p' st' = (Done signal, entered_state p' st').
Proof.
  intros HE Ht Hx.
  apply enter_excluded_identifier; [exact Ht|].
  apply bool_decide_eq_true.
  eapply (Entered_excl _ _ _ _ _ _ _ _ _ _ HE). exact Hx.
Qed.

(** X5. A call of [watch] or [toRef], under the name it is imported by (the
    name of the method itself when it is not imported), whose first argument
    is an identifier under any number of type wrappers, is reported as a
    tracking misuse under the name of the method: [enter] throws before any
    scope is opened and leaves the log as it is. *)
Theorem tracking_misuse_reported node parent st method arg :
  match parent with Some p => is_type_parent p | None => false end = false ->
  tracking_misuse vueImportAliases node method arg ->
  (method = "toRef" ->
   isCallOf node (default "watch" (vueImportAliases !! "watch")) = Done false) ->
  enter node parent st
  = (Throw (Diag (ReactivityTrackingMisuse method arg)),
     entered_state parent st).
Proof.
  intros Hp (Hm & Hc & arg0 & rest & Ha & Hu & Ht) Hw.
  destruct st as [scopes excluded stack log].
  unfold_enter.
  erewrite bind_done
    with (st1 := entered_state parent (mkState scopes excluded stack log));
    [|destruct parent; reflexivity].
  rewrite Hp.
  destruct Hm as [-> | ->].
  - apply bind_throw. eapply checkUsage_identifier; eassumption.
  - erewrite bind_done; [|apply checkUsage_other; apply Hw; reflexivity].
    apply bind_throw. eapply checkUsage_identifier; eassumption.
Qed.

(** X6. Each skipped node leaves its parent on the chain of parents:
    [enter] pushes the parent before it skips, and a skipped node gets no
    [leave].  When a subtree has been visited to the end, [parentStack] is
    longer than before by the number of nodes that were skipped. *)
Theorem skipped_nodes_keep_parent node :
  forall parent st st',
    visit node parent st = (Done tt, st') ->
    List.length (parentStack st')
    = (List.length (parentStack st) + skipped_calls parent node)%nat.
Proof.
  induction node as [node IH] using Node_ind.
  intros parent st st' H. rewrite visit_eq in H.
  apply bind_done_inv in H as (signal & st1 & He & H).
  pose proof (enter_parentStack _ _ _ _ _ _ _ _ _ He) as E1.
  rewrite skipped_calls_eq.
  destruct signal.
  - rewrite (enter_continue_inv _ _ _ _ _ _ _ _ He).
    apply bind_done_inv in H as ([] & st2 & Hv & Hl).
    apply leave_parentStack in Hl.
    assert (List.length (parentStack st2)
            = (List.length (parentStack st1)
               + list_sum (map (skipped_calls (Some node)) (children node)))%nat)
      as E2.
    { revert Hv.
      apply (visit_all_sum _ _ _ _ (fun st => List.length (parentStack st))).
      clear -IH. induction IH as [|c r Hc _ IHr]; constructor; auto. }
    rewrite Hl. destruct parent as [p|]; cbn [entered_state parentStack] in E1.
    + rewrite E1 in E2. cbn [List.length] in E2.
      destruct (parentStack st2); cbn [List.length tail] in *; lia.
    + rewrite E2, E1. reflexivity.
  - pose proof (enter_skip_inv _ _ _ _ _ _ _ _ He) as Hs.
    fold (skipped parent) in Hs. rewrite Hs.
    inversion H; subst. rewrite E1.
    destruct parent as [p|]; [|discriminate]. simpl. lia.
Qed.

(** X7. The frame of an exception-handler clause stays: [leave] closes
    the frame of a function and of a block, never that of a clause.  When a
    subtree has been visited to the end, the scope stack is the stack of
    before under as many further frames, all of local bindings, as clauses
    were entered. *)
Theorem clause_frames_stay node :
  forall parent st st',
    visit node parent st = (Done tt, st') ->
    grows_by (clause_calls parent node) st st'.
Proof.
  induction node as [node IH] using Node_ind.
  intros parent st st' H. rewrite visit_eq in H.
  apply bind_done_inv in H as (signal & st1 & He & H).
  pose proof (enter_stack _ _ _ _ _ _ _ _ _ He) as E1.
  rewrite clause_calls_eq.
  destruct signal.
  2:{ pose proof (enter_skip_inv _ _ _ _ _ _ _ _ He) as Hs.
      fold (skipped parent) in Hs. rewrite Hs. inversion H; subst.
      exists []. split; [exact E1|]. split; constructor. }
  rewrite (enter_continue_inv _ _ _ _ _ _ _ _ He).
  apply bind_done_inv in H as ([] & st2 & Hv & Hl).
  apply leave_stack in Hl.
  assert (grows_by
            (list_sum (map (clause_calls (Some node)) (children node)))
            st1 st2) as (L2 & E2 & HL2 & Hlen).
  { revert Hv. apply visit_all_grows_by.
    clear -IH. induction IH as [|c r Hc _ IHr]; constructor; auto. }
  destruct (str_eq (type node) "CatchClause") eqn:Ec.
  - assert (pushes node parent = true) as Hpush.
    { unfold pushes. rewrite Ec. apply orb_true_iff. left. apply orb_true_r. }
    assert (pops node parent = false) as Hpop.
    { apply str_eq_true in Ec. unfold pops, isFunctionType. rewrite Ec.
      reflexivity. }
    rewrite Hpush in E1. rewrite Hpop in Hl. destruct E1 as (F & HF & E1).
    exists (L2 ++ [F])%list. split; [rewrite Hl, E2, E1, <- app_assoc; reflexivity|].
    split; [apply Forall_app; split;
              [exact HL2|constructor; [exact HF|constructor]]|].
    rewrite List.length_app. cbn [List.length]. lia.
  - assert (pushes node parent = pops node parent) as Hpp.
    { apply not_catch_pushes_pops. unfold not_catch. rewrite Ec. reflexivity. }
    rewrite Hpp in E1. simpl.
    destruct (pops node parent).
    + destruct E1 as (F & HF & E1). rewrite E2, E1 in Hl.
      destruct L2 as [|G L2]; simpl in Hl.
      * exists []. split; [exact Hl|]. split; [constructor|exact Hlen].
      * exists (L2 ++ [F])%list.
        split; [rewrite Hl, <- app_assoc; reflexivity|].
        inversion HL2; subst.
        split; [apply Forall_app; split;
                  [assumption|constructor; [exact HF|constructor]]|].
        rewrite List.length_app. cbn [List.length] in Hlen |- *. lia.
    + exists L2. rewrite Hl, E2, E1. auto.
Qed.

End Further.

(** X8. The error branch of [registerLocalBinding] is never reached: for
    every tree, every set of props and every import table, the pass does not
    end in the invariant violation, a scope being current whenever a binding
    is registered. *)
Theorem invariant_violation_unreachable ast s0 offset knownProps
    vueImportAliases genPropsAccessExp :
  ends_in_violation
    (fst (transformDestructuredProps ast s0 offset knownProps
            vueImportAliases genPropsAccessExp)) = false.
Proof.
  destruct (transformDestructuredProps _ _ _ _ _ _) as [[a|e] log] eqn:E;
    [reflexivity|].
  cbn [fst ends_in_violation].
  apply pass_throw_entered in E
    as [->|(st1 & n' & p' & st' & st'' & _ & _ & He & _)]; [reflexivity|].
  assert (throws_only (fun e => is_invariant_violation e = false)
            (enter offset (seed_map knownProps) vueImportAliases
                   genPropsAccessExp n' p')) as HT.
  { apply enter_throws; intros; reflexivity. }
  exact (HT _ _ _ He _ eq_refl).
Qed.

(** X9. Every edit that the pass adds to the log is made at an identifier of
    the tree whose name is the local alias of a known prop: it overwrites the
    span of the identifier, shifted by the offset, with the access by the
    public key of that prop, or inserts [: ] and that access after it. *)
Theorem edits_only_at_props ast s0 offset knownProps vueImportAliases
    genPropsAccessExp r log :
  transformDestructuredProps ast s0 offset knownProps vueImportAliases
                             genPropsAccessExp = (r, log) ->
  exists added,
    log = (s0 ++ added)%list
    /\ forall e, In e added ->
         exists id key,
           Within id ast
           /\ type id = "Identifier"
           /\ In (key, name id) knownProps
           /\ seed_map knownProps !! name id = Some key
           /\ edit_at offset id (genPropsAccessExp key) e.
Proof.
  intros H.
  destruct (pass_edits_entered _ _ _ _ _ _ _ _ H) as (added & Hlog & Ha).
  exists added. split; [exact Hlog|].
  intros e Hin.
  destruct (Ha e Hin) as (st1 & n' & p' & st' & o' & st'' & Hw & HE & He & Hs).
  destruct (enter_edit_shape _ _ _ _ _ _ _ _ _ _ He Hs)
    as (Ht & _ & _ & Hr & Hshape).
  destruct (pass_resolve_prop _ _ _ _ _ _ _ _ _ _ _ Hw HE Hr)
    as (key & Hk & Hin').
  exists n', key. split; [eapply Entered_within; exact HE|].
  split; [exact Ht|]. split; [exact Hin'|]. split; [exact Hk|].
  unfold access in Hshape. rewrite Hk in Hshape. exact Hshape.
Qed.

(** X10. When no identifier of the tree bears the local alias of a known prop
    (in particular when there is no known prop), the pass records nothing:
    the log it ends with is the log it was given, whether it completes or
    ends in an error. *)
Theorem no_prop_name_no_edit ast s0 offset knownProps vueImportAliases
    genPropsAccessExp r log :
  (forall id key,
      Within id ast -> type id = "Identifier" ->
      ~ In (key, name id) knownProps) ->
  transformDestructuredProps ast s0 offset knownProps vueImportAliases
                             genPropsAccessExp = (r, log) ->
  log = s0.
Proof.
  intros Hnone H.
  destruct (pass_edits_entered _ _ _ _ _ _ _ _ H) as (added & Hlog & Ha).
  destruct added as [|e added]; [rewrite app_nil_r in Hlog; exact Hlog|].
  exfalso.
  destruct (Ha e (or_introl eq_refl))
    as (st1 & n' & p' & st' & o' & st'' & Hw & HE & He & Hs).
  destruct (enter_edit_shape _ _ _ _ _ _ _ _ _ _ He Hs)
    as (Ht & _ & _ & Hr & _).
  destruct (pass_resolve_prop _ _ _ _ _ _ _ _ _ _ _ Hw HE Hr)
    as (key & _ & Hin').
  eapply Hnone; [eapply Entered_within; exact HE|exact Ht|exact Hin'].
Qed.

(** X11. A declaration at the top level of the script overrides the prop of
    the same name: when a statement of the program body declares a name
    (otherwise than by destructuring [defineProps()]), the pass edits no
    identifier of that name anywhere in the script, before or after the
    declaration; every edit it makes is at an identifier of another name. *)
Theorem root_declaration_shadows ast s0 offset knownProps vueImportAliases
    genPropsAccessExp body stmt id r log :
  elems ast "body" = Some body ->
  In (Some stmt) body ->
  statement_binds true stmt id ->
  transformDestructuredProps ast s0 offset knownProps vueImportAliases
                             genPropsAccessExp = (r, log) ->
  exists added,
    log = (s0 ++ added)%list
    /\ forall e, In e added ->
         exists n',
           Within n' ast
           /\ type n' = "Identifier"
           /\ name n' <> name id
           /\ edit_at offset n'
                (access (seed_map knownProps) genPropsAccessExp n') e.
Proof.
  intros Hbody Hin Hs H.
  destruct (pass_edits_entered _ _ _ _ _ _ _ _ H) as (added & Hlog & Ha).
  exists added. split; [exact Hlog|].
  intros e Hin_e.
  destruct (Ha e Hin_e)
    as (st1 & n' & p' & st' & o' & st'' & Hw & HE & He & Hs').
  destruct (enter_edit_shape _ _ _ _ _ _ _ _ _ _ He Hs')
    as (Ht & _ & _ & Hr & Hshape).
  exists n'. split; [eapply Entered_within; exact HE|].
  split; [exact Ht|]. split; [|exact Hshape].
  intros Hn.
  assert (name id <> "__proto__") as Hname.
  { rewrite <- Hn.
    eapply pass_resolve_not_proto; [exact Hw|exact HE|exact Hr]. }
  destruct (walkScope_binds _ _ _ _ _ _ _ Hname Hw Hbody Hin Hs)
    as (F & outer & E & Hx).
  assert (resolve (name n') (scopeStack st') = Some false) as Hl.
  { rewrite Hn. eapply resolve_grows; [eapply Entered_grows; exact HE|].
    rewrite E. apply resolve_head. exact Hx. }
  rewrite Hl in Hr. discriminate.
Qed.

(** X12. Only the statements that stand directly in a body are looked at, and
    only those of seven kinds: on a body whose statements are all of other
    kinds (expression statements, [if], [for (;;)], [while], [switch],
    [try], nested blocks, ...) or ambient declarations ([declare ...]),
    [walkScope] returns and leaves the state as it is, whatever those
    statements declare inside. *)
Theorem other_statements_not_collected node isRoot body st :
  elems node "body" = Some body ->
  Forall (fun entry =>
            exists stmt,
              entry = Some stmt
              /\ (includes collected_kinds (type stmt) = false
                  \/ ambient stmt)) body ->
  walkScope node isRoot st = (Done tt, st).
Proof.
  intros Hb Hall. unfold walkScope.
  rewrite Hb. unfold bind at 1. cbn [lift deref]. clear Hb.
  induction Hall as [|entry r (stmt & -> & Hk) _ IH]; [reflexivity|].
  cbn [for_of].
  erewrite bind_done; [exact IH|].
  apply walkScope_other_statement. exact Hk.
Qed.

(** X13. The destructuring of [defineProps()] at the root declares no local:
    on a variable declaration of the program body whose declarators all
    initialise from a call of [defineProps] (under type wrappers or not),
    the scope frames, the chain of parents and the log are left as they
    are, and when the collection returns, every identifier that the targets
    bind is in the exclusion set. *)
Theorem defineProps_destructure_excluded stmt declarations st o st' :
  flag stmt "declare" = false ->
  elems stmt "declarations" = Some declarations ->
  Forall (fun entry =>
            exists decl,
              entry = Some decl /\ isDefineProps true decl = Done true)
         declarations ->
  walkVariableDeclaration stmt true st = (o, st') ->
  excludes st st'
  /\ (o = Done tt ->
      forall decl id,
        In (Some decl) declarations -> declarator_names decl id ->
        uid id ∈ excludedIds st').
Proof.
  intros Hd Hds Hall. unfold walkVariableDeclaration.
  rewrite Hd, Hds. unfold bind at 1. cbn [lift deref].
  clear Hd Hds. revert st.
  induction Hall as [|entry r (decl & -> & Hp) _ IH]; intros st H.
  - inversion H; subst. split; [reflexivity|]. intros _ ? ? [].
  - cbn [for_of] in H.
    apply bind_inv in H as [([] & st1 & H1 & H2)|(e & -> & H1)].
    + rewrite defineProps_declarator in H1 by exact Hp.
      pose proof (defineProps_declarator_excludes _ _ _ _ H1) as Hx1.
      destruct (IH _ H2) as [Hx2 Hin2].
      split; [etransitivity; eassumption|].
      intros Ho decl' id [Heq|Hin] Hnames.
      * injection Heq as <-.
        destruct Hnames as (target & ids & Ht & He & Hid).
        destruct Hx2 as (_ & _ & _ & Hsub). apply Hsub.
        unfold bind at 1 in H1. rewrite Ht in H1.
        cbn [lift deref obind] in H1. rewrite He in H1.
        eapply for_ids_excluded; eassumption.
      * eapply Hin2; eassumption.
    + rewrite defineProps_declarator in H1 by exact Hp.
      split; [|discriminate].
      exact (defineProps_declarator_excludes _ _ _ _ H1).
Qed.

(** X14. Props are bound in the root frame only: at every call of [enter]
    in the course of the pass, the scope stack is the root frame under
    frames that hold local bindings only, and the names that the root frame
    binds as props are local aliases of known props. *)
Theorem props_bound_at_root_only ast s0 knownProps st1 offset
    vueImportAliases genPropsAccessExp n p st :
  walkScope ast true (mkState [seed_scope knownProps] ∅ [] s0)
  = (Done tt, st1) ->
  Entered offset (seed_map knownProps) vueImportAliases genPropsAccessExp
          ast None st1 n p st ->
  exists L root,
    scopeStack st = (L ++ [root])%list
    /\ Forall all_local L
    /\ forall x, root !! x = Some true -> exists key, In (key, x) knownProps.
Proof.
  intros Hw HE.
  pose proof (walkScope_registers _ _ _ _ _ Hw) as (Hst & _).
  cbn [scopeStack] in Hst.
  destruct (scopeStack st1) as [|root [|? ?]] eqn:Es; simpl in Hst;
    try contradiction; [|destruct Hst as [_ Hst]; discriminate].
  destruct Hst as [[_ Hroot] _].
  pose proof (Entered_grows _ _ _ _ _ _ _ _ _ _ HE) as (L & EL & HL).
  exists L, root. rewrite EL, Es. split; [reflexivity|]. split; [exact HL|].
  intros x Hx. apply Hroot, seed_scope_inv in Hx.
  destruct Hx as (key & _ & Hin). eauto.
Qed.

(** X15. Where the read-only violation comes from: when the pass ends in
    it, the node reported is an identifier of the tree that bears the local
    alias of a known prop and is written to, as the left operand of an
    assignment expression or the operand of an increment or decrement of
    the tree.  The report goes by the name: the identifier may be a variable
    of the script's own that [walkScope] does not collect, like the
    variable of a [for (;;)] loop. *)
Theorem readonly_violation_origin ast s0 offset knownProps vueImportAliases
    genPropsAccessExp id log :
  transformDestructuredProps ast s0 offset knownProps vueImportAliases
                             genPropsAccessExp
  = (Throw (Diag (ReadonlyViolation id)), log) ->
  Within id ast
  /\ type id = "Identifier"
  /\ (exists key, In (key, name id) knownProps)
  /\ exists parent,
       Within parent ast
       /\ In id (children parent)
       /\ is_write_target parent id = true.
Proof.
  intros H.
  apply pass_throw_entered in H
    as [H|(st1 & n' & p' & st' & st'' & Hw & HE & He & _)]; [discriminate|].
  apply enter_readonly_inv in He as (-> & Ht & _ & Hr & q & -> & Hq).
  split; [eapply Entered_within; exact HE|].
  split; [exact Ht|].
  destruct (pass_resolve_prop _ _ _ _ _ _ _ _ _ _ _ Hw HE Hr)
    as (key & _ & Hin).
  split; [eauto|].
  apply Entered_parent in HE as [[_ Hp]|(q' & Hp & Hq' & Hc)]; [discriminate|].
  injection Hp as <-. exists q. auto.
Qed.

(** X16. The tracking misuse is reported for tracking calls only: when the
    pass ends in it, the tree holds a call of the method reported, [watch]
    or [toRef], under the name it is imported by, and the node reported is
    the identifier that the first argument of that call is under its type
    wrappers. *)
Theorem tracking_misuse_sound ast s0 offset knownProps vueImportAliases
    genPropsAccessExp method arg log :
  transformDestructuredProps ast s0 offset knownProps vueImportAliases
                             genPropsAccessExp
  = (Throw (Diag (ReactivityTrackingMisuse method arg)), log) ->
  exists call,
    Within call ast /\ tracking_misuse vueImportAliases call method arg.
Proof.
  intros H.
  apply pass_throw_entered in H
    as [H|(st1 & n' & p' & st' & st'' & Hw & HE & He & _)]; [discriminate|].
  exists n'. split; [eapply Entered_within; exact HE|].
  assert (throws_only
            (fun e => e = Diag (ReactivityTrackingMisuse method arg) ->
                      tracking_misuse vueImportAliases n' method arg)
            (enter offset (seed_map knownProps) vueImportAliases
                   genPropsAccessExp n' p')) as HT.
  { apply enter_throws.
    - discriminate.
    - intros m a Hm E. injection E as <- <-. exact Hm.
    - discriminate. }
  exact (HT _ _ _ He _ eq_refl eq_refl).
Qed.

(** ** Worked examples of the further properties *)

(** [function f(x) { x }]: the frame of [f] is closed when [f] is left. *)
Lemma scopes_balanced_witness :
  scopeStack (snd (visit 0 (seed_map [("x", "x")]) ∅ dot_access
                         shadow_program None (state0 [("x", "x")])))
  = scopeStack (state0 [("x", "x")]).
Proof.
  apply (scopes_balanced 0 (seed_map [("x", "x")]) ∅ dot_access
           shadow_program None (state0 [("x", "x")])).
  - vm_compute. reflexivity.
  - vm_compute. reflexivity.
Defined.

(** [function f(x) { x }]: no parent is left on the chain. *)
Lemma parents_balanced_witness :
  parentStack (snd (visit 0 (seed_map [("x", "x")]) ∅ dot_access
                          shadow_program None (state0 [("x", "x")])))
  = parentStack (state0 [("x", "x")]).
Proof.
  apply (parents_balanced 0 (seed_map [("x", "x")]) ∅ dot_access
           shadow_program None (state0 [("x", "x")])).
  - vm_compute. reflexivity.
  - reflexivity.
  - vm_compute. reflexivity.
Defined.

(** [{ x;  let x = 1 }] with the prop [x]: the [x] read before the
    declaration is the local of the block. *)
Lemma declarations_hoisted_witness :
  exists signal,
    enter 0 (seed_map [("x", "x")]) ∅ dot_access hoisted_use
          (Some hoisted_use_stmt)
          (mkState [{[ "x" := false ]}; seed_scope [("x", "x")]]
                   {[ 7%nat ]} [hoisted_block; hoisted_program] [])
    = (Done signal,
       mkState [{[ "x" := false ]}; seed_scope [("x", "x")]]
               {[ 7%nat ]}
               [hoisted_use_stmt; hoisted_block; hoisted_program] []).
Proof.
  refine (proj2 (declarations_hoisted 0 (seed_map [("x", "x")]) ∅ dot_access
            hoisted_block (Some hoisted_program) (state0 [("x", "x")])
            (mkState [{[ "x" := false ]}; seed_scope [("x", "x")]]
                     {[ 7%nat ]} [hoisted_program] [])
            hoisted_block [Some hoisted_use_stmt; Some hoisted_declaration]
            hoisted_declaration hoisted_id _ eq_refl eq_refl _ _ _)
            hoisted_use (Some hoisted_use_stmt)
            (mkState [{[ "x" := false ]}; seed_scope [("x", "x")]]
                     {[ 7%nat ]} [hoisted_block; hoisted_program] [])
            _ eq_refl eq_refl).
  - vm_compute. reflexivity.
  - right. left. reflexivity.
  - left. split; [reflexivity|]. split; [reflexivity|].
    exists [Some hoisted_declarator], hoisted_declarator.
    split; [reflexivity|]. split; [left; reflexivity|].
    split; [reflexivity|].
    exists hoisted_id, [hoisted_id].
    split; [reflexivity|]. split; [reflexivity|left; reflexivity].
  - discriminate.
  - eexists _, (@nil Node), hoisted_use_stmt, [hoisted_declaration], _.
    split; [vm_compute; reflexivity|].
    split; [reflexivity|].
    split; [vm_compute; reflexivity|].
    into (@nil Node) hoisted_use (@nil Node).
    apply Entered_here.
Defined.

(** [const { x } = defineProps()  x]: the [x] of the pattern, excluded by the
    collection at the root, is left alone when the walker reaches it. *)
Lemma excluded_never_rewritten_witness :
  exists signal,
    enter 0 (seed_map [("x", "x")]) ∅ dot_access macro_x (Some macro_property)
          (mkState [seed_scope [("x", "x")]] {[ 6%nat ]}
                   [macro_pattern; macro_declarator; macro_declaration;
                    macro_program] [])
    = (Done signal,
       mkState [seed_scope [("x", "x")]] {[ 6%nat ]}
               [macro_property; macro_pattern; macro_declarator;
                macro_declaration; macro_program] []).
Proof.
  refine (excluded_never_rewritten 0 (seed_map [("x", "x")]) ∅ dot_access
            macro_program None
            (mkState [seed_scope [("x", "x")]] {[ 6%nat ]} [] [])
            macro_x (Some macro_property)
            (mkState [seed_scope [("x", "x")]] {[ 6%nat ]}
                     [macro_pattern; macro_declarator; macro_declaration;
                      macro_program] [])
            _ eq_refl _).
  - into (@nil Node) macro_declaration [macro_use_stmt].
    into (@nil Node) macro_declarator (@nil Node).
    into (@nil Node) macro_pattern
         [CallExpression 7 14 27 (Identifier 8 "defineProps" 14 25) []].
    into (@nil Node) macro_property (@nil Node).
    into [Identifier 5 "x" 8 9] macro_x (@nil Node).
    apply Entered_here.
  - vm_compute. reflexivity.
Defined.

(** [watch(x as any)], [watch] not imported: the call is matched under the
    name of the method, and the identifier is found under the wrapper. *)
Lemma tracking_misuse_reported_witness :
  enter 0 (seed_map [("x", "x")]) ∅ dot_access watch_wrapped_call
        (Some watch_wrapped_stmt) (state0 [("x", "x")])
  = (Throw (Diag (ReactivityTrackingMisuse "watch" watch_wrapped_x)),
     mkState [seed_scope [("x", "x")]] ∅ [watch_wrapped_stmt] []).
Proof.
  apply (tracking_misuse_reported 0 (seed_map [("x", "x")]) ∅ dot_access
           watch_wrapped_call (Some watch_wrapped_stmt) (state0 [("x", "x")])
           "watch" watch_wrapped_x).
  - reflexivity.
  - split; [left; reflexivity|]. split; [vm_compute; reflexivity|].
    exists watch_wrapped_arg, [].
    split; [reflexivity|]. split; reflexivity.
  - discriminate.
Defined.

(** The [x] of [let a: x]: the type reference stays on the chain. *)
Lemma skipped_nodes_keep_parent_witness :
  List.length
    (parentStack (snd (visit 0 (seed_map [("x", "x")]) ∅ dot_access
                             annotation_x (Some annotation_reference)
                             (state0 [("x", "x")]))))
  = (List.length (parentStack (state0 [("x", "x")]))
     + skipped_calls (Some annotation_reference) annotation_x)%nat.
Proof.
  apply (skipped_nodes_keep_parent 0 (seed_map [("x", "x")]) ∅ dot_access
           annotation_x (Some annotation_reference) (state0 [("x", "x")])).
  vm_compute. reflexivity.
Defined.

(** [try {} catch (e) {}  e]: one clause, one frame left. *)
Lemma clause_frames_stay_witness :
  grows_by (clause_calls None catch_program)
    (state0 [("e", "e")])
    (snd (visit 0 (seed_map [("e", "e")]) ∅ dot_access catch_program None
                (state0 [("e", "e")]))).
Proof.
  apply (clause_frames_stay 0 (seed_map [("e", "e")]) ∅ dot_access
           catch_program None (state0 [("e", "e")])).
  vm_compute. reflexivity.
Defined.

(** [x;] with the prop [x]: the one edit is at the identifier [x]. *)
Lemma edits_only_at_props_witness :
  exists added,
    [Overwrite 0 1 "__props.x"] = ([] ++ added)%list
    /\ forall e, In e added ->
         exists id key,
           Within id read_program
           /\ type id = "Identifier"
           /\ In (key, name id) [("x", "x")]
           /\ seed_map [("x", "x")] !! name id = Some key
           /\ edit_at 0 id (dot_access key) e.
Proof.
  apply (edits_only_at_props read_program [] 0 [("x", "x")] ∅ dot_access
           (Done tt)).
  vm_compute. reflexivity.
Defined.

(** [x;] without props. *)
Lemma no_prop_name_no_edit_witness :
  snd (transformDestructuredProps read_program [AppendLeft 0 "a"] 0 [] ∅
         dot_access)
  = [AppendLeft 0 "a"].
Proof.
  apply (no_prop_name_no_edit read_program [AppendLeft 0 "a"] 0 [] ∅
           dot_access (Done tt)).
  - intros id key _ _ [].
  - vm_compute. reflexivity.
Defined.

(** [x;  const x = 1] with the prop [x]: nothing is edited. *)
Lemma root_declaration_shadows_witness :
  exists added,
    ([] : list Edit) = ([] ++ added)%list
    /\ forall e, In e added ->
         exists n',
           Within n' root_program
           /\ type n' = "Identifier"
           /\ name n' <> name root_id
           /\ edit_at 0 n' (access (seed_map [("x", "x")]) dot_access n') e.
Proof.
  apply (root_declaration_shadows root_program [] 0 [("x", "x")] ∅ dot_access
           [Some root_use_stmt; Some root_declaration] root_declaration
           root_id (Done tt) []).
  - reflexivity.
  - right. left. reflexivity.
  - left. split; [reflexivity|]. split; [reflexivity|].
    exists [Some root_declarator], root_declarator.
    split; [reflexivity|]. split; [left; reflexivity|].
    split; [vm_compute; reflexivity|].
    exists root_id, [root_id].
    split; [reflexivity|]. split; [reflexivity|left; reflexivity].
  - vm_compute. reflexivity.
Defined.

(** [x;]: an expression statement declares nothing. *)
Lemma other_statements_not_collected_witness :
  walkScope read_program true (state0 [("x", "x")])
  = (Done tt, state0 [("x", "x")]).
Proof.
  apply (other_statements_not_collected read_program true [Some read_stmt]).
  - reflexivity.
  - constructor; [|constructor].
    exists read_stmt. split; [reflexivity|left; reflexivity].
Defined.

(** [const { x } = defineProps()]: the [x] of the pattern is excluded. *)
Lemma defineProps_destructure_excluded_witness :
  uid macro_x
  ∈ excludedIds (snd (walkVariableDeclaration macro_declaration true
                        (state0 [("x", "x")]))).
Proof.
  refine (proj2 (defineProps_destructure_excluded macro_declaration
                   [Some macro_declarator] (state0 [("x", "x")]) (Done tt)
                   (snd (walkVariableDeclaration macro_declaration true
                           (state0 [("x", "x")])))
                   eq_refl eq_refl _ _)
            eq_refl macro_declarator macro_x (or_introl eq_refl) _).
  - constructor; [|constructor].
    exists macro_declarator. split; [reflexivity|vm_compute; reflexivity].
  - vm_compute. reflexivity.
  - exists macro_pattern, [macro_x].
    split; [reflexivity|]. split; [reflexivity|left; reflexivity].
Defined.

(** [function f(x) { x }] with the prop [x], at the [x] of the body. *)
Lemma props_bound_at_root_only_witness :
  exists L root,
    [{[ "x" := false ]}; <["f" := false]> (seed_scope [("x", "x")])]
    = (L ++ [root])%list
    /\ Forall all_local L
    /\ forall x, root !! x = Some true -> exists key, In (key, x) [("x", "x")].
Proof.
  refine (props_bound_at_root_only shadow_program [] [("x", "x")]
            (mkState [<["f" := false]> (seed_scope [("x", "x")])]
                     {[ 2%nat ]} [] [])
            0 ∅ dot_access shadow_use (Some shadow_stmt)
            (mkState [{[ "x" := false ]};
                      <["f" := false]> (seed_scope [("x", "x")])]
                     {[ 2%nat; 3%nat ]}
                     [shadow_body; shadow_function; shadow_program] [])
            _ _).
  - vm_compute. reflexivity.
  - into (@nil Node) shadow_function (@nil Node).
    into [Identifier 2 "f" 9 10; shadow_param] shadow_body (@nil Node).
    into (@nil Node) shadow_stmt (@nil Node).
    into (@nil Node) shadow_use (@nil Node).
    apply Entered_here.
Defined.

(** [x;  x = 1] with the prop [x]. *)
Lemma readonly_violation_origin_witness :
  Within late_write_x late_write_program
  /\ type late_write_x = "Identifier"
  /\ (exists key, In (key, name late_write_x) [("x", "x")])
  /\ exists parent,
       Within parent late_write_program
       /\ In late_write_x (children parent)
       /\ is_write_target parent late_write_x = true.
Proof.
  apply (readonly_violation_origin late_write_program [] 0 [("x", "x")] ∅
           dot_access late_write_x [Overwrite 0 1 "__props.x"]).
  vm_compute. reflexivity.
Defined.

(** [const z = 1  watch(z)] with [watch] imported. *)
Lemma tracking_misuse_sound_witness :
  exists call,
    Within call watch_local_program
    /\ tracking_misuse watch_imported call "watch" watch_local_arg.
Proof.
  apply (tracking_misuse_sound watch_local_program [] 0 [("x", "x")]
           watch_imported dot_access "watch" watch_local_arg []).
  vm_compute. reflexivity.
Defined.
